(** * Relevance vector regression: [sklearn_rvm/rvm.py]

    A shallow embedding of the regressor [RVR] (class [BaseRVM] and its
    subclass [RVR]) and the properties of its fitting loop.

    Numbers are real numbers: the embedding follows the arithmetic the source
    writes, without rounding, overflow or non-finite values.  A division is
    Rocq's total division; statements that depend on one carry the hypothesis
    that its divisor is not zero.

    Library behaviour the source relies on is written out where the control
    flow depends on it:
    - [math.log] raises [ValueError] outside [(0, +oo)];
    - indexing an array with a boolean mask of another length raises
      [IndexError] (numpy 1.13 and later);
    - [np.max(a, axis)] takes the axis as its second positional argument and
      raises [TypeError] when it is a float (numpy 1.12 and later);
    - [check_is_fitted(est, attributes)] raises [NotFittedError] unless every
      listed attribute is present on the estimator;
    - [linalg.inv] raises [LinAlgError] on a singular matrix and returns the
      empty matrix on the empty matrix; [linalg.pinv] is total;
    - [check_array] raises [ValueError] unless its argument is a 2-D array
      with at least one row and one column;
    - [x or {}] is [{}] when [x] is false; the truth value of an array with
      more than one element raises [ValueError], that of the empty array is
      false (numpy before 2.2); [**params] raises [TypeError] unless
      [params] is a mapping.
    The kernel ([pairwise_kernels], which receives the metric and the
    parameters [_get_kernel] hands it, and may raise) and the LAPACK
    routines behind [linalg.inv] and [linalg.pinv] are parameters of the
    development. *)

From Stdlib Require Import String ZArith Reals Lra Lia Arith Bool List.
Import ListNotations.
Open Scope R_scope.

(** ** Python exceptions and results *)

Module Py.

Inductive exn : Type :=
| TypeError | ValueError | IndexError | AttributeError
| NotFittedError | LinAlgError.

Definition exn_eqb (a b : exn) : bool :=
  match a, b with
  | TypeError, TypeError | ValueError, ValueError | IndexError, IndexError
  | AttributeError, AttributeError | NotFittedError, NotFittedError
  | LinAlgError, LinAlgError => true
  | _, _ => false
  end.

Inductive result (A : Type) : Type :=
| Ok (a : A)
| Raise (e : exn).

Arguments Ok {A} a.
Arguments Raise {A} e.

Definition bind {A B : Type} (c : result A) (k : A -> result B) : result B :=
  match c with
  | Ok a => k a
  | Raise e => Raise e
  end.

(** [try: body  except e: handler] *)
Definition try_except {A : Type} (body : result A) (e : exn)
    (handler : result A) : result A :=
  match body with
  | Ok a => Ok a
  | Raise e' => if exn_eqb e e' then handler else Raise e'
  end.

(** [math.log] *)
Definition math_log (x : R) : result R :=
  if Rlt_dec 0 x then Ok (ln x) else Raise ValueError.

End Py.
Import Py.

Notation "x <- c ;; k" := (bind c (fun x => k))
  (at level 61, c at next level, right associativity).
Notation "' pat <- c ;; k" := (bind c (fun x => match x with pat => k end))
  (at level 61, pat pattern, c at next level, right associativity).

(** Comparisons of the source, as booleans. *)
Definition Rltb (x y : R) : bool := if Rlt_dec x y then true else false.
Definition Rleb (x y : R) : bool := if Rle_dec x y then true else false.
Definition Rgeb (x y : R) : bool := Rleb y x.

(** ** numpy arrays

    A 1-D array is a list; a 2-D array is the list of its rows.  The number
    of columns of an operand is passed where the rows alone do not determine
    the shape of the result (an array with no row). *)

Module Np.

Definition vec := list R.
Definition matrix := list (list R).

Fixpoint zip_with {A B C : Type} (f : A -> B -> C) (l1 : list A) (l2 : list B)
    : list C :=
  match l1, l2 with
  | a :: l1', b :: l2' => f a b :: zip_with f l1' l2'
  | _, _ => []
  end.

Definition zeros (n : nat) : vec := repeat 0 n.
Definition ones (n : nat) : vec := repeat 1 n.

Definition vadd : vec -> vec -> vec := zip_with Rplus.
Definition vsub : vec -> vec -> vec := zip_with Rminus.
Definition vmul : vec -> vec -> vec := zip_with Rmult.
Definition vdiv : vec -> vec -> vec := zip_with Rdiv.
Definition vscale (c : R) (v : vec) : vec := map (Rmult c) v.
Definition vsquare (v : vec) : vec := map (fun x => x ^ 2) v.

(** [np.sum] *)
Definition vsum (v : vec) : R := fold_right Rplus 0 v.

(** [u @ v] on 1-D arrays *)
Definition dot (u v : vec) : R := vsum (vmul u v).

(** [M[:, j]] *)
Definition col (j : nat) (M : matrix) : vec := map (fun r => nth j r 0) M.

(** [M.T] for [M] with [c] columns *)
Definition transpose (c : nat) (M : matrix) : matrix :=
  map (fun j => col j M) (seq 0 c).

(** [M @ v] and [np.dot(M, v)], 2-D by 1-D *)
Definition matvec (M : matrix) (v : vec) : vec := map (fun r => dot r v) M.

(** [v @ M], 1-D by 2-D, [M] with [c] columns *)
Definition vecmat (c : nat) (v : vec) (M : matrix) : vec :=
  map (fun j => dot v (col j M)) (seq 0 c).

(** [A @ B], 2-D by 2-D, [B] with [c] columns *)
Definition matmul (c : nat) (A B : matrix) : matrix :=
  map (fun r => vecmat c r B) A.

Definition mscale (a : R) (M : matrix) : matrix := map (vscale a) M.
Definition madd (A B : matrix) : matrix := zip_with vadd A B.

(** [1 / M] and [M / a], elementwise *)
Definition mrecip (M : matrix) : matrix := map (map (fun x => 1 / x)) M.
Definition mdiv (M : matrix) (a : R) : matrix := map (map (fun x => x / a)) M.

(** [np.diag] of a 1-D array, [np.diag] of a 2-D array, [np.identity] *)
Definition diag (v : vec) : matrix :=
  map (fun i => map (fun j => if Nat.eqb i j then nth i v 0 else 0)
                    (seq 0 (length v)))
      (seq 0 (length v)).
Definition diagonal (M : matrix) : vec :=
  map (fun i => nth i (nth i M []) 0) (seq 0 (length M)).
Definition identity (n : nat) : matrix :=
  map (fun i => map (fun j => if Nat.eqb i j then 1 else 0) (seq 0 n))
      (seq 0 n).

(** [np.hstack((np.ones((n, 1)), M))] *)
Definition hstack_ones (M : matrix) : matrix := map (fun r => 1 :: r) M.

(** [linalg.norm] of a 1-D array *)
Definition norm (v : vec) : R := sqrt (dot v v).

(** [np.std] *)
Definition mean (v : vec) : R := vsum v / INR (length v).
Definition std (v : vec) : R :=
  sqrt (mean (vsquare (map (fun x => x - mean v) v))).

(** The selection [a[mask]] for a mask as long as [a]. *)
Fixpoint compress {A : Type} (mask : list bool) (a : list A) : list A :=
  match mask, a with
  | b :: mask', x :: a' =>
      if b then x :: compress mask' a' else compress mask' a'
  | _, _ => []
  end.

(** [np.sum] of a boolean array *)
Definition count_true (mask : list bool) : nat :=
  length (filter (fun b => b) mask).

(** [M[:, mask]] *)
Definition select_cols (mask : list bool) (M : matrix) : matrix :=
  map (compress mask) M.

(** [a[mask]], which raises when the lengths differ. *)
Definition bool_index {A : Type} (a : list A) (mask : list bool)
    : result (list A) :=
  if Nat.eqb (length a) (length mask) then Ok (compress mask a)
  else Raise IndexError.

Definition ncols (M : matrix) : nat :=
  match M with
  | [] => 0%nat
  | r :: _ => length r
  end.

(** [M[mask][:, mask]] *)
Definition bool_index2 (M : matrix) (mask : list bool) : result matrix :=
  rows <- bool_index M mask ;;
  if Nat.eqb (ncols M) (length mask) then Ok (map (compress mask) rows)
  else Raise IndexError.

(** [a[i] = v] for [i] in range *)
Fixpoint list_set {A : Type} (i : nat) (v : A) (l : list A) : list A :=
  match i, l with
  | O, _ :: l' => v :: l'
  | S i', x :: l' => x :: list_set i' v l'
  | _, [] => []
  end.

(** The second positional argument of [np.max] is the axis. *)
Inductive axis_arg : Type :=
| AxisNone
| AxisInt (k : Z)
| AxisFloat (x : R).

(** [np.max(a, axis)] for a scalar [a]: a 0-d array is reduced over no axis,
    axis 0 or axis -1; any other integer is out of bounds (an [AxisError],
    which is a [ValueError] and an [IndexError]); a float is no axis. *)
Definition max_scalar (a : R) (axis : axis_arg) : result R :=
  match axis with
  | AxisNone => Ok a
  | AxisInt k => if (Z.eqb k 0 || Z.eqb k (-1))%bool then Ok a
                 else Raise ValueError
  | AxisFloat _ => Raise TypeError
  end.

End Np.
Import Np.

(** ** Estimator objects

    An estimator is the dictionary of its instance attributes. *)

#[warnings="-register-all"]
Inductive pyval : Type :=
| PyNone
| PyBool (b : bool)
| PyInt (z : Z)
| PyFloat (x : R)
| PyStr (s : string)
| PyVec (v : vec)
| PyMat (m : matrix)
| PyCallable (name : string)
| PyDict (d : list (string * pyval)).

Definition estimator := list (string * pyval).

Fixpoint lookup (name : string) (d : estimator) : option pyval :=
  match d with
  | [] => None
  | (k, v) :: d' => if String.eqb k name then Some v else lookup name d'
  end.

Definition hasattr (est : estimator) (name : string) : bool :=
  match lookup name est with
  | Some _ => true
  | None => false
  end.

Definition getattr (est : estimator) (name : string) : result pyval :=
  match lookup name est with
  | Some v => Ok v
  | None => Raise AttributeError
  end.

Definition setattr (est : estimator) (name : string) (v : pyval) : estimator :=
  (name, v) :: filter (fun kv => negb (String.eqb (fst kv) name)) est.

Definition as_float (v : pyval) : result R :=
  match v with
  | PyFloat x => Ok x
  | PyInt z => Ok (IZR z)
  | _ => Raise TypeError
  end.

Definition as_int (v : pyval) : result Z :=
  match v with
  | PyInt z => Ok z
  | _ => Raise TypeError
  end.

Definition as_vec (v : pyval) : result vec :=
  match v with
  | PyVec x => Ok x
  | _ => Raise TypeError
  end.

Definition as_mat (v : pyval) : result matrix :=
  match v with
  | PyMat m => Ok m
  | _ => Raise TypeError
  end.

(** [callable(v)] *)
Definition callable (v : pyval) : bool :=
  match v with
  | PyCallable _ => true
  | _ => false
  end.

(** [v or {}], used as [**params]: a false [v] gives the empty mapping, a
    true one must be a mapping. *)
Definition or_empty_dict (v : pyval) : result (list (string * pyval)) :=
  match v with
  | PyDict d => Ok d
  | PyNone => Ok []
  | PyBool b => if b then Raise TypeError else Ok []
  | PyInt z => if Z.eqb z 0 then Ok [] else Raise TypeError
  | PyFloat x => if Req_dec_T x 0 then Ok [] else Raise TypeError
  | PyStr s => if String.eqb s "" then Ok [] else Raise TypeError
  | PyVec [] => Ok []
  | PyVec [x] => if Req_dec_T x 0 then Ok [] else Raise TypeError
  | PyVec _ => Raise ValueError
  | PyMat m =>
      match concat m with
      | [] => Ok []
      | [x] => if Req_dec_T x 0 then Ok [] else Raise TypeError
      | _ => Raise ValueError
      end
  | PyCallable _ => Raise TypeError
  end.

(** [gamma == 0] *)
Definition py_eq_zero (v : pyval) : bool :=
  match v with
  | PyInt z => Z.eqb z 0
  | PyFloat x => if Req_dec_T x 0 then true else false
  | PyBool b => negb b
  | _ => false
  end.

(** [sklearn.utils.validation.check_is_fitted(estimator, attributes)] *)
Definition check_is_fitted (est : estimator) (attributes : list string)
    : result unit :=
  if forallb (hasattr est) attributes then Ok tt else Raise NotFittedError.

(** [check_X_y(X, y, y_numeric=True, ensure_min_samples=2)]: validation is
    a collaborator; what is kept is that the samples are consistent and at
    least two. *)
Definition check_X_y (X : matrix) (y : vec) : result (matrix * vec) :=
  if Nat.eqb (length X) (length y) then
    if Nat.ltb (length X) 2 then Raise ValueError else Ok (X, y)
  else Raise ValueError.

(** [check_array(X)]: a 2-D array (rows of one length) with at least one
    sample and one feature. *)
Definition check_array (X : matrix) : result matrix :=
  if (Nat.leb 1 (length X) && Nat.leb 1 (ncols X)
      && forallb (fun r => Nat.eqb (length r) (ncols X)) X)%bool
  then Ok X else Raise ValueError.

Definition INFINITY : R := 1e20.

(** [BaseRVM.__init__] *)
Definition BaseRVM_init (kernel degree gamma coef0 tol threshold_alpha
    class_weight verbose max_iter random_state : pyval) : result estimator :=
  if py_eq_zero gamma then Raise ValueError
  else Ok [ ("kernel", kernel); ("degree", degree); ("gamma", gamma);
            ("coef0", coef0); ("tol", tol);
            ("threshold_alpha", threshold_alpha);
            ("class_weight", class_weight); ("max_iter", max_iter);
            ("verbose", verbose); ("random_state", random_state) ]%string.

(** [RVR.__init__], whose defaults are [RVR_defaults] *)
Record params : Type := {
  kernel : string;
  degree : Z;
  gamma : pyval;
  coef0 : R;
  tol : R;
  threshold_alpha : R;
  max_iter : Z;
  verbose : bool
}.

Definition RVR_defaults : params :=
  {| kernel := "rbf"; degree := 3; gamma := PyStr "auto_deprecated";
     coef0 := 0; tol := 1e-6; threshold_alpha := 1e5; max_iter := 5000;
     verbose := false |}.

Definition RVR_init (p : params) : result estimator :=
  BaseRVM_init (PyStr (kernel p)) (PyInt (degree p)) (gamma p)
    (PyFloat (coef0 p)) (PyFloat (tol p)) (PyFloat (threshold_alpha p))
    PyNone (PyBool (verbose p)) (PyInt (max_iter p)) PyNone.

(** ** The regressor *)

Record loop_state : Type := {
  st_alpha : vec;
  st_used_cond : list bool;
  st_Sigma : matrix;
  st_mu : vec;
  st_s : vec;
  st_q : vec;
  st_Phi : matrix;
  st_sigma_squared : R;
  st_queue : list nat
}.

Record fitted : Type := {
  relevance_vectors_ : matrix;
  mu_ : vec;
  Sigma_ : matrix;
  sigma_squared_ : R
}.

(** Steps 6 to 8 of [RVR.fit]: the action on the candidate [basis_idx],
    returning the precisions, the mask and [reestimate_action]. *)
Definition update_candidate (alpha : vec) (used_cond : list bool) (s q : vec)
    (basis_idx : nat) : vec * list bool * bool :=
  let theta := vsub (vsquare q) s in
  let new_alpha :=
    nth basis_idx s 0 ^ 2 / (nth basis_idx q 0 ^ 2 - nth basis_idx s 0) in
  if Rltb 0 (nth basis_idx theta 0) && Rltb (nth basis_idx alpha 0) INFINITY
  then (list_set basis_idx new_alpha alpha, used_cond, true)
  else if Rltb 0 (nth basis_idx theta 0)
          && Rgeb (nth basis_idx alpha 0) INFINITY
  then (list_set basis_idx new_alpha alpha,
        list_set basis_idx true used_cond, false)
  else if Rleb (nth basis_idx theta 0) 0
          && Rltb (nth basis_idx alpha 0) INFINITY
  then (list_set basis_idx INFINITY alpha,
        list_set basis_idx false used_cond, false)
  else (alpha, used_cond, false).

(** The test that ends the loop (step 11). *)
Definition converged (reestimate_action : bool) (delta tol : R)
    (theta : vec) (old_used_cond : list bool) : bool :=
  reestimate_action && Rltb delta tol
  && forallb (fun th => Rleb th 0) (compress (map negb old_used_cond) theta).

Section RVR.

(** [pairwise_kernels(X, Y, metric=metric, filter_params=True, **params)],
    with [Y = None] for the kernel of [X] with itself. *)
Variable pairwise_kernels :
  pyval -> list (string * pyval) -> matrix -> option matrix -> result matrix.
Variable lapack_inv : matrix -> option matrix.
Variable lapack_pinv : matrix -> matrix.

Definition linalg_inv (a : matrix) : result matrix :=
  match a with
  | [] => Ok []
  | _ => match lapack_inv a with
         | Some r => Ok r
         | None => Raise LinAlgError
         end
  end.

Definition linalg_pinv (a : matrix) : matrix := lapack_pinv a.

(** [BaseRVM._get_kernel]: a callable kernel takes its parameters from the
    attribute [kernel_params], which the constructor does not set; a named
    kernel takes [gamma], [degree] and [coef0]. *)
Definition _get_kernel (est : estimator) (X : matrix) (Y : option matrix)
    : result matrix :=
  kernel <- getattr est "kernel" ;;
  params <-
    (if callable kernel then
       kernel_params <- getattr est "kernel_params" ;;
       or_empty_dict kernel_params
     else
       gamma <- getattr est "gamma" ;;
       degree <- getattr est "degree" ;;
       coef0 <- getattr est "coef0" ;;
       Ok [("gamma", gamma); ("degree", degree); ("coef0", coef0)]%string) ;;
  metric <- getattr est "kernel" ;;
  pairwise_kernels metric params X Y.

(** The inversion of [tmp], written twice in the source: in
    [_calculate_statistics] and in step 9 of [fit]. *)
Definition covariance (tmp : matrix) : result matrix :=
  if Nat.eqb (length tmp) 1 then Ok (mrecip tmp)
  else try_except (linalg_inv tmp) LinAlgError (Ok (linalg_pinv tmp)).

(** [A], [Phi], [tmp], [Sigma] and [mu], written twice in the source as
    well. *)
Definition precision_matrix (K : matrix) (alpha : vec) (used_cond : list bool)
    (sigma_squared : R) : matrix :=
  let k := count_true used_cond in
  let A := diag (compress used_cond alpha) in
  let Phi := select_cols used_cond K in
  madd A (matmul k (mscale (1 / sigma_squared) (transpose k Phi)) Phi).

Definition posterior (K : matrix) (alpha : vec) (used_cond : list bool)
    (y : vec) (sigma_squared : R) : result (matrix * vec * matrix) :=
  let k := count_true used_cond in
  let Phi := select_cols used_cond K in
  let tmp := precision_matrix K alpha used_cond sigma_squared in
  Sigma <- covariance tmp ;;
  let mu :=
    matvec (matmul (length y) (mscale (1 / sigma_squared) Sigma)
                   (transpose k Phi)) y in
  Ok (Sigma, mu, Phi).

(** The factors [Q[i]] and [S[i]] of the candidate [i]. *)
Definition quality_sparsity (K : matrix) (Phi Sigma : matrix) (k : nat)
    (y : vec) (sigma_squared : R) (i : nat) : R * R :=
  let n_samples := length y in
  let B := mdiv (identity n_samples) sigma_squared in
  let basis := col i K in
  let tmp_1 := vecmat n_samples basis B in
  let tmp_2 :=
    vecmat n_samples
      (vecmat n_samples
         (vecmat k (vecmat k tmp_1 Phi) Sigma)
         (transpose k Phi))
      B in
  (dot tmp_1 y - dot tmp_2 y, dot tmp_1 basis - dot tmp_2 basis).

(** [RVR._calculate_statistics] *)
Definition _calculate_statistics (K : matrix) (alpha : vec)
    (used_cond : list bool) (y : vec) (sigma_squared : R)
    : result (matrix * vec * vec * vec * matrix) :=
  let n_samples := length y in
  ' (Sigma, mu, Phi) <- posterior K alpha used_cond y sigma_squared ;;
  let QS := map (quality_sparsity K Phi Sigma (count_true used_cond) y
                   sigma_squared)
                (seq 0 (n_samples + 1)) in
  let Q := map fst QS in
  let S := map snd QS in
  let s := vdiv (vmul alpha S) (vsub alpha S) in
  let q := vdiv (vmul alpha Q) (vsub alpha S) in
  Ok (Sigma, mu, s, q, Phi).

(** Step 9: the noise level from the posterior at the updated precisions. *)
Definition noise_level (y : vec) (alpha : vec) (used_cond : list bool)
    (Sigma : matrix) (mu : vec) (Phi : matrix) : R :=
  let n_samples := length y in
  let y_pred := matvec Phi mu in
  norm (vsub y y_pred) ^ 2
  / (INR n_samples - INR (count_true used_cond)
     + vsum (vmul (compress used_cond alpha) (diagonal Sigma))).

(** One pass of the body of the loop of [RVR.fit]; the boolean tells
    whether the pass ended in [break]. *)
Definition fit_iter (K : matrix) (y : vec) (tol : R) (st : loop_state)
    : result (bool * loop_state) :=
  match st_queue st with
  | [] => Raise IndexError
  | basis_idx :: rest =>
      let queue := rest ++ [basis_idx] in
      let old_alpha := st_alpha st in
      let old_used_cond := st_used_cond st in
      let theta := vsub (vsquare (st_q st)) (st_s st) in
      let '(alpha, used_cond, reestimate_action) :=
        update_candidate (st_alpha st) (st_used_cond st) (st_s st) (st_q st)
          basis_idx in
      log_new <- math_log (nth basis_idx alpha 0) ;;
      log_old <- math_log (nth basis_idx old_alpha 0) ;;
      let delta := log_new - log_old in
      if converged reestimate_action delta tol theta old_used_cond then
        Ok (true,
            {| st_alpha := alpha; st_used_cond := used_cond;
               st_Sigma := st_Sigma st; st_mu := st_mu st;
               st_s := st_s st; st_q := st_q st; st_Phi := st_Phi st;
               st_sigma_squared := st_sigma_squared st;
               st_queue := queue |})
      else
        ' (Sigma, mu, Phi) <-
          posterior K alpha used_cond y (st_sigma_squared st) ;;
        let sigma_squared := noise_level y alpha used_cond Sigma mu Phi in
        ' (Sigma, mu, s, q, Phi) <-
          _calculate_statistics K alpha used_cond y sigma_squared ;;
        Ok (false,
            {| st_alpha := alpha; st_used_cond := used_cond;
               st_Sigma := Sigma; st_mu := mu; st_s := s; st_q := q;
               st_Phi := Phi; st_sigma_squared := sigma_squared;
               st_queue := queue |})
  end.

(** [for iter in range(max_iter)] *)
Fixpoint fit_loop (K : matrix) (y : vec) (tol : R) (max_iter : nat)
    (st : loop_state) : result loop_state :=
  match max_iter with
  | O => Ok st
  | S m =>
      ' (stop, st') <- fit_iter K y tol st ;;
      if stop then Ok st' else fit_loop K y tol m st'
  end.

(** Steps 2 and 3: the state the loop starts from. *)
Definition initial_state (K : matrix) (y : vec) (sigma_squared : R)
    : result loop_state :=
  let n_samples := length y in
  let alpha := vscale INFINITY (ones (n_samples + 1)) in
  let used_cond := repeat false (n_samples + 1) in
  let basis_idx := 0%nat in
  let basis := col basis_idx K in
  let basis_norm := norm basis in
  let alpha :=
    list_set basis_idx
      (basis_norm ^ 2
       / (norm [dot basis y] ^ 2 / basis_norm ^ 2 - sigma_squared))
      alpha in
  let used_cond := list_set basis_idx true used_cond in
  ' (Sigma, mu, s, q, Phi) <-
    _calculate_statistics K alpha used_cond y sigma_squared ;;
  Ok {| st_alpha := alpha; st_used_cond := used_cond; st_Sigma := Sigma;
        st_mu := mu; st_s := s; st_q := q; st_Phi := Phi;
        st_sigma_squared := sigma_squared;
        st_queue := seq 0 (n_samples + 1) |}.

(** The end of [fit]: the pruned model. *)
Definition extract_model (X : matrix) (threshold_alpha : R) (st : loop_state)
    : result fitted :=
  let alpha_bias := nth 0 (st_alpha st) 0 in
  let alpha_basis := tl (st_alpha st) in
  alpha_basis <- bool_index alpha_basis (tl (st_used_cond st)) ;;
  X_rv <- bool_index X (tl (st_used_cond st)) ;;
  let cond_bias_rv := Rltb alpha_bias threshold_alpha in
  let cond_basis_rv := map (fun a => Rltb a threshold_alpha) alpha_basis in
  relevance_vectors <- bool_index X_rv cond_basis_rv ;;
  let selected_basis := cond_bias_rv :: cond_basis_rv in
  mu <- bool_index (st_mu st) selected_basis ;;
  Sigma <- bool_index2 (st_Sigma st) selected_basis ;;
  Ok {| relevance_vectors_ := relevance_vectors; mu_ := mu;
        Sigma_ := Sigma; sigma_squared_ := st_sigma_squared st |}.

(** [RVR.fit] after its step 1, for a given initial noise variance. *)
Definition fit_steps (K X : matrix) (y : vec) (tol threshold_alpha : R)
    (max_iter : nat) (sigma_squared : R) : result (loop_state * fitted) :=
  st <- initial_state K y sigma_squared ;;
  st <- fit_loop K y tol max_iter st ;;
  model <- extract_model X threshold_alpha st ;;
  Ok (st, model).

Definition store_model (est : estimator) (model : fitted) : estimator :=
  let est := setattr est "relevance_vectors_"
                     (PyMat (relevance_vectors_ model)) in
  let est := setattr est "mu_" (PyVec (mu_ model)) in
  let est := setattr est "Sigma_" (PyMat (Sigma_ model)) in
  setattr est "sigma_squared_" (PyFloat (sigma_squared_ model)).

(** Step 1 of [RVR.fit]: [(np.max(1e-6, np.std(y)) ** 2) * 0.1] *)
Definition init_sigma_squared (y : vec) : result R :=
  m <- max_scalar 1e-6 (AxisFloat (std y)) ;;
  Ok (m ^ 2 * 0.1).

(** The body of [RVR.fit] around its step 1. *)
Definition fit_with (step_1 : vec -> result R) (est : estimator) (X : matrix)
    (y : vec) : result estimator :=
  ' (X, y) <- check_X_y X y ;;
  K <- _get_kernel est X None ;;
  let K := hstack_ones K in
  sigma_squared <- step_1 y ;;
  max_iter <- bind (getattr est "max_iter") as_int ;;
  tol <- bind (getattr est "tol") as_float ;;
  threshold_alpha <- bind (getattr est "threshold_alpha") as_float ;;
  ' (_, model) <-
    fit_steps K X y tol threshold_alpha (Z.to_nat max_iter) sigma_squared ;;
  Ok (store_model est model).

(** [RVR.fit] *)
Definition fit (est : estimator) (X : matrix) (y : vec) : result estimator :=
  fit_with init_sigma_squared est X y.

(** [RVR.fit] with the value of its step 1 given: steps 2 to 11 and the
    extraction of the model, from the noise variance [sigma_squared]. *)
Definition fit_from (sigma_squared : R) (est : estimator) (X : matrix)
    (y : vec) : result estimator :=
  fit_with (fun _ => Ok sigma_squared) est X y.

(** [RVR.predict] *)
Definition predict (est : estimator) (X : matrix) (return_std : bool)
    : result (vec * option vec) :=
  _ <- check_is_fitted est
         ["relevance_vectors_"; "mu_"; "Sigma_"; "sigma_squared"]%string ;;
  X <- check_array X ;;
  let n_samples := length X in
  relevance_vectors <- bind (getattr est "relevance_vectors_") as_mat ;;
  K <- _get_kernel est X (Some relevance_vectors) ;;
  let N_rv := length relevance_vectors in
  mu <- bind (getattr est "mu_") as_vec ;;
  let K := if negb (Nat.eqb (length mu) N_rv) then hstack_ones K else K in
  if forallb (fun r => Nat.eqb (length r) (length mu)) K then
    let y_mean := matvec K mu in
    if negb return_std then Ok (y_mean, None)
    else
      sigma_squared <- bind (getattr est "sigma_squared") as_float ;;
      Sigma <- bind (getattr est "Sigma") as_mat ;;
      let err_var :=
        map (map (Rplus sigma_squared))
            (matmul n_samples (matmul (length mu) K Sigma)
                    (transpose (length mu) K)) in
      Ok (y_mean, Some (map sqrt (diagonal err_var)))
  else Raise ValueError.

End RVR.

(** ** Inputs used in the examples

    The linear kernel [k(x, x') = x . x'] on two samples of one feature, the
    targets [3, -1], and the noise variance [0.1 * var(y) = 2/5] that step 1
    of [fit] is written to produce. *)

(** [X @ Y.T] *)
Definition matmul_T (X Y : matrix) : matrix :=
  matmul (length Y) X (transpose (ncols Y) Y).

(** [sklearn.metrics.pairwise.linear_kernel]: both arrays are validated and
    must have as many features ([check_pairwise_arrays]). *)
Definition linear_kernel (X Y : matrix) : result matrix :=
  X <- check_array X ;;
  Y <- check_array Y ;;
  if Nat.eqb (ncols X) (ncols Y) then Ok (matmul_T X Y)
  else Raise ValueError.

(** [pairwise_kernels] for the examples, which all use the metric
    ["linear"]: its parameters are filtered out, since [linear_kernel] takes
    none.  No other metric occurs in the examples; the stand-in has none,
    and reports any other as unknown. *)
Definition pairwise_linear (metric : pyval) (params : list (string * pyval))
    (X : matrix) (Y : option matrix) : result matrix :=
  match metric with
  | PyStr name =>
      if String.eqb name "linear" then
        linear_kernel X (match Y with Some Y' => Y' | None => X end)
      else Raise ValueError
  | _ => Raise ValueError
  end.

(** LAPACK for the closed examples: the inverse of a regular 2 x 2 matrix
    (larger systems do not occur in them), and a pseudo-inverse that is
    never reached, since no matrix of the examples is singular. *)
Definition inv_2x2 (a : matrix) : option matrix :=
  match a with
  | [[a11; a12]; [a21; a22]] =>
      let det := a11 * a22 - a12 * a21 in
      if Req_dec_T det 0 then None
      else Some [[a22 / det; - a12 / det]; [- a21 / det; a11 / det]]
  | _ => None
  end.
Definition pinv_unused (a : matrix) : matrix := a.

Definition y_ex : vec := [3; -1].
Definition X_conv : matrix := [[2]; [3]].
Definition X_drop : matrix := [[1]; [2]].
Definition K_conv : matrix := hstack_ones (matmul_T X_conv X_conv).
Definition K_drop : matrix := hstack_ones (matmul_T X_drop X_drop).

Definition y_centred : vec := [5; -4].

Definition linear_params (max_iter : Z) : params :=
  {| kernel := "linear"; degree := 3; gamma := PyStr "auto_deprecated";
     coef0 := 0; tol := 1e-6; threshold_alpha := 1e5; max_iter := max_iter;
     verbose := false |}.

Definition linear_estimator (max_iter : Z) : estimator :=
  [ ("kernel", PyStr "linear"); ("degree", PyInt 3);
    ("gamma", PyStr "auto_deprecated"); ("coef0", PyFloat 0);
    ("tol", PyFloat 1e-6); ("threshold_alpha", PyFloat 1e5);
    ("class_weight", PyNone); ("max_iter", PyInt max_iter);
    ("verbose", PyBool false); ("random_state", PyNone) ]%string.

(** The loop on [X_conv]: the state it starts from, where the first pass
    re-estimates the bias and ends the loop. *)
Definition conv0 : loop_state :=
  {| st_alpha := [5 / 4; INFINITY; INFINITY];
     st_used_cond := [true; false; false];
     st_Sigma := [[4 / 25]];
     st_mu := [4 / 5];
     st_s :=
       [5;
        INFINITY * 30 / (INFINITY - 30);
        INFINITY * (135 / 2) / (INFINITY - (135 / 2))];
     st_q :=
       [5;
        INFINITY * (-5) / (INFINITY - 30);
        INFINITY * (- 15 / 2) / (INFINITY - (135 / 2))];
     st_Phi := [[1]; [1]];
     st_sigma_squared := 2 / 5;
     st_queue := [0%nat; 1%nat; 2%nat] |}.

(** The state in which the pass on the bias ends the loop. *)
Definition conv_final : loop_state :=
  {| st_alpha := [5 / 4; INFINITY; INFINITY];
     st_used_cond := [true; false; false];
     st_Sigma := [[4 / 25]];
     st_mu := [4 / 5];
     st_s :=
       [5;
        INFINITY * 30 / (INFINITY - 30);
        INFINITY * (135 / 2) / (INFINITY - (135 / 2))];
     st_q :=
       [5;
        INFINITY * (-5) / (INFINITY - 30);
        INFINITY * (- 15 / 2) / (INFINITY - (135 / 2))];
     st_Phi := [[1]; [1]];
     st_sigma_squared := 2 / 5;
     st_queue := [1%nat; 2%nat; 0%nat] |}.


(** The loop on [X_drop]: the states before the passes 0 to 3 (a
    re-estimation of the bias, two passes without action, the deletion of
    the bias) and the state of every later pass, in which no basis is active
    and only the queue rotates. *)
Definition drop0 : loop_state :=
  {| st_alpha := [5 / 4; INFINITY; INFINITY];
     st_used_cond := [true; false; false];
     st_Sigma := [[4 / 25]];
     st_mu := [4 / 5];
     st_s :=
       [5;
        INFINITY * (7 / 2) / (INFINITY - (7 / 2));
        INFINITY * 14 / (INFINITY - 14)];
     st_q :=
       [5;
        INFINITY * (- 7 / 2) / (INFINITY - (7 / 2));
        INFINITY * (-7) / (INFINITY - 14)];
     st_Phi := [[1]; [1]];
     st_sigma_squared := 2 / 5;
     st_queue := [0%nat; 1%nat; 2%nat] |}.

Definition drop1 : loop_state :=
  {| st_alpha := [5 / 4; INFINITY; INFINITY];
     st_used_cond := [true; false; false];
     st_Sigma := [[404 / 625]];
     st_mu := [24 / 125];
     st_s :=
       [30 / 101;
        INFINITY * (1551 / 2525) / (INFINITY - (1551 / 2525));
        INFINITY * (6204 / 2525) / (INFINITY - (6204 / 2525))];
     st_q :=
       [30 / 101;
        INFINITY * (159 / 2525) / (INFINITY - (1551 / 2525));
        INFINITY * (318 / 2525) / (INFINITY - (6204 / 2525))];
     st_Phi := [[1]; [1]];
     st_sigma_squared := 101 / 15;
     st_queue := [1%nat; 2%nat; 0%nat] |}.

Definition drop2 : loop_state :=
  {| st_alpha := [5 / 4; INFINITY; INFINITY];
     st_used_cond := [true; false; false];
     st_Sigma := [[290804 / 476505]];
     st_mu := [22600 / 95301];
     st_s :=
       [28250 / 72701;
        INFINITY * (588235625 / 769830889)
          / (INFINITY - (588235625 / 769830889));
        INFINITY * (2352942500 / 769830889)
          / (INFINITY - (2352942500 / 769830889))];
     st_q :=
       [28250 / 72701;
        INFINITY * (129483875 / 2309492667)
          / (INFINITY - (588235625 / 769830889));
        INFINITY * (258967750 / 2309492667)
          / (INFINITY - (2352942500 / 769830889))];
     st_Phi := [[1]; [1]];
     st_sigma_squared := 72701 / 14125;
     st_queue := [2%nat; 0%nat; 1%nat] |}.

Definition drop3 : loop_state :=
  {| st_alpha := [5 / 4; INFINITY; INFINITY];
     st_used_cond := [true; false; false];
     st_Sigma := [[166458231220 / 272115823433]];
     st_mu := [64043034408 / 272115823433];
     st_s :=
       [16010758602 / 41614557805;
        INFINITY * (8584852382821891852029 / 11323979663907752044565)
          / (INFINITY - (8584852382821891852029 / 11323979663907752044565));
        INFINITY * (34339409531287567408116 / 11323979663907752044565)
          / (INFINITY - (34339409531287567408116 / 11323979663907752044565))];
     st_q :=
       [16010758602 / 41614557805;
        INFINITY * (640324034316006993909 / 11323979663907752044565)
          / (INFINITY - (8584852382821891852029 / 11323979663907752044565));
        INFINITY * (1280648068632013987818 / 11323979663907752044565)
          / (INFINITY - (34339409531287567408116 / 11323979663907752044565))];
     st_Phi := [[1]; [1]];
     st_sigma_squared := 41614557805 / 8005379301;
     st_queue := [0%nat; 1%nat; 2%nat] |}.

Definition dropped (queue : list nat) : loop_state :=
  {| st_alpha := [INFINITY; INFINITY; INFINITY];
     st_used_cond := [false; false; false];
     st_Sigma := [];
     st_mu := [];
     st_s :=
       [INFINITY * (2 / 5) / (INFINITY - (2 / 5));
        INFINITY * 1 / (INFINITY - 1);
        INFINITY * 4 / (INFINITY - 4)];
     st_q :=
       [INFINITY * (2 / 5) / (INFINITY - (2 / 5));
        INFINITY * (1 / 5) / (INFINITY - 1);
        INFINITY * (2 / 5) / (INFINITY - 4)];
     st_Phi := [[]; []];
     st_sigma_squared := 5;
     st_queue := queue |}.

(** The model extracted from [conv_final]. *)
Definition conv_model : fitted :=
  {| relevance_vectors_ := []; mu_ := [4 / 5]; Sigma_ := [[4 / 25]];
     sigma_squared_ := 2 / 5 |}.

(** A state on [X_drop] with the bias and the first sample active, and the
    model extracted from it. *)
Definition two_active : loop_state :=
  {| st_alpha := [5 / 4; 3; INFINITY];
     st_used_cond := [true; true; false];
     st_Sigma := [[124 / 325; - 12 / 65]; [- 12 / 65; 2 / 13]];
     st_mu := [94 / 65; - 7 / 13];
     st_s := [85 / 62; 7 / 2; INFINITY * (84 / 13) / (INFINITY - 84 / 13)];
     st_q :=
       [235 / 62; - 7 / 2; INFINITY * (- 42 / 13) / (INFINITY - 84 / 13)];
     st_Phi := [[1; 1]; [1; 2]];
     st_sigma_squared := 2 / 5;
     st_queue := [0%nat; 1%nat; 2%nat] |}.

Definition two_active_model : fitted :=
  {| relevance_vectors_ := [[1]];
     mu_ := [94 / 65; - 7 / 13];
     Sigma_ := [[124 / 325; - 12 / 65]; [- 12 / 65; 2 / 13]];
     sigma_squared_ := 2 / 5 |}.

(** The shapes the extraction relies on. *)
Definition consistent (st : loop_state) : Prop :=
  length (st_alpha st) = length (st_used_cond st)
  /\ length (st_mu st) = count_true (st_used_cond st).

(** The shape of the matrix [K] that [fit] builds for the targets [y]: a
    row for each sample, a column for the bias and one for each sample. *)
Definition design_shape (K : matrix) (y : vec) : Prop :=
  length K = length y
  /\ Forall (fun r => length r = (length y + 1)%nat) K.

(** ** Lists and comparisons *)

Lemma Rltb_true x y : Rltb x y = true <-> x < y.
Proof. unfold Rltb. destruct (Rlt_dec x y); split; auto; discriminate. Qed.

Lemma Rltb_false x y : Rltb x y = false <-> y <= x.
Proof.
  unfold Rltb. destruct (Rlt_dec x y); split; intros; try discriminate;
    try lra; auto.
Qed.

Lemma Rleb_true x y : Rleb x y = true <-> x <= y.
Proof. unfold Rleb. destruct (Rle_dec x y); split; auto; discriminate. Qed.

Lemma Rleb_false x y : Rleb x y = false <-> y < x.
Proof.
  unfold Rleb. destruct (Rle_dec x y); split; intros; try discriminate;
    try lra; auto.
Qed.

Lemma Rgeb_true x y : Rgeb x y = true <-> y <= x.
Proof. apply Rleb_true. Qed.

Lemma math_log_pos x : 0 < x -> math_log x = Ok (ln x).
Proof.
  intros H. unfold math_log.
  destruct (Rlt_dec 0 x); [reflexivity | contradiction].
Qed.

Lemma math_log_nonpos x : x <= 0 -> math_log x = Raise ValueError.
Proof.
  intros H. unfold math_log. destruct (Rlt_dec 0 x); [lra | reflexivity].
Qed.

Lemma INFINITY_pos : 0 < INFINITY.
Proof. unfold INFINITY. lra. Qed.

Section ListFacts.

Context {A B C : Type}.

Lemma zip_with_length (f : A -> B -> C) l1 l2 :
  length (zip_with f l1 l2) = Nat.min (length l1) (length l2).
Proof.
  revert l2. induction l1 as [|a l1 IH]; intros [|b l2]; simpl; auto.
Qed.

Lemma nth_zip_with (f : A -> B -> C) l1 l2 i da db dc :
  (i < length l1)%nat -> (i < length l2)%nat ->
  nth i (zip_with f l1 l2) dc = f (nth i l1 da) (nth i l2 db).
Proof.
  revert l2 i. induction l1 as [|a l1 IH]; intros [|b l2] [|i]; simpl;
    intros H1 H2; try lia; auto.
  apply IH; lia.
Qed.

Lemma list_set_length i (v : A) l : length (list_set i v l) = length l.
Proof.
  revert i. induction l as [|x l IH]; intros [|i]; simpl; auto.
Qed.

Lemma nth_list_set_eq i (v d : A) l :
  (i < length l)%nat -> nth i (list_set i v l) d = v.
Proof.
  revert i. induction l as [|x l IH]; intros [|i]; simpl; intros H;
    try lia; auto.
  apply IH. lia.
Qed.

Lemma nth_list_set_neq i j (v d : A) l :
  i <> j -> nth j (list_set i v l) d = nth j l d.
Proof.
  revert i j. induction l as [|x l IH]; intros [|i] [|j]; simpl; intros H;
    auto; try congruence.
Qed.

Lemma compress_length mask (a : list A) :
  length a = length mask -> length (compress mask a) = count_true mask.
Proof.
  unfold count_true. revert a.
  induction mask as [|b mask IH]; intros [|x a]; simpl; intros H;
    try discriminate; auto.
  destruct b; simpl; rewrite IH; auto.
Qed.

Lemma forallb_compress (P : A -> bool) mask (a : list A) d :
  length a = length mask ->
  forallb P (compress mask a) = true <->
  (forall i, (i < length mask)%nat -> nth i mask false = true ->
             P (nth i a d) = true).
Proof.
  revert a. induction mask as [|b mask IH]; intros [|x a]; simpl;
    intros H; try discriminate.
  - split; auto. intros _ i Hi. lia.
  - injection H as H. specialize (IH a H). destruct b; simpl.
    + rewrite andb_true_iff, IH. split.
      * intros [Hx Ha] [|i] Hi Hm; auto. apply Ha; auto. lia.
      * intros Hall. split.
        -- apply (Hall 0%nat); auto. lia.
        -- intros i Hi Hm. apply (Hall (S i)); auto. lia.
    + rewrite IH. split.
      * intros Ha [|i] Hi Hm; try discriminate. apply Ha; auto. lia.
      * intros Hall i Hi Hm. apply (Hall (S i)); auto. lia.
Qed.

End ListFacts.

Lemma count_true_le mask : (count_true mask <= length mask)%nat.
Proof. unfold count_true. apply filter_length_le. Qed.

Lemma count_true_false_head mask :
  count_true (false :: mask) = count_true mask.
Proof. reflexivity. Qed.

Lemma nth_map_negb i mask :
  (i < length mask)%nat ->
  nth i (map negb mask) false = negb (nth i mask true).
Proof.
  revert i. induction mask as [|b mask IH]; intros [|i]; simpl; intros H;
    try lia; auto.
  apply IH. lia.
Qed.

Lemma nth_vsquare i v : nth i (vsquare v) 0 = nth i v 0 ^ 2.
Proof.
  unfold vsquare.
  transitivity (nth i (map (fun x => x ^ 2) v) ((fun x => x ^ 2) 0)).
  - f_equal. simpl. lra.
  - apply (map_nth (fun x => x ^ 2)).
Qed.

(** The decision statistic [theta = q ** 2 - s] at a candidate. *)
Lemma nth_theta i s q :
  (i < length s)%nat -> (i < length q)%nat ->
  nth i (vsub (vsquare q) s) 0 = nth i q 0 ^ 2 - nth i s 0.
Proof.
  intros Hs Hq. unfold vsub.
  rewrite (nth_zip_with Rminus _ _ i 0 0 0).
  - now rewrite nth_vsquare.
  - unfold vsquare. now rewrite length_map.
  - exact Hs.
Qed.

Lemma dot_self_nonneg v : 0 <= dot v v.
Proof.
  unfold dot, vmul, vsum. induction v as [|x v IH]; simpl; [lra | nra].
Qed.

Lemma dot_self_squares v : dot v v = vsum (vsquare v).
Proof.
  unfold dot, vmul, vsum, vsquare.
  induction v as [|x v IH]; [reflexivity | ].
  cbn [zip_with map fold_right]. rewrite IH. lra.
Qed.

(** [linalg.norm(v) ** 2] is the sum of the squares. *)
Lemma norm_sq v : norm v ^ 2 = dot v v.
Proof. unfold norm. apply pow2_sqrt, dot_self_nonneg. Qed.

(** ** The statistics never raise *)

Section Statistics.

Variable lapack_inv : matrix -> option matrix.
Variable lapack_pinv : matrix -> matrix.

Lemma linalg_inv_cases a :
  (exists r, linalg_inv lapack_inv a = Ok r)
  \/ linalg_inv lapack_inv a = Raise LinAlgError.
Proof.
  unfold linalg_inv. destruct a as [|r a]; [left; eauto | ].
  destruct (lapack_inv (r :: a)); [left; eauto | right; reflexivity].
Qed.

Lemma covariance_total tmp :
  exists Sigma, covariance lapack_inv lapack_pinv tmp = Ok Sigma.
Proof.
  unfold covariance. destruct (Nat.eqb (length tmp) 1); [eauto | ].
  destruct (linalg_inv_cases tmp) as [[r Hr] | Hr]; rewrite Hr; simpl; eauto.
Qed.

Lemma posterior_total K alpha used_cond y sigma_squared :
  exists Sigma mu Phi,
    posterior lapack_inv lapack_pinv K alpha used_cond y sigma_squared
    = Ok (Sigma, mu, Phi).
Proof.
  unfold posterior.
  destruct (covariance_total (precision_matrix K alpha used_cond sigma_squared))
    as [Sigma H].
  rewrite H. simpl. eauto.
Qed.

Lemma _calculate_statistics_total K alpha used_cond y sigma_squared :
  exists Sigma mu s q Phi,
    _calculate_statistics lapack_inv lapack_pinv K alpha used_cond y
      sigma_squared
    = Ok (Sigma, mu, s, q, Phi).
Proof.
  unfold _calculate_statistics.
  destruct (posterior_total K alpha used_cond y sigma_squared)
    as (Sigma & mu & Phi & H).
  rewrite H. simpl. eauto 6.
Qed.

Lemma precision_matrix_length K alpha used_cond sigma_squared :
  length alpha = length used_cond ->
  length (precision_matrix K alpha used_cond sigma_squared)
  = count_true used_cond.
Proof.
  intros H. unfold precision_matrix, madd, matmul, mscale, transpose, diag.
  rewrite zip_with_length. repeat rewrite length_map.
  repeat rewrite length_seq. rewrite compress_length by exact H.
  apply Nat.min_id.
Qed.

(** *** Unfolding one pass of the loop *)

Lemma fit_iter_raise_new K y tol st c rest :
  st_queue st = c :: rest ->
  nth c (fst (fst (update_candidate (st_alpha st) (st_used_cond st)
                     (st_s st) (st_q st) c))) 0 <= 0 ->
  fit_iter lapack_inv lapack_pinv K y tol st = Raise ValueError.
Proof.
  intros Hq Hle. unfold fit_iter. rewrite Hq.
  destruct (update_candidate _ _ _ _ c) as [[alpha used_cond] re].
  simpl in Hle. rewrite (math_log_nonpos _ Hle). reflexivity.
Qed.

Lemma fit_iter_raise_old K y tol st c rest :
  st_queue st = c :: rest ->
  nth c (st_alpha st) 0 <= 0 ->
  fit_iter lapack_inv lapack_pinv K y tol st = Raise ValueError.
Proof.
  intros Hq Hle. unfold fit_iter. rewrite Hq.
  destruct (update_candidate _ _ _ _ c) as [[alpha used_cond] re].
  rewrite (math_log_nonpos _ Hle).
  destruct (Rlt_dec 0 (nth c alpha 0)) as [H | H].
  - rewrite (math_log_pos _ H). reflexivity.
  - rewrite math_log_nonpos by lra. reflexivity.
Qed.

Lemma fit_iter_break K y tol st c rest alpha used_cond re :
  st_queue st = c :: rest ->
  update_candidate (st_alpha st) (st_used_cond st) (st_s st) (st_q st) c
  = (alpha, used_cond, re) ->
  0 < nth c alpha 0 ->
  0 < nth c (st_alpha st) 0 ->
  converged re (ln (nth c alpha 0) - ln (nth c (st_alpha st) 0)) tol
    (vsub (vsquare (st_q st)) (st_s st)) (st_used_cond st) = true ->
  fit_iter lapack_inv lapack_pinv K y tol st
  = Ok (true,
        {| st_alpha := alpha; st_used_cond := used_cond;
           st_Sigma := st_Sigma st; st_mu := st_mu st;
           st_s := st_s st; st_q := st_q st; st_Phi := st_Phi st;
           st_sigma_squared := st_sigma_squared st;
           st_queue := rest ++ [c] |}).
Proof.
  intros Hq Hu Hn Ho Hc. unfold fit_iter. rewrite Hq, Hu.
  rewrite (math_log_pos _ Hn), (math_log_pos _ Ho). simpl.
  rewrite Hc. reflexivity.
Qed.

Lemma fit_iter_continue K y tol st c rest alpha used_cond re
    Sigma0 mu0 Phi0 sigma_squared Sigma mu s q Phi :
  st_queue st = c :: rest ->
  update_candidate (st_alpha st) (st_used_cond st) (st_s st) (st_q st) c
  = (alpha, used_cond, re) ->
  0 < nth c alpha 0 ->
  0 < nth c (st_alpha st) 0 ->
  converged re (ln (nth c alpha 0) - ln (nth c (st_alpha st) 0)) tol
    (vsub (vsquare (st_q st)) (st_s st)) (st_used_cond st) = false ->
  posterior lapack_inv lapack_pinv K alpha used_cond y (st_sigma_squared st)
  = Ok (Sigma0, mu0, Phi0) ->
  noise_level y alpha used_cond Sigma0 mu0 Phi0 = sigma_squared ->
  _calculate_statistics lapack_inv lapack_pinv K alpha used_cond y
    sigma_squared
  = Ok (Sigma, mu, s, q, Phi) ->
  fit_iter lapack_inv lapack_pinv K y tol st
  = Ok (false,
        {| st_alpha := alpha; st_used_cond := used_cond;
           st_Sigma := Sigma; st_mu := mu; st_s := s; st_q := q;
           st_Phi := Phi; st_sigma_squared := sigma_squared;
           st_queue := rest ++ [c] |}).
Proof.
  intros Hq Hu Hn Ho Hc Hp Hs Hst. unfold fit_iter. rewrite Hq, Hu.
  rewrite (math_log_pos _ Hn), (math_log_pos _ Ho). simpl.
  rewrite Hc, Hp. simpl. rewrite Hs, Hst. reflexivity.
Qed.

(** A pass that raises raises [ValueError], from one of the two
    logarithms. *)
Lemma fit_iter_outcome K y tol st c rest :
  st_queue st = c :: rest ->
  let new_alpha :=
    nth c (fst (fst (update_candidate (st_alpha st) (st_used_cond st)
                       (st_s st) (st_q st) c))) 0 in
  (0 < new_alpha /\ 0 < nth c (st_alpha st) 0 /\
   exists stop st', fit_iter lapack_inv lapack_pinv K y tol st
                    = Ok (stop, st'))
  \/ ((new_alpha <= 0 \/ nth c (st_alpha st) 0 <= 0) /\
      fit_iter lapack_inv lapack_pinv K y tol st = Raise ValueError).
Proof.
  intros Hq new_alpha.
  destruct (Rlt_dec 0 new_alpha) as [Hn | Hn].
  2:{ right. split; [left; lra | ].
      apply fit_iter_raise_new with (c := c) (rest := rest); [exact Hq | ].
      fold new_alpha. lra. }
  destruct (Rlt_dec 0 (nth c (st_alpha st) 0)) as [Ho | Ho].
  2:{ right. split; [right; lra | ].
      apply fit_iter_raise_old with (c := c) (rest := rest); [exact Hq | lra]. }
  left. split; [exact Hn | split; [exact Ho | ]].
  unfold new_alpha in Hn.
  destruct (update_candidate (st_alpha st) (st_used_cond st) (st_s st)
              (st_q st) c) as [[alpha used_cond] re] eqn:Hu.
  simpl in Hn.
  destruct (converged re (ln (nth c alpha 0) - ln (nth c (st_alpha st) 0))
              tol (vsub (vsquare (st_q st)) (st_s st)) (st_used_cond st))
    eqn:Hc.
  - eexists _, _. eapply fit_iter_break; eauto.
  - destruct (posterior_total K alpha used_cond y (st_sigma_squared st))
      as (Sigma0 & mu0 & Phi0 & Hp).
    destruct (_calculate_statistics_total K alpha used_cond y
                (noise_level y alpha used_cond Sigma0 mu0 Phi0))
      as (Sigma & mu & s & q & Phi & Hst).
    eexists _, _. eapply fit_iter_continue; eauto.
Qed.

(** *** No [LinAlgError] leaves [fit] *)

Lemma fit_iter_no_LinAlgError K y tol st :
  fit_iter lapack_inv lapack_pinv K y tol st <> Raise LinAlgError.
Proof.
  destruct (st_queue st) as [|c rest] eqn:Hq.
  - unfold fit_iter. rewrite Hq. discriminate.
  - destruct (fit_iter_outcome K y tol st c rest Hq)
      as [(_ & _ & stop & st' & H) | (_ & H)]; rewrite H; discriminate.
Qed.

Lemma fit_loop_no_LinAlgError K y tol max_iter :
  forall st,
    fit_loop lapack_inv lapack_pinv K y tol max_iter st <> Raise LinAlgError.
Proof.
  induction max_iter as [|m IH]; intros st; cbn [fit_loop].
  - discriminate.
  - pose proof (fit_iter_no_LinAlgError K y tol st) as Hit.
    destruct (fit_iter lapack_inv lapack_pinv K y tol st)
      as [[stop st'] | e]; cbn [bind].
    + destruct stop; [discriminate | apply IH].
    + intros E. apply Hit. injection E as ->. reflexivity.
Qed.

Lemma initial_state_fields K y sigma_squared :
  exists st,
    initial_state lapack_inv lapack_pinv K y sigma_squared = Ok st
    /\ st_alpha st
       = list_set 0
           (norm (col 0 K) ^ 2
            / (norm [dot (col 0 K) y] ^ 2 / norm (col 0 K) ^ 2
               - sigma_squared))
           (vscale INFINITY (ones (length y + 1)))
    /\ st_used_cond st = list_set 0 true (repeat false (length y + 1))
    /\ st_queue st = seq 0 (length y + 1).
Proof.
  unfold initial_state. cbv zeta.
  match goal with
  | |- context [_calculate_statistics _ _ ?K ?a ?u ?y ?s] =>
      destruct (_calculate_statistics_total K a u y s)
        as (Sigma & mu & s0 & q0 & Phi & H)
  end.
  rewrite H. cbn [bind]. eexists. repeat split.
Qed.

Lemma bool_index_no_LinAlgError {A : Type} (a : list A) mask :
  bool_index a mask <> Raise LinAlgError.
Proof.
  unfold bool_index. destruct (Nat.eqb (length a) (length mask));
    discriminate.
Qed.

Lemma extract_model_no_LinAlgError X threshold_alpha st :
  extract_model X threshold_alpha st <> Raise LinAlgError.
Proof.
  unfold extract_model, bool_index2, bool_index.
  repeat match goal with
         | |- context [Nat.eqb ?a ?b] => destruct (Nat.eqb a b); cbn [bind]
         end; discriminate.
Qed.

Lemma fit_steps_no_LinAlgError K X y tol threshold_alpha max_iter
    sigma_squared :
  fit_steps lapack_inv lapack_pinv K X y tol threshold_alpha max_iter
    sigma_squared
  <> Raise LinAlgError.
Proof.
  unfold fit_steps.
  destruct (initial_state_fields K y sigma_squared) as (st0 & -> & _).
  cbn [bind].
  pose proof (fit_loop_no_LinAlgError K y tol max_iter st0) as Hl.
  destruct (fit_loop lapack_inv lapack_pinv K y tol max_iter st0)
    as [st | e]; cbn [bind].
  - pose proof (extract_model_no_LinAlgError X threshold_alpha st) as He.
    destruct (extract_model X threshold_alpha st) as [model | e];
      cbn [bind]; [discriminate | ].
    intros E. apply He. injection E as ->. reflexivity.
  - intros E. apply Hl. injection E as ->. reflexivity.
Qed.

End Statistics.

(** ** The action on a candidate *)

Lemma update_candidate_reestimate alpha used_cond s q c :
  0 < nth c (vsub (vsquare q) s) 0 -> nth c alpha 0 < INFINITY ->
  update_candidate alpha used_cond s q c
  = (list_set c (nth c s 0 ^ 2 / (nth c q 0 ^ 2 - nth c s 0)) alpha,
     used_cond, true).
Proof.
  intros Ht Ha. unfold update_candidate.
  apply Rltb_true in Ht, Ha. rewrite Ht, Ha. reflexivity.
Qed.

Lemma update_candidate_add alpha used_cond s q c :
  0 < nth c (vsub (vsquare q) s) 0 -> INFINITY <= nth c alpha 0 ->
  update_candidate alpha used_cond s q c
  = (list_set c (nth c s 0 ^ 2 / (nth c q 0 ^ 2 - nth c s 0)) alpha,
     list_set c true used_cond, false).
Proof.
  intros Ht Ha. unfold update_candidate.
  apply Rltb_true in Ht. rewrite Ht.
  pose proof (proj2 (Rltb_false _ _) Ha) as Hf. rewrite Hf.
  apply Rgeb_true in Ha. rewrite Ha. reflexivity.
Qed.

Lemma update_candidate_delete alpha used_cond s q c :
  nth c (vsub (vsquare q) s) 0 <= 0 -> nth c alpha 0 < INFINITY ->
  update_candidate alpha used_cond s q c
  = (list_set c INFINITY alpha, list_set c false used_cond, false).
Proof.
  intros Ht Ha. unfold update_candidate.
  pose proof (proj2 (Rltb_false _ _) Ht) as Hf. rewrite Hf.
  apply Rleb_true in Ht. apply Rltb_true in Ha. rewrite Ht, Ha. reflexivity.
Qed.

Lemma update_candidate_noop alpha used_cond s q c :
  nth c (vsub (vsquare q) s) 0 <= 0 -> INFINITY <= nth c alpha 0 ->
  update_candidate alpha used_cond s q c = (alpha, used_cond, false).
Proof.
  intros Ht Ha. unfold update_candidate.
  pose proof (proj2 (Rltb_false _ _) Ht) as Hf. rewrite Hf.
  pose proof (proj2 (Rltb_false _ _) Ha) as Hg. rewrite Hg.
  rewrite !andb_false_r. reflexivity.
Qed.

(** Only a re-estimation sets [reestimate_action], and it leaves the mask
    as it was. *)
Lemma update_candidate_flag alpha used_cond s q c alpha' used_cond' :
  update_candidate alpha used_cond s q c = (alpha', used_cond', true) ->
  used_cond' = used_cond
  /\ 0 < nth c (vsub (vsquare q) s) 0 /\ nth c alpha 0 < INFINITY.
Proof.
  unfold update_candidate.
  destruct (Rltb 0 (nth c (vsub (vsquare q) s) 0)) eqn:Ht;
    destruct (Rltb (nth c alpha 0) INFINITY) eqn:Ha; simpl.
  - intros H. injection H as _ H. subst.
    apply Rltb_true in Ht, Ha. auto.
  - destruct (Rgeb (nth c alpha 0) INFINITY);
      [ | rewrite andb_false_r ]; discriminate.
  - destruct (Rleb (nth c (vsub (vsquare q) s) 0) 0); discriminate.
  - rewrite andb_false_r. discriminate.
Qed.

Lemma update_candidate_lengths alpha used_cond s q c alpha' used_cond' re :
  update_candidate alpha used_cond s q c = (alpha', used_cond', re) ->
  length alpha' = length alpha /\ length used_cond' = length used_cond.
Proof.
  unfold update_candidate.
  repeat match goal with
         | |- context [if ?b then _ else _] => destruct b
         end;
    intros H; injection H as <- <- <-; rewrite ?list_set_length; auto.
Qed.

(** The precision of the candidate after the action. *)
Lemma update_candidate_precision alpha used_cond s q c :
  (c < length alpha)%nat -> (c < length s)%nat -> (c < length q)%nat ->
  let theta := nth c q 0 ^ 2 - nth c s 0 in
  let alpha' := fst (fst (update_candidate alpha used_cond s q c)) in
  (0 < theta -> nth c alpha' 0 = nth c s 0 ^ 2 / theta)
  /\ (theta <= 0 -> INFINITY <= nth c alpha' 0).
Proof.
  intros Hc Hs Hq theta alpha'. subst alpha'.
  pose proof (nth_theta c s q Hs Hq) as Hth. fold theta in Hth.
  split; intros Ht; rewrite <- Hth in Ht;
    destruct (Rlt_dec (nth c alpha 0) INFINITY) as [Ha | Ha].
  - rewrite update_candidate_reestimate by assumption. simpl.
    now rewrite nth_list_set_eq.
  - rewrite update_candidate_add by (assumption || lra). simpl.
    now rewrite nth_list_set_eq.
  - rewrite update_candidate_delete by assumption. simpl.
    rewrite nth_list_set_eq by assumption. lra.
  - rewrite update_candidate_noop by (assumption || lra). simpl. lra.
Qed.

Lemma converged_true_iff re delta tol theta old_used_cond :
  length theta = length old_used_cond ->
  converged re delta tol theta old_used_cond = true <->
  re = true /\ delta < tol /\
  (forall i, (i < length old_used_cond)%nat ->
             nth i old_used_cond true = false -> nth i theta 0 <= 0).
Proof.
  intros Hlen. unfold converged.
  rewrite !andb_true_iff, Rltb_true.
  rewrite (forallb_compress (fun th => Rleb th 0) (map negb old_used_cond)
             theta 0) by (now rewrite length_map).
  rewrite length_map.
  split.
  - intros [[Hre Hd] Hall]. repeat split; auto.
    intros i Hi Hm. apply Rleb_true. apply Hall; auto.
    rewrite nth_map_negb by exact Hi. now rewrite Hm.
  - intros (Hre & Hd & Hall). repeat split; auto.
    intros i Hi Hm. apply Rleb_true. apply Hall; auto.
    rewrite nth_map_negb in Hm by exact Hi.
    now destruct (nth i old_used_cond true).
Qed.

Lemma theta_length (s q : vec) (used_cond : list bool) :
  length s = length used_cond -> length q = length used_cond ->
  length (vsub (vsquare q) s) = length used_cond.
Proof.
  intros Hs Hq. unfold vsub, vsquare.
  rewrite zip_with_length, length_map, Hs, Hq. apply Nat.min_id.
Qed.

(** ** One pass of the loop *)

(** C4. The action on the popped candidate [c] is decided by the sign of
    [theta = q[c]^2 - s[c]] and by whether the candidate is active, which the
    source reads off its precision ([alpha[c] < INFINITY]):
    - [theta > 0], active: the precision becomes [s^2 / (q^2 - s)], the mask
      is untouched and the pass counts as a re-estimation;
    - [theta > 0], inactive: the candidate is marked active with that
      precision;
    - [theta <= 0], active: the candidate is marked inactive and its
      precision is the sentinel [INFINITY];
    - [theta <= 0], inactive: nothing changes.
    No other entry of the precisions or of the mask is written. *)
Theorem update_candidate_actions (alpha : vec) (used_cond : list bool)
    (s q : vec) (c : nat) :
  (c < length alpha)%nat -> (c < length used_cond)%nat ->
  (c < length s)%nat -> (c < length q)%nat ->
  let theta := nth c q 0 ^ 2 - nth c s 0 in
  let estimate := nth c s 0 ^ 2 / (nth c q 0 ^ 2 - nth c s 0) in
  let result := update_candidate alpha used_cond s q c in
  let alpha' := fst (fst result) in
  let used_cond' := snd (fst result) in
  let reestimate_action := snd result in
  (0 < theta -> nth c alpha 0 < INFINITY ->
     nth c alpha' 0 = estimate /\ used_cond' = used_cond
     /\ reestimate_action = true)
  /\ (0 < theta -> INFINITY <= nth c alpha 0 ->
     nth c alpha' 0 = estimate /\ nth c used_cond' false = true
     /\ reestimate_action = false)
  /\ (theta <= 0 -> nth c alpha 0 < INFINITY ->
     nth c alpha' 0 = INFINITY /\ nth c used_cond' true = false
     /\ reestimate_action = false)
  /\ (theta <= 0 -> INFINITY <= nth c alpha 0 ->
     alpha' = alpha /\ used_cond' = used_cond /\ reestimate_action = false)
  /\ (forall i, i <> c ->
     nth i alpha' 0 = nth i alpha 0
     /\ nth i used_cond' false = nth i used_cond false).
Proof.
  intros Hc Hu Hs Hq theta estimate result alpha' used_cond' reestimate_action.
  pose proof (nth_theta c s q Hs Hq) as Hth. fold theta in Hth.
  subst result alpha' used_cond' reestimate_action.
  repeat split.
  1-3: rewrite update_candidate_reestimate by (rewrite ?Hth; assumption);
       simpl; auto using nth_list_set_eq.
  1-3: rewrite update_candidate_add by (rewrite ?Hth; assumption);
       simpl; auto using nth_list_set_eq.
  1-3: rewrite update_candidate_delete by (rewrite ?Hth; assumption);
       simpl; auto using nth_list_set_eq.
  1-3: rewrite update_candidate_noop by (rewrite ?Hth; assumption);
       simpl; auto.
  all: unfold update_candidate;
       repeat match goal with
              | |- context [if ?b then _ else _] => destruct b
              end; simpl; auto using nth_list_set_neq.
Qed.

Section Loop.

Variable lapack_inv : matrix -> option matrix.
Variable lapack_pinv : matrix -> matrix.


(** C3. With both logarithms of the convergence test defined, the pass on
    the candidate [c] ends the loop exactly when the action was a
    re-estimation, [delta = ln(alpha_new[c]) - ln(alpha_old[c])] is below
    [tol] and every candidate outside the mask has [theta <= 0]; otherwise
    the loop goes on with the next pass. *)
Theorem loop_stops_iff_converged (K : matrix) (y : vec) (tol : R)
    (st : loop_state) (c : nat) (rest : list nat)
    (alpha : vec) (used_cond : list bool) (reestimate_action : bool) :
  st_queue st = c :: rest ->
  length (st_s st) = length (st_used_cond st) ->
  length (st_q st) = length (st_used_cond st) ->
  update_candidate (st_alpha st) (st_used_cond st) (st_s st) (st_q st) c
  = (alpha, used_cond, reestimate_action) ->
  0 < nth c alpha 0 ->
  0 < nth c (st_alpha st) 0 ->
  let delta := ln (nth c alpha 0) - ln (nth c (st_alpha st) 0) in
  let done :=
    reestimate_action = true /\ delta < tol /\
    (forall i, (i < length used_cond)%nat ->
               nth i used_cond true = false ->
               nth i (st_q st) 0 ^ 2 - nth i (st_s st) 0 <= 0) in
  (done ->
     exists st',
       fit_iter lapack_inv lapack_pinv K y tol st = Ok (true, st') /\
       forall m, fit_loop lapack_inv lapack_pinv K y tol (S m) st = Ok st')
  /\ (~ done ->
     exists st',
       fit_iter lapack_inv lapack_pinv K y tol st = Ok (false, st') /\
       forall m, fit_loop lapack_inv lapack_pinv K y tol (S m) st
                 = fit_loop lapack_inv lapack_pinv K y tol m st').
Proof.
  intros Hq Hs Hqq Hu Hn Ho delta done.
  pose proof (theta_length _ _ _ Hs Hqq) as Hlen.
  assert (Hiff : converged reestimate_action delta tol
                   (vsub (vsquare (st_q st)) (st_s st)) (st_used_cond st)
                 = true <-> done).
  { rewrite (converged_true_iff _ _ _ _ _ Hlen). unfold done.
    split; intros (Hre & Hd & Hall); subst reestimate_action;
      destruct (update_candidate_flag _ _ _ _ _ _ _ Hu) as (-> & _ & _);
      repeat split; auto; intros i Hi Hm.
    - rewrite <- nth_theta by lia. auto.
    - rewrite nth_theta by lia. auto. }
  split; intros Hd.
  - apply Hiff in Hd. eexists. split.
    + eapply fit_iter_break; eauto.
    + intros m. simpl.
      erewrite fit_iter_break by eauto. reflexivity.
  - assert (Hc : converged reestimate_action delta tol
                   (vsub (vsquare (st_q st)) (st_s st)) (st_used_cond st)
                 = false).
    { destruct (converged _ _ _ _ _); [ | reflexivity].
      exfalso. apply Hd, Hiff. reflexivity. }
    destruct (posterior_total lapack_inv lapack_pinv K alpha used_cond y
                (st_sigma_squared st)) as (Sigma0 & mu0 & Phi0 & Hp).
    destruct (_calculate_statistics_total lapack_inv lapack_pinv K alpha
                used_cond y (noise_level y alpha used_cond Sigma0 mu0 Phi0))
      as (Sigma & mu & s & q & Phi & Hst).
    eexists. split.
    + eapply fit_iter_continue; eauto.
    + intros m. simpl.
      erewrite fit_iter_continue by eauto. reflexivity.
Qed.

(** C8. A pass that does not end the loop recomputes the noise variance as
    [||y - Phi mu||^2 / (n_samples - |mask| + sum (alpha[mask] * diag Sigma))]
    from the posterior at the updated precisions and mask, when that
    denominator is positive. *)
Theorem noise_variance_reestimated (K : matrix) (y : vec) (tol : R)
    (st st' : loop_state) (Sigma : matrix) (mu : vec) (Phi : matrix) :
  fit_iter lapack_inv lapack_pinv K y tol st = Ok (false, st') ->
  posterior lapack_inv lapack_pinv K (st_alpha st') (st_used_cond st') y
    (st_sigma_squared st)
  = Ok (Sigma, mu, Phi) ->
  let residual := vsub y (matvec Phi mu) in
  let active_alpha := compress (st_used_cond st') (st_alpha st') in
  let denominator :=
    INR (length y) - INR (count_true (st_used_cond st'))
    + vsum (vmul active_alpha (diagonal Sigma)) in
  0 < denominator ->
  st_sigma_squared st' = vsum (vsquare residual) / denominator.
Proof.
  intros Hit Hp residual active_alpha denominator Hden.
  unfold fit_iter in Hit.
  destruct (st_queue st) as [|c rest]; [discriminate | ].
  destruct (update_candidate _ _ _ _ c) as [[alpha used_cond] re].
  destruct (math_log (nth c alpha 0)) as [ln_new | ]; [ | discriminate].
  destruct (math_log (nth c (st_alpha st) 0)) as [ln_old | ];
    [ | discriminate].
  simpl in Hit.
  destruct (converged _ _ _ _ _); [discriminate | ].
  destruct (posterior lapack_inv lapack_pinv K alpha used_cond y
              (st_sigma_squared st)) as [[[Sigma0 mu0] Phi0] | ] eqn:Hp0;
    [ | discriminate].
  simpl in Hit.
  destruct (_calculate_statistics _ _ _ _ _ _ _)
    as [[[[[Sigma1 mu1] s1] q1] Phi1] | ]; [ | discriminate].
  simpl in Hit. injection Hit as <-. simpl in *.
  rewrite Hp0 in Hp. injection Hp as -> -> ->.
  unfold noise_level. rewrite norm_sq, dot_self_squares. reflexivity.
Qed.

(** C9. The posterior covariance is the elementwise reciprocal when exactly
    one basis is active; otherwise it is [linalg.inv], and [linalg.pinv]
    when [linalg.inv] raises [LinAlgError].  Hence the statistics always
    return, and neither a pass of the loop nor the steps of [fit] raise
    [LinAlgError]. *)
Theorem covariance_inversion_guarded (K : matrix) (alpha : vec)
    (used_cond : list bool) (y : vec) (sigma_squared : R) :
  length alpha = length used_cond ->
  let tmp := precision_matrix K alpha used_cond sigma_squared in
  (count_true used_cond = 1%nat ->
     exists mu Phi,
       posterior lapack_inv lapack_pinv K alpha used_cond y sigma_squared
       = Ok (mrecip tmp, mu, Phi))
  /\ (count_true used_cond <> 1%nat ->
      forall inverse, linalg_inv lapack_inv tmp = Ok inverse ->
      exists mu Phi,
        posterior lapack_inv lapack_pinv K alpha used_cond y sigma_squared
        = Ok (inverse, mu, Phi))
  /\ (count_true used_cond <> 1%nat ->
      linalg_inv lapack_inv tmp = Raise LinAlgError ->
      exists mu Phi,
        posterior lapack_inv lapack_pinv K alpha used_cond y sigma_squared
        = Ok (linalg_pinv lapack_pinv tmp, mu, Phi))
  /\ (exists r,
        _calculate_statistics lapack_inv lapack_pinv K alpha used_cond y
          sigma_squared = Ok r)
  /\ (forall tol st,
        fit_iter lapack_inv lapack_pinv K y tol st <> Raise LinAlgError)
  /\ (forall X tol threshold_alpha max_iter,
        fit_steps lapack_inv lapack_pinv K X y tol threshold_alpha max_iter
          sigma_squared
        <> Raise LinAlgError).
Proof.
  intros Hlen tmp.
  pose proof (precision_matrix_length K alpha used_cond sigma_squared Hlen)
    as Hrows. fold tmp in Hrows.
  repeat split.
  - intros H1. unfold posterior, covariance.
    fold tmp. rewrite Hrows, H1. simpl. eauto.
  - intros H1 inverse Hinv. unfold posterior, covariance.
    fold tmp. rewrite Hrows.
    apply Nat.eqb_neq in H1. rewrite H1, Hinv. simpl. eauto.
  - intros H1 Hinv. unfold posterior, covariance.
    fold tmp. rewrite Hrows.
    apply Nat.eqb_neq in H1. rewrite H1, Hinv. simpl. eauto.
  - destruct (_calculate_statistics_total lapack_inv lapack_pinv K alpha
                used_cond y sigma_squared) as (S0 & m0 & s0 & q0 & P0 & H).
    eauto.
  - intros tol st. apply fit_iter_no_LinAlgError.
  - intros X tol threshold_alpha max_iter. apply fit_steps_no_LinAlgError.
Qed.

End Loop.

(** ** The logarithms of the convergence test *)

Section Logarithm.

Variable lapack_inv : matrix -> option matrix.
Variable lapack_pinv : matrix -> matrix.

(** When a pass raises.  After the action the precision of the candidate
    [c] is [s^2 / (q^2 - s) >= 0] when [theta > 0] and at least the sentinel
    when [theta <= 0].  The pass raises the domain error of [math.log]
    exactly when that precision is 0 or when the precision of the candidate
    before the action is not positive. *)
Theorem candidate_precision_positive_unless (K : matrix) (y : vec) (tol : R)
    (st : loop_state) (c : nat) (rest : list nat) :
  st_queue st = c :: rest ->
  (c < length (st_alpha st))%nat ->
  (c < length (st_s st))%nat ->
  (c < length (st_q st))%nat ->
  let theta := nth c (st_q st) 0 ^ 2 - nth c (st_s st) 0 in
  let alpha' :=
    fst (fst (update_candidate (st_alpha st) (st_used_cond st) (st_s st)
                (st_q st) c)) in
  (0 < theta ->
     nth c alpha' 0 = nth c (st_s st) 0 ^ 2 / theta /\ 0 <= nth c alpha' 0)
  /\ (theta <= 0 -> INFINITY <= nth c alpha' 0)
  /\ (0 < nth c alpha' 0 <-> ~ (0 < theta /\ nth c (st_s st) 0 = 0))
  /\ (fit_iter lapack_inv lapack_pinv K y tol st = Raise ValueError <->
      (0 < theta /\ nth c (st_s st) 0 = 0) \/ nth c (st_alpha st) 0 <= 0).
Proof.
  intros Hq Hc Hs Hqq theta alpha'.
  destruct (update_candidate_precision (st_alpha st) (st_used_cond st)
              (st_s st) (st_q st) c Hc Hs Hqq) as [Hpos Hneg].
  fold theta in Hpos, Hneg. fold alpha' in Hpos, Hneg.
  pose proof INFINITY_pos as Hinf.
  assert (Hsq : 0 < theta ->
                nth c alpha' 0 = nth c (st_s st) 0 ^ 2 / theta
                /\ 0 <= nth c alpha' 0).
  { intros Ht. split; [auto | ]. rewrite (Hpos Ht).
    apply Rmult_le_pos; [nra | ].
    left. now apply Rinv_0_lt_compat. }
  assert (Hiff : 0 < nth c alpha' 0 <->
                 ~ (0 < theta /\ nth c (st_s st) 0 = 0)).
  { destruct (Rlt_dec 0 theta) as [Ht | Ht].
    - rewrite (Hpos Ht). split.
      + intros H [_ H0]. rewrite H0 in H.
        replace (0 ^ 2 / theta) with 0 in H by (unfold Rdiv; ring). lra.
      + intros H. apply Rmult_lt_0_compat.
        * assert (nth c (st_s st) 0 <> 0) by (intros E; apply H; auto). nra.
        * now apply Rinv_0_lt_compat.
    - split; [intros _ [H _]; contradiction | ].
      intros _. assert (INFINITY <= nth c alpha' 0) by (apply Hneg; lra).
      lra. }
  split; [exact Hsq | split; [exact Hneg | split; [exact Hiff | split]]].
  - intros Hraise.
    destruct (fit_iter_outcome lapack_inv lapack_pinv K y tol st c rest Hq)
      as [(_ & _ & stop & st' & H) | ([Hn | Ho] & _)].
    + rewrite H in Hraise. discriminate.
    + left. fold alpha' in Hn.
      destruct (Rlt_dec 0 theta) as [Ht | Ht].
      * destruct (Req_dec (nth c (st_s st) 0) 0) as [E | E]; [auto | ].
        exfalso. assert (0 < nth c alpha' 0); [ | lra].
        apply Hiff. intros [_ E']. contradiction.
      * exfalso. assert (INFINITY <= nth c alpha' 0) by (apply Hneg; lra).
        lra.
    + right. exact Ho.
  - intros [Hbad | Ho].
    + apply fit_iter_raise_new with (c := c) (rest := rest); [exact Hq | ].
      fold alpha'. destruct (Rlt_dec 0 (nth c alpha' 0)) as [H | H]; [ | lra].
      apply Hiff in H. contradiction.
    + apply fit_iter_raise_old with (c := c) (rest := rest); assumption.
Qed.

End Logarithm.

(** ** The sparsity and quality factors *)

Lemma nth_map_seq {A : Type} (f : nat -> A) (n i : nat) (d : A) :
  (i < n)%nat -> nth i (map f (seq 0 n)) d = f i.
Proof.
  intros H. rewrite (nth_indep _ d (f 0%nat)) by
    (now rewrite length_map, length_seq).
  rewrite map_nth, seq_nth; auto.
Qed.

Section Factors.

Variable lapack_inv : matrix -> option matrix.
Variable lapack_pinv : matrix -> matrix.


End Factors.

(** ** Attributes of the estimator *)

Lemma lookup_filter_other name name' est :
  String.eqb name' name = false ->
  lookup name (filter (fun kv => negb (String.eqb (fst kv) name')) est)
  = lookup name est.
Proof.
  intros Hne. induction est as [|[k v] est IH]; simpl; [reflexivity | ].
  destruct (String.eqb k name') eqn:Hk; simpl.
  - apply String.eqb_eq in Hk. subst k. rewrite Hne. exact IH.
  - destruct (String.eqb k name); [reflexivity | exact IH].
Qed.

Lemma hasattr_setattr_other est name name' v :
  String.eqb name' name = false ->
  hasattr (setattr est name' v) name = hasattr est name.
Proof.
  intros Hne. unfold hasattr, setattr. simpl. rewrite Hne.
  now rewrite lookup_filter_other.
Qed.

Lemma hasattr_setattr_same est name v :
  hasattr (setattr est name v) name = true.
Proof. unfold hasattr, setattr. simpl. now rewrite String.eqb_refl. Qed.

(** [fit] stores [sigma_squared_]; it never creates [sigma_squared]. *)
Lemma store_model_sigma_squared est model :
  hasattr (store_model est model) "sigma_squared"
  = hasattr est "sigma_squared".
Proof.
  unfold store_model.
  repeat (rewrite hasattr_setattr_other by reflexivity). reflexivity.
Qed.

Lemma store_model_fitted_attributes est model :
  forallb (hasattr (store_model est model))
    ["relevance_vectors_"; "mu_"; "Sigma_"; "sigma_squared_"]%string = true.
Proof.
  unfold store_model. simpl.
  repeat (rewrite ?hasattr_setattr_same;
          rewrite ?hasattr_setattr_other by reflexivity).
  reflexivity.
Qed.

Section Estimator.

Variable pairwise_kernels :
  pyval -> list (string * pyval) -> matrix -> option matrix -> result matrix.
Variable lapack_inv : matrix -> option matrix.
Variable lapack_pinv : matrix -> matrix.

Lemma fit_with_stores step_1 est X y est' :
  fit_with pairwise_kernels lapack_inv lapack_pinv step_1 est X y = Ok est' ->
  exists model, est' = store_model est model.
Proof.
  unfold fit_with. intros H.
  destruct (check_X_y X y) as [[X0 y0] | ]; [ | discriminate].
  cbn [bind] in H.
  destruct (_get_kernel pairwise_kernels est X0 None) as [K | ];
    [ | discriminate].
  cbn [bind] in H.
  destruct (step_1 y0); [ | discriminate]. simpl in H.
  destruct (bind (getattr est "max_iter") as_int); [ | discriminate].
  simpl in H.
  destruct (bind (getattr est "tol") as_float); [ | discriminate].
  simpl in H.
  destruct (bind (getattr est "threshold_alpha") as_float);
    [ | discriminate].
  simpl in H.
  destruct (fit_steps _ _ _ _ _ _ _ _ _) as [[st model] | ];
    [ | discriminate].
  simpl in H. injection H as <-. eauto.
Qed.

Lemma predict_checks_sigma_squared est X return_std :
  hasattr est "sigma_squared" = false ->
  predict pairwise_kernels est X return_std = Raise NotFittedError.
Proof.
  intros H. unfold predict, check_is_fitted. simpl. rewrite H.
  rewrite !andb_false_r. reflexivity.
Qed.

(** [predict] before any [fit]. *)
Lemma predict_before_fit p est X return_std :
  RVR_init p = Ok est ->
  predict pairwise_kernels est X return_std = Raise NotFittedError.
Proof.
  unfold RVR_init, BaseRVM_init. destruct (py_eq_zero (gamma p));
    [discriminate | ].
  intros H. injection H as <-. reflexivity.
Qed.

(** C1.  After [fit] has run from its step 2 to its end and stored the
    model, [predict] still raises [NotFittedError]: it asks for the
    attribute [sigma_squared], and [fit] stores [sigma_squared_]. *)
Theorem predict_after_fit_raises_NotFitted (sigma_squared : R)
    (est : estimator) (X : matrix) (y : vec) (est' : estimator)
    (Xnew : matrix) (return_std : bool) :
  hasattr est "sigma_squared" = false ->
  fit_from pairwise_kernels lapack_inv lapack_pinv sigma_squared est X y
  = Ok est' ->
  forallb (hasattr est') ["relevance_vectors_"; "mu_"; "Sigma_"]%string
  = true
  /\ predict pairwise_kernels est' Xnew return_std = Raise NotFittedError.
Proof.
  intros Hno Hfit. unfold fit_from in Hfit.
  destruct (fit_with_stores _ _ _ _ _ Hfit) as [model ->].
  split.
  - pose proof (store_model_fitted_attributes est model) as H.
    simpl in H. simpl.
    repeat (apply andb_true_iff in H; destruct H as [? H]).
    repeat (apply andb_true_iff; split); auto.
  - apply predict_checks_sigma_squared.
    now rewrite store_model_sigma_squared.
Qed.

(** C2.  Step 1 of [fit] passes [np.std(y)], a float, as the axis of
    [np.max]: it raises [TypeError] for every target vector, and no noise
    variance is produced. *)
Theorem init_sigma_squared_raises (y : vec) :
  init_sigma_squared y = Raise TypeError.
Proof. reflexivity. Qed.

(** Hence [fit] itself never returns: past the validation and the kernel
    it raises [TypeError]. *)
Lemma fit_raises est X y :
  exists e,
    fit pairwise_kernels lapack_inv lapack_pinv est X y = Raise e
    /\ (length X = length y -> (2 <= length X)%nat ->
        (exists K, _get_kernel pairwise_kernels est X None = Ok K) ->
        e = TypeError).
Proof.
  unfold fit, fit_with, check_X_y.
  destruct (Nat.eqb (length X) (length y)) eqn:Hlen.
  - destruct (Nat.ltb (length X) 2) eqn:Hn; cbn [bind].
    + eexists. split; [reflexivity | ].
      intros _ H. apply Nat.ltb_lt in Hn. lia.
    + destruct (_get_kernel pairwise_kernels est X None) as [K | e] eqn:HK;
        cbn [bind].
      * eexists. split; [reflexivity | auto].
      * eexists. split; [reflexivity | ].
        intros _ _ [K HK']. discriminate.
  - cbn [bind]. eexists. split; [reflexivity | ].
    intros H. apply Nat.eqb_neq in Hlen. contradiction.
Qed.

End Estimator.

(** ** The extraction of the model *)

Lemma bool_index_ok {A : Type} (a : list A) mask :
  length a = length mask -> bool_index a mask = Ok (compress mask a).
Proof. intros H. unfold bool_index. now rewrite H, Nat.eqb_refl. Qed.

Lemma bool_index_mismatch {A : Type} (a : list A) mask :
  length a <> length mask -> bool_index a mask = Raise IndexError.
Proof.
  intros H. unfold bool_index. apply Nat.eqb_neq in H. now rewrite H.
Qed.

Lemma bool_index_cases {A : Type} (a : list A) mask :
  bool_index a mask = Ok (compress mask a)
  \/ bool_index a mask = Raise IndexError.
Proof.
  unfold bool_index. destruct (Nat.eqb (length a) (length mask)); auto.
Qed.

(** The mask over the model has one slot for the bias and one for each
    active row: with the bias out of the active set it is one longer than
    the posterior mean, and indexing raises. *)
Lemma extract_model_bias_inactive X threshold_alpha st :
  hd false (st_used_cond st) = false ->
  length (st_mu st) = count_true (st_used_cond st) ->
  extract_model X threshold_alpha st = Raise IndexError.
Proof.
  intros Hu Hmu. unfold extract_model.
  set (rest := tl (st_used_cond st)).
  assert (Hk : count_true (st_used_cond st) = count_true rest).
  { unfold rest. destruct (st_used_cond st) as [|[|] r]; cbn in *;
      try discriminate; reflexivity. }
  destruct (Nat.eq_dec (length (tl (st_alpha st))) (length rest)) as [Ha | Ha].
  2:{ now rewrite bool_index_mismatch. }
  rewrite (bool_index_ok _ _ Ha). cbn [bind].
  destruct (bool_index_cases X rest) as [HX | HX]; rewrite HX;
    [ | reflexivity].
  cbn [bind].
  destruct (bool_index_cases (compress rest X)
              (map (fun a => Rltb a threshold_alpha)
                   (compress rest (tl (st_alpha st))))) as [Hr | Hr];
    rewrite Hr; [ | reflexivity].
  cbn [bind].
  rewrite bool_index_mismatch; [reflexivity | ].
  cbn [length]. rewrite length_map, (compress_length _ _ Ha), Hmu, Hk. lia.
Qed.

(** With the bias in the active set the model is extracted: the relevance
    vectors are the active rows whose precision is below the threshold,
    and the mean has one entry per selected basis. *)
Lemma extract_model_bias_active X threshold_alpha st alpha_bias alpha_basis
    rest :
  st_alpha st = alpha_bias :: alpha_basis ->
  st_used_cond st = true :: rest ->
  length alpha_basis = length rest ->
  length X = length rest ->
  length (st_mu st) = count_true (st_used_cond st) ->
  length (st_Sigma st) = count_true (st_used_cond st) ->
  ncols (st_Sigma st) = count_true (st_used_cond st) ->
  let cond_basis_rv :=
    map (fun a => Rltb a threshold_alpha) (compress rest alpha_basis) in
  let selected_basis := Rltb alpha_bias threshold_alpha :: cond_basis_rv in
  exists Sigma,
    extract_model X threshold_alpha st
    = Ok {| relevance_vectors_ := compress cond_basis_rv (compress rest X);
            mu_ := compress selected_basis (st_mu st);
            Sigma_ := Sigma;
            sigma_squared_ := st_sigma_squared st |}
    /\ length (compress selected_basis (st_mu st))
       = count_true selected_basis
    /\ length Sigma = count_true selected_basis
    /\ length (compress cond_basis_rv (compress rest X))
       = count_true cond_basis_rv.
Proof.
  intros Ha Hu Hab HX Hmu HSig Hnc cond_basis_rv selected_basis.
  assert (Hk : count_true (true :: rest) = S (count_true rest))
    by reflexivity.
  assert (Hsel : length selected_basis = S (count_true rest)).
  { simpl. unfold cond_basis_rv.
    now rewrite length_map, (compress_length _ _ Hab). }
  assert (Hrv : length (compress rest X) = length cond_basis_rv).
  { unfold cond_basis_rv.
    now rewrite length_map, (compress_length _ _ Hab),
      (compress_length _ _ HX). }
  rewrite Hu in Hmu, HSig, Hnc.
  assert (Hm : length (st_mu st) = length selected_basis) by lia.
  assert (Hs : length (st_Sigma st) = length selected_basis) by lia.
  pose proof (compress_length selected_basis (st_mu st) Hm) as F1.
  pose proof (compress_length selected_basis (st_Sigma st) Hs) as F2.
  pose proof (compress_length cond_basis_rv (compress rest X) Hrv) as F3.
  unfold extract_model. rewrite Ha, Hu. cbn [tl nth].
  rewrite (bool_index_ok _ _ Hab). cbn [bind].
  rewrite (bool_index_ok _ _ HX). cbn [bind].
  fold cond_basis_rv.
  rewrite (bool_index_ok _ _ Hrv). cbn [bind].
  fold selected_basis.
  rewrite (bool_index_ok _ _ Hm). cbn [bind].
  unfold bool_index2.
  rewrite (bool_index_ok _ _ Hs). cbn [bind].
  replace (ncols (st_Sigma st)) with (length selected_basis) by lia.
  rewrite Nat.eqb_refl.
  eexists. split; [reflexivity | ].
  split; [exact F1 | split; [ | exact F3]].
  rewrite length_map. exact F2.
Qed.

(** ** Evaluation on the examples *)

Ltac rcompare :=
  repeat match goal with
  | |- context [Rlt_dec ?a ?b] =>
      let H := fresh "H" in
      destruct (Rlt_dec a b) as [H | H];
      first [ solve [exfalso; unfold INFINITY in H; lra] | clear H ]
  | |- context [Rle_dec ?a ?b] =>
      let H := fresh "H" in
      destruct (Rle_dec a b) as [H | H];
      first [ solve [exfalso; unfold INFINITY in H; lra] | clear H ]
  end.

Ltac reval :=
  unfold Rltb, Rgeb, Rleb; cbn -[INFINITY]; rcompare; cbn -[INFINITY].

Ltac requal :=
  match goal with
  | |- @eq R _ _ =>
      first [ reflexivity | unfold INFINITY; field | unfold INFINITY; lra ]
  | |- _ => first [ reflexivity | progress f_equal; requal ]
  end.

(** The premises of [fit_iter_continue], in order. *)
Ltac run_pass :=
  [> reflexivity
   | unfold update_candidate; reval; requal
   | cbn -[INFINITY]; unfold INFINITY; lra
   | cbn -[INFINITY]; unfold INFINITY; lra
   | unfold converged; reval; reflexivity
   | cbn -[INFINITY]; reflexivity
   | unfold noise_level; rewrite norm_sq; cbn -[INFINITY];
     unfold INFINITY; field
   | cbn -[INFINITY]; requal ].

Section Examples.

Variable lapack_inv : matrix -> option matrix.
Variable lapack_pinv : matrix -> matrix.

Lemma initial_precisions y sigma_squared :
  y = y_ex -> sigma_squared = 2 / 5 ->
  list_set 0
    (norm [1; 1] ^ 2 / (norm [dot [1; 1] y] ^ 2 / norm [1; 1] ^ 2
                        - sigma_squared))
    (vscale INFINITY (ones (length y + 1)))
  = [5 / 4; INFINITY; INFINITY].
Proof.
  intros -> ->. rewrite !norm_sq. cbn -[INFINITY]. requal.
Qed.

Lemma drop_initial_state :
  initial_state lapack_inv lapack_pinv K_drop y_ex (2 / 5) = Ok drop0.
Proof.
  unfold initial_state. cbv zeta.
  change (col 0 K_drop) with [1; 1].
  rewrite initial_precisions by reflexivity.
  cbn -[INFINITY]. unfold drop0. requal.
Qed.

Lemma drop_pass_0 :
  fit_iter lapack_inv lapack_pinv K_drop y_ex 1e-6 drop0 = Ok (false, drop1).
Proof.
  eapply (fit_iter_continue _ _ _ _ _ drop0 0 [1; 2]%nat
            [5 / 4; INFINITY; INFINITY] [true; false; false] true).
  all: run_pass.
Qed.

Lemma drop_pass_1 :
  fit_iter lapack_inv lapack_pinv K_drop y_ex 1e-6 drop1 = Ok (false, drop2).
Proof.
  eapply (fit_iter_continue _ _ _ _ _ drop1 1 [2; 0]%nat
            [5 / 4; INFINITY; INFINITY] [true; false; false] false).
  all: run_pass.
Qed.

Lemma drop_pass_2 :
  fit_iter lapack_inv lapack_pinv K_drop y_ex 1e-6 drop2 = Ok (false, drop3).
Proof.
  eapply (fit_iter_continue _ _ _ _ _ drop2 2 [0; 1]%nat
            [5 / 4; INFINITY; INFINITY] [true; false; false] false).
  all: run_pass.
Qed.

Lemma drop_pass_3 :
  fit_iter lapack_inv lapack_pinv K_drop y_ex 1e-6 drop3
  = Ok (false, dropped [1; 2; 0]%nat).
Proof.
  eapply (fit_iter_continue _ _ _ _ _ drop3 0 [1; 2]%nat
            [INFINITY; INFINITY; INFINITY] [false; false; false] false).
  all: run_pass.
Qed.

Lemma dropped_pass c rest :
  (c < 3)%nat ->
  fit_iter lapack_inv lapack_pinv K_drop y_ex 1e-6 (dropped (c :: rest))
  = Ok (false, dropped (rest ++ [c])).
Proof.
  intros Hc.
  assert (Hcases : c = 0%nat \/ c = 1%nat \/ c = 2%nat) by lia.
  destruct Hcases as [-> | [-> | ->]].
  - eapply (fit_iter_continue _ _ _ _ _ (dropped (_ :: rest)) _ rest
              [INFINITY; INFINITY; INFINITY] [false; false; false] false).
    all: run_pass.
  - eapply (fit_iter_continue _ _ _ _ _ (dropped (_ :: rest)) _ rest
              [INFINITY; INFINITY; INFINITY] [false; false; false] false).
    all: run_pass.
  - eapply (fit_iter_continue _ _ _ _ _ (dropped (_ :: rest)) _ rest
              [INFINITY; INFINITY; INFINITY] [false; false; false] false).
    all: run_pass.
Qed.

(** Once the bias is deleted nothing is added again: every later pass is
    without action, for as many passes as [max_iter] allows. *)
Lemma dropped_loop m :
  forall queue,
    queue <> [] -> Forall (fun c => (c < 3)%nat) queue ->
    exists queue',
      fit_loop lapack_inv lapack_pinv K_drop y_ex 1e-6 m (dropped queue)
      = Ok (dropped queue').
Proof.
  induction m as [|m IH]; intros queue Hne Hall.
  - exists queue. reflexivity.
  - destruct queue as [|c rest]; [contradiction | ].
    inversion Hall as [|? ? Hc Hrest]; subst.
    destruct (IH (rest ++ [c])) as [queue' Hq'].
    + destruct rest; discriminate.
    + apply Forall_app. split; [exact Hrest | ]. constructor; auto.
    + exists queue'. cbn [fit_loop]. rewrite (dropped_pass c rest Hc).
      cbn [bind]. exact Hq'.
Qed.

Lemma drop_loop max_iter :
  (4 <= max_iter)%nat ->
  exists queue,
    fit_loop lapack_inv lapack_pinv K_drop y_ex 1e-6 max_iter drop0
    = Ok (dropped queue).
Proof.
  intros H.
  destruct max_iter as [|[|[|[|m]]]]; try lia.
  destruct (dropped_loop m [1; 2; 0]%nat) as [queue Hq].
  - discriminate.
  - repeat constructor.
  - exists queue. cbn [fit_loop].
    rewrite drop_pass_0. cbn [bind].
    rewrite drop_pass_1. cbn [bind].
    rewrite drop_pass_2. cbn [bind].
    rewrite drop_pass_3. cbn [bind]. exact Hq.
Qed.

Lemma drop_fit_steps X threshold_alpha max_iter :
  (4 <= max_iter)%nat ->
  fit_steps lapack_inv lapack_pinv K_drop X y_ex 1e-6 threshold_alpha
    max_iter (2 / 5)
  = Raise IndexError.
Proof.
  intros H. unfold fit_steps. rewrite drop_initial_state. cbn [bind].
  destruct (drop_loop max_iter H) as [queue ->]. cbn [bind].
  rewrite (extract_model_bias_inactive X threshold_alpha (dropped queue));
    reflexivity.
Qed.

Lemma drop_fit_from max_iter :
  (4 <= max_iter)%Z ->
  fit_from pairwise_linear lapack_inv lapack_pinv (2 / 5)
    (linear_estimator max_iter) X_drop y_ex
  = Raise IndexError.
Proof.
  intros H. unfold fit_from, fit_with. cbn [check_X_y bind].
  change (check_X_y X_drop y_ex) with (Ok (X_drop, y_ex)). cbn [bind].
  change (_get_kernel pairwise_linear (linear_estimator max_iter) X_drop None)
    with (Ok (matmul_T X_drop X_drop) : result matrix).
  cbn [bind]. change (hstack_ones (matmul_T X_drop X_drop)) with K_drop.
  change (bind (getattr (linear_estimator max_iter) "max_iter") as_int)
    with (Ok max_iter : result Z).
  change (bind (getattr (linear_estimator max_iter) "tol") as_float)
    with (Ok 1e-6 : result R).
  change (bind (getattr (linear_estimator max_iter) "threshold_alpha")
            as_float) with (Ok 1e5 : result R).
  cbn [bind].
  rewrite drop_fit_steps; [reflexivity | lia].
Qed.

Lemma conv_initial_state :
  initial_state lapack_inv lapack_pinv K_conv y_ex (2 / 5) = Ok conv0.
Proof.
  unfold initial_state. cbv zeta.
  change (col 0 K_conv) with [1; 1].
  rewrite initial_precisions by reflexivity.
  cbn -[INFINITY]. unfold conv0. requal.
Qed.

Lemma conv_statistics :
  _calculate_statistics lapack_inv lapack_pinv K_conv
    [5 / 4; INFINITY; INFINITY] [true; false; false] y_ex (2 / 5)
  = Ok (st_Sigma conv0, st_mu conv0, st_s conv0, st_q conv0, st_Phi conv0).
Proof. cbn -[INFINITY]. requal. Qed.

(** The statistics with two active bases, through [linalg.inv]. *)
Lemma two_active_statistics :
  _calculate_statistics inv_2x2 lapack_pinv K_drop [5 / 4; 3; INFINITY]
    [true; true; false] y_ex (2 / 5)
  = Ok ([[124 / 325; - 12 / 65]; [- 12 / 65; 2 / 13]],
        [94 / 65; - 7 / 13],
        [85 / 62; 7 / 2; INFINITY * (84 / 13) / (INFINITY - 84 / 13)],
        [235 / 62; - 7 / 2; INFINITY * (- 42 / 13) / (INFINITY - 84 / 13)],
        [[1; 1]; [1; 2]]).
Proof.
  unfold _calculate_statistics, posterior, covariance, linalg_inv.
  cbn -[INFINITY Req_dec_T].
  destruct (Req_dec_T _ 0) as [H | _]; [exfalso; lra | ].
  cbn -[INFINITY]. requal.
Qed.

Lemma conv_update :
  update_candidate (st_alpha conv0) (st_used_cond conv0) (st_s conv0)
    (st_q conv0) 0
  = ([5 / 4; INFINITY; INFINITY], [true; false; false], true).
Proof. unfold update_candidate. reval. requal. Qed.

Lemma conv_pass_0 :
  fit_iter lapack_inv lapack_pinv K_conv y_ex 1e-6 conv0
  = Ok (true, conv_final).
Proof.
  eapply (fit_iter_break _ _ _ _ _ conv0 0 [1; 2]%nat
            [5 / 4; INFINITY; INFINITY] [true; false; false] true).
  - reflexivity.
  - exact conv_update.
  - cbn. lra.
  - cbn. lra.
  - unfold converged. reval. reflexivity.
Qed.

Lemma conv_loop max_iter :
  (1 <= max_iter)%nat ->
  fit_loop lapack_inv lapack_pinv K_conv y_ex 1e-6 max_iter conv0
  = Ok conv_final.
Proof.
  intros H. destruct max_iter as [|m]; [lia | ].
  cbn [fit_loop]. rewrite conv_pass_0. reflexivity.
Qed.

Lemma conv_extract_model :
  extract_model X_conv 1e5 conv_final = Ok conv_model.
Proof. unfold extract_model. reval. reflexivity. Qed.

Lemma conv_fit_from max_iter :
  (1 <= max_iter)%Z ->
  fit_from pairwise_linear lapack_inv lapack_pinv (2 / 5)
    (linear_estimator max_iter) X_conv y_ex
  = Ok (store_model (linear_estimator max_iter) conv_model).
Proof.
  intros H. unfold fit_from, fit_with.
  change (check_X_y X_conv y_ex) with (Ok (X_conv, y_ex)). cbn [bind].
  change (_get_kernel pairwise_linear (linear_estimator max_iter) X_conv None)
    with (Ok (matmul_T X_conv X_conv) : result matrix).
  cbn [bind]. change (hstack_ones (matmul_T X_conv X_conv)) with K_conv.
  change (bind (getattr (linear_estimator max_iter) "max_iter") as_int)
    with (Ok max_iter : result Z).
  change (bind (getattr (linear_estimator max_iter) "tol") as_float)
    with (Ok 1e-6 : result R).
  change (bind (getattr (linear_estimator max_iter) "threshold_alpha")
            as_float) with (Ok 1e5 : result R).
  cbn [bind].
  unfold fit_steps. rewrite conv_initial_state. cbn [bind].
  rewrite conv_loop by lia. cbn [bind].
  rewrite conv_extract_model. reflexivity.
Qed.

Lemma linear_estimator_init max_iter :
  RVR_init (linear_params max_iter) = Ok (linear_estimator max_iter).
Proof. reflexivity. Qed.

End Examples.

(** ** The first pass and the size of the mask *)

Section Bounds.

Variable lapack_inv : matrix -> option matrix.
Variable lapack_pinv : matrix -> matrix.

(** A bias whose initial precision is not positive stops [fit] in the
    first pass: [math.log] raises on it. *)
Lemma nonpositive_bias_precision_raises K X y tol threshold_alpha m
    sigma_squared :
  norm (col 0 K) ^ 2
  / (norm [dot (col 0 K) y] ^ 2 / norm (col 0 K) ^ 2 - sigma_squared) <= 0 ->
  fit_steps lapack_inv lapack_pinv K X y tol threshold_alpha (S m)
    sigma_squared
  = Raise ValueError.
Proof.
  intros Hneg. unfold fit_steps.
  destruct (initial_state_fields lapack_inv lapack_pinv K y sigma_squared)
    as (st & -> & Ha & _ & Hq).
  cbn [bind fit_loop].
  rewrite (fit_iter_raise_old _ _ K y tol st 0 (seq 1 (length y))).
  - reflexivity.
  - rewrite Hq. now rewrite Nat.add_1_r.
  - rewrite Ha. rewrite Nat.add_1_r. exact Hneg.
Qed.

Lemma centred_fit_from max_iter :
  (1 <= max_iter)%Z ->
  fit_from pairwise_linear lapack_inv lapack_pinv (81 / 40)
    (linear_estimator max_iter) X_drop y_centred
  = Raise ValueError.
Proof.
  intros H. unfold fit_from, fit_with.
  change (check_X_y X_drop y_centred) with (Ok (X_drop, y_centred)).
  cbn [bind].
  change (_get_kernel pairwise_linear (linear_estimator max_iter) X_drop None)
    with (Ok (matmul_T X_drop X_drop) : result matrix).
  cbn [bind]. change (hstack_ones (matmul_T X_drop X_drop)) with K_drop.
  change (bind (getattr (linear_estimator max_iter) "max_iter") as_int)
    with (Ok max_iter : result Z).
  change (bind (getattr (linear_estimator max_iter) "tol") as_float)
    with (Ok 1e-6 : result R).
  change (bind (getattr (linear_estimator max_iter) "threshold_alpha")
            as_float) with (Ok 1e5 : result R).
  cbn [bind].
  destruct (Z.to_nat max_iter) as [|m] eqn:Hm; [lia | ].
  rewrite nonpositive_bias_precision_raises; [reflexivity | ].
  change (col 0 K_drop) with [1; 1]. rewrite !norm_sq.
  unfold y_centred. cbn. lra.
Qed.

(** *** The mask keeps its length *)

Lemma fit_iter_mask_length K y tol st stop st' :
  fit_iter lapack_inv lapack_pinv K y tol st = Ok (stop, st') ->
  length (st_used_cond st') = length (st_used_cond st).
Proof.
  unfold fit_iter.
  destruct (st_queue st) as [|c rest]; [discriminate | ].
  destruct (update_candidate _ _ _ _ c) as [[alpha used_cond] re] eqn:Hu.
  apply update_candidate_lengths in Hu. destruct Hu as [_ Hu].
  destruct (math_log (nth c alpha 0)); [ | discriminate].
  destruct (math_log (nth c (st_alpha st) 0)); [ | discriminate].
  cbn [bind].
  destruct (converged _ _ _ _ _).
  - intros H. injection H as _ <-. exact Hu.
  - destruct (posterior _ _ _ _ _ _ _) as [[[Sigma0 mu0] Phi0] | ];
      [ | discriminate].
    cbn [bind].
    destruct (_calculate_statistics _ _ _ _ _ _ _)
      as [[[[[Sigma1 mu1] s1] q1] Phi1] | ]; [ | discriminate].
    cbn [bind]. intros H. injection H as _ <-. exact Hu.
Qed.

Lemma fit_loop_mask_length K y tol max_iter :
  forall st st',
    fit_loop lapack_inv lapack_pinv K y tol max_iter st = Ok st' ->
    length (st_used_cond st') = length (st_used_cond st).
Proof.
  induction max_iter as [|m IH]; intros st st' H.
  - injection H as <-. reflexivity.
  - cbn [fit_loop] in H.
    destruct (fit_iter lapack_inv lapack_pinv K y tol st)
      as [[stop st1] | ] eqn:Hit; [ | discriminate].
    cbn [bind] in H. apply fit_iter_mask_length in Hit.
    destruct stop.
    + injection H as <-. exact Hit.
    + rewrite (IH _ _ H). exact Hit.
Qed.

(** The number of active bases never exceeds [n_samples + 1]. *)
Lemma active_count_bounded K y tol max_iter sigma_squared st0 st :
  initial_state lapack_inv lapack_pinv K y sigma_squared = Ok st0 ->
  fit_loop lapack_inv lapack_pinv K y tol max_iter st0 = Ok st ->
  (count_true (st_used_cond st) <= length y + 1)%nat.
Proof.
  intros H0 Hl.
  destruct (initial_state_fields lapack_inv lapack_pinv K y sigma_squared)
    as (st1 & E & _ & Hu & _).
  rewrite E in H0. injection H0 as ->.
  apply fit_loop_mask_length in Hl.
  pose proof (count_true_le (st_used_cond st)) as Hle.
  rewrite Hl, Hu, list_set_length, repeat_length in Hle. exact Hle.
Qed.

End Bounds.

(** ** A returned model has the bias *)

Section Shapes.

Variable lapack_inv : matrix -> option matrix.
Variable lapack_pinv : matrix -> matrix.

Hypothesis lapack_inv_rows :
  forall a r, lapack_inv a = Some r -> length r = length a.
Hypothesis lapack_pinv_rows : forall a, length (lapack_pinv a) = length a.

Lemma covariance_rows tmp Sigma :
  covariance lapack_inv lapack_pinv tmp = Ok Sigma ->
  length Sigma = length tmp.
Proof.
  unfold covariance, mrecip, linalg_inv, linalg_pinv.
  destruct (Nat.eqb (length tmp) 1).
  - intros H. injection H as <-. now rewrite length_map.
  - destruct tmp as [|r tmp].
    + intros H. injection H as <-. reflexivity.
    + destruct (lapack_inv (r :: tmp)) as [inverse | ] eqn:Hinv; cbn.
      * intros H. injection H as <-.
        exact (lapack_inv_rows (r :: tmp) inverse Hinv).
      * intros H. injection H as <-.
        exact (lapack_pinv_rows (r :: tmp)).
Qed.

Lemma posterior_mu_length K alpha used_cond y sigma_squared Sigma mu Phi :
  length alpha = length used_cond ->
  posterior lapack_inv lapack_pinv K alpha used_cond y sigma_squared
  = Ok (Sigma, mu, Phi) ->
  length mu = count_true used_cond.
Proof.
  intros Hlen. unfold posterior.
  destruct (covariance lapack_inv lapack_pinv
              (precision_matrix K alpha used_cond sigma_squared))
    as [Sigma0 | ] eqn:Hc; [ | discriminate].
  cbn [bind]. intros H. injection H as _ <- _.
  unfold matvec, matmul, mscale. rewrite !length_map.
  transitivity (length (precision_matrix K alpha used_cond sigma_squared)).
  - exact (covariance_rows _ _ Hc).
  - now apply precision_matrix_length.
Qed.

Lemma statistics_mu_length K alpha used_cond y sigma_squared Sigma mu s q
    Phi :
  length alpha = length used_cond ->
  _calculate_statistics lapack_inv lapack_pinv K alpha used_cond y
    sigma_squared = Ok (Sigma, mu, s, q, Phi) ->
  length mu = count_true used_cond.
Proof.
  intros Hlen. unfold _calculate_statistics.
  destruct (posterior lapack_inv lapack_pinv K alpha used_cond y
              sigma_squared) as [[[Sigma0 mu0] Phi0] | ] eqn:Hp;
    [ | discriminate].
  cbn [bind]. intros H. injection H as _ <- _ _ _.
  now apply (posterior_mu_length _ _ _ _ _ _ _ _ Hlen Hp).
Qed.

Lemma initial_state_consistent K y sigma_squared st :
  initial_state lapack_inv lapack_pinv K y sigma_squared = Ok st ->
  consistent st.
Proof.
  unfold initial_state. cbv zeta.
  match goal with
  | |- context [_calculate_statistics _ _ ?K ?a ?u ?y ?s] =>
      destruct (_calculate_statistics lapack_inv lapack_pinv K a u y s)
        as [[[[[Sigma mu] s0] q0] Phi] | ] eqn:Hst; [ | discriminate];
      assert (Hlen : length a = length u)
        by (rewrite !list_set_length; unfold vscale, ones;
            now rewrite length_map, !repeat_length)
  end.
  cbn [bind]. intros H. injection H as <-. split; cbn.
  - exact Hlen.
  - now apply (statistics_mu_length _ _ _ _ _ _ _ _ _ _ Hlen Hst).
Qed.

Lemma fit_iter_consistent K y tol st stop st' :
  consistent st ->
  fit_iter lapack_inv lapack_pinv K y tol st = Ok (stop, st') ->
  consistent st'.
Proof.
  intros [Ha Hm]. unfold fit_iter.
  destruct (st_queue st) as [|c rest]; [discriminate | ].
  destruct (update_candidate _ _ _ _ c) as [[alpha used_cond] re] eqn:Hu.
  destruct (update_candidate_lengths _ _ _ _ _ _ _ _ Hu) as [Hla Hlu].
  destruct (math_log (nth c alpha 0)); [ | discriminate].
  destruct (math_log (nth c (st_alpha st) 0)); [ | discriminate].
  cbn [bind].
  destruct (converged re _ _ _ _) eqn:Hc.
  - intros H. injection H as _ <-. split; cbn;
      [rewrite Hla, Hlu; exact Ha | ].
    unfold converged in Hc. apply andb_true_iff in Hc.
    destruct Hc as [Hc _]. apply andb_true_iff in Hc. destruct Hc as [-> _].
    destruct (update_candidate_flag _ _ _ _ _ _ _ Hu) as (-> & _). exact Hm.
  - destruct (posterior _ _ _ _ _ _ _) as [[[Sigma0 mu0] Phi0] | ];
      [ | discriminate].
    cbn [bind].
    destruct (_calculate_statistics _ _ _ _ _ _ _)
      as [[[[[Sigma1 mu1] s1] q1] Phi1] | ] eqn:Hst; [ | discriminate].
    assert (Hl : length alpha = length used_cond)
      by (rewrite Hla, Hlu; exact Ha).
    cbn [bind]. intros H. injection H as _ <-. split; cbn; [exact Hl | ].
    apply (statistics_mu_length _ _ _ _ _ _ _ _ _ _ Hl Hst).
Qed.

Lemma fit_loop_consistent K y tol max_iter :
  forall st st',
    consistent st ->
    fit_loop lapack_inv lapack_pinv K y tol max_iter st = Ok st' ->
    consistent st'.
Proof.
  induction max_iter as [|m IH]; intros st st' Hc H.
  - injection H as <-. exact Hc.
  - cbn [fit_loop] in H.
    destruct (fit_iter lapack_inv lapack_pinv K y tol st)
      as [[stop st1] | ] eqn:Hit; [ | discriminate].
    cbn [bind] in H. apply (fit_iter_consistent _ _ _ _ _ _ Hc) in Hit.
    destruct stop.
    + injection H as <-. exact Hit.
    + exact (IH _ _ Hit H).
Qed.

(** Whenever the steps of [fit] return a model, the bias is in the active
    set: a run that ends with the bias deleted raises instead. *)
Lemma fit_steps_returns_with_bias K X y tol threshold_alpha max_iter
    sigma_squared st model :
  fit_steps lapack_inv lapack_pinv K X y tol threshold_alpha max_iter
    sigma_squared = Ok (st, model) ->
  exists rest, st_used_cond st = true :: rest.
Proof.
  unfold fit_steps.
  destruct (initial_state lapack_inv lapack_pinv K y sigma_squared)
    as [st0 | ] eqn:H0; [ | discriminate].
  cbn [bind].
  destruct (fit_loop lapack_inv lapack_pinv K y tol max_iter st0)
    as [st1 | ] eqn:Hl; [ | discriminate].
  cbn [bind].
  destruct (extract_model X threshold_alpha st1) as [model1 | ] eqn:He;
    [ | discriminate].
  cbn [bind]. intros H. injection H as <- <-.
  apply initial_state_consistent in H0.
  destruct (fit_loop_consistent _ _ _ _ _ _ H0 Hl) as [_ Hm].
  destruct (st_used_cond st1) as [|[|] rest] eqn:Hu.
  - exfalso.
    rewrite (extract_model_bias_inactive X threshold_alpha st1) in He;
      [discriminate | now rewrite Hu | now rewrite Hu].
  - eauto.
  - exfalso.
    rewrite (extract_model_bias_inactive X threshold_alpha st1) in He;
      [discriminate | now rewrite Hu | now rewrite Hu].
Qed.

End Shapes.

(** ** The deletion of the bias *)

(** C5.  On [X = [[1], [2]]], [y = [3, -1]] with the linear kernel the pass
    3 deletes the bias, the only active basis, and no later pass adds a
    basis: for every [max_iter >= 4] the loop ends with a mask that is
    entirely false. *)
Theorem bias_deleted_leaves_mask_empty (lapack_inv : matrix -> option matrix)
    (lapack_pinv : matrix -> matrix) (max_iter : nat) :
  (4 <= max_iter)%nat ->
  exists st0 st,
    initial_state lapack_inv lapack_pinv K_drop y_ex (2 / 5) = Ok st0
    /\ fit_loop lapack_inv lapack_pinv K_drop y_ex 1e-6 max_iter st0 = Ok st
    /\ st_used_cond st = [false; false; false]
    /\ count_true (st_used_cond st) = 0%nat.
Proof.
  intros H. destruct (drop_loop lapack_inv lapack_pinv max_iter H)
    as [queue Hq].
  exists drop0, (dropped queue).
  split; [apply drop_initial_state | split; [exact Hq | split; reflexivity]].
Qed.

Lemma bias_deleted_leaves_mask_empty_witness :
  exists st0 st,
    initial_state inv_2x2 pinv_unused K_drop y_ex (2 / 5) = Ok st0
    /\ fit_loop inv_2x2 pinv_unused K_drop y_ex 1e-6 4 st0 = Ok st
    /\ st_used_cond st = [false; false; false]
    /\ count_true (st_used_cond st) = 0%nat.
Proof.
  apply (bias_deleted_leaves_mask_empty inv_2x2 pinv_unused 4). lia.
Defined.

(** C6.  With the bias deleted the selection mask, which always has a slot
    for the bias, is one longer than the posterior mean: on the same input
    [fit] raises [IndexError] instead of extracting a model, for every
    [max_iter >= 4]. *)
Theorem fit_raises_when_bias_deleted (lapack_inv : matrix -> option matrix)
    (lapack_pinv : matrix -> matrix) (max_iter : Z) :
  (4 <= max_iter)%Z ->
  fit_from pairwise_linear lapack_inv lapack_pinv (2 / 5)
    (linear_estimator max_iter) X_drop y_ex
  = Raise IndexError.
Proof. apply drop_fit_from. Qed.

Lemma fit_raises_when_bias_deleted_witness :
  fit_from pairwise_linear inv_2x2 pinv_unused (2 / 5)
    (linear_estimator 5000) X_drop y_ex
  = Raise IndexError.
Proof.
  apply (fit_raises_when_bias_deleted inv_2x2 pinv_unused 5000). lia.
Defined.

(** ** Witnesses and counterexamples *)

Lemma predict_after_fit_raises_NotFitted_witness :
  forallb (hasattr (store_model (linear_estimator 5000) conv_model))
    ["relevance_vectors_"; "mu_"; "Sigma_"]%string = true
  /\ predict pairwise_linear (store_model (linear_estimator 5000) conv_model)
       [[1]] false
     = Raise NotFittedError.
Proof.
  apply (predict_after_fit_raises_NotFitted pairwise_linear inv_2x2
           pinv_unused (2 / 5) (linear_estimator 5000) X_conv y_ex).
  - reflexivity.
  - apply conv_fit_from. lia.
Defined.

Lemma update_candidate_actions_witness :
  nth 0 (fst (fst (update_candidate (st_alpha conv0) (st_used_cond conv0)
                     (st_s conv0) (st_q conv0) 0))) 0
  = 5 ^ 2 / (5 ^ 2 - 5)
  /\ snd (fst (update_candidate (st_alpha conv0) (st_used_cond conv0)
                 (st_s conv0) (st_q conv0) 0))
     = [true; false; false]
  /\ snd (update_candidate (st_alpha conv0) (st_used_cond conv0)
            (st_s conv0) (st_q conv0) 0)
     = true.
Proof.
  apply (update_candidate_actions (st_alpha conv0) (st_used_cond conv0)
           (st_s conv0) (st_q conv0) 0);
    cbn -[INFINITY]; unfold INFINITY; (lia || lra).
Defined.

Lemma loop_stops_iff_converged_witness :
  exists st',
    fit_iter inv_2x2 pinv_unused K_conv y_ex 1e-6 conv0 = Ok (true, st')
    /\ forall m,
         fit_loop inv_2x2 pinv_unused K_conv y_ex 1e-6 (S m) conv0
         = Ok st'.
Proof.
  apply (loop_stops_iff_converged inv_2x2 pinv_unused K_conv y_ex 1e-6
           conv0 0 [1; 2]%nat [5 / 4; INFINITY; INFINITY]
           [true; false; false] true).
  - reflexivity.
  - reflexivity.
  - reflexivity.
  - apply conv_update.
  - cbn. lra.
  - cbn. lra.
  - cbn -[INFINITY]. split; [reflexivity | split; [lra | ]].
    intros i Hi Hm.
    destruct i as [|[|[|i]]]; cbn -[INFINITY] in *;
      try discriminate; try lia; unfold INFINITY; lra.
Defined.

Lemma noise_variance_reestimated_witness :
  st_sigma_squared drop1
  = vsum (vsquare (vsub y_ex (matvec [[1]; [1]] [4 / 5])))
    / (INR (length y_ex) - INR (count_true (st_used_cond drop1))
       + vsum (vmul (compress (st_used_cond drop1) (st_alpha drop1))
                    (diagonal [[4 / 25]]))).
Proof.
  apply (noise_variance_reestimated inv_2x2 pinv_unused K_drop y_ex 1e-6
           drop0 drop1 [[4 / 25]] [4 / 5] [[1]; [1]]).
  - apply drop_pass_0.
  - cbn -[INFINITY]. requal.
  - cbn -[INFINITY]. lra.
Defined.

Lemma covariance_inversion_guarded_witness :
  exists mu Phi,
    posterior inv_2x2 pinv_unused K_conv [5 / 4; INFINITY; INFINITY]
      [true; false; false] y_ex (2 / 5)
    = Ok (mrecip (precision_matrix K_conv [5 / 4; INFINITY; INFINITY]
                    [true; false; false] (2 / 5)), mu, Phi).
Proof.
  apply (proj1 (covariance_inversion_guarded inv_2x2 pinv_unused K_conv
                  [5 / 4; INFINITY; INFINITY] [true; false; false] y_ex
                  (2 / 5) eq_refl)).
  reflexivity.
Defined.

Lemma candidate_precision_positive_unless_witness :
  0 < nth 0 (fst (fst (update_candidate (st_alpha conv0) (st_used_cond conv0)
                         (st_s conv0) (st_q conv0) 0))) 0
  <-> ~ (0 < nth 0 (st_q conv0) 0 ^ 2 - nth 0 (st_s conv0) 0
         /\ nth 0 (st_s conv0) 0 = 0).
Proof.
  apply (candidate_precision_positive_unless inv_2x2 pinv_unused K_conv
           y_ex 1e-6 conv0 0 [1; 2]%nat); cbn; (reflexivity || lia).
Defined.

(** C10.  The logarithms of step 11 are not guarded.  On [X = [[1], [2]]],
    [y = [5, -4]] with the linear kernel and the noise variance
    [0.1 * var(y) = 81/40], the bias starts with the precision
    [2 / (1/2 - 81/40) = -80/61]; the first pass takes [math.log] of it and
    raises the domain error, and so does [fit], for every
    [max_iter >= 1]. *)
Theorem logarithm_raises_on_small_mean (lapack_inv : matrix -> option matrix)
    (lapack_pinv : matrix -> matrix) (max_iter : Z) :
  (1 <= max_iter)%Z ->
  (exists st0,
      initial_state lapack_inv lapack_pinv K_drop y_centred (81 / 40)
      = Ok st0
      /\ st_queue st0 = [0; 1; 2]%nat
      /\ nth 0 (st_alpha st0) 0 = - 80 / 61
      /\ fit_iter lapack_inv lapack_pinv K_drop y_centred 1e-6 st0
         = Raise ValueError)
  /\ fit_from pairwise_linear lapack_inv lapack_pinv (81 / 40)
       (linear_estimator max_iter) X_drop y_centred
     = Raise ValueError.
Proof.
  intros H. split; [ | now apply centred_fit_from].
  destruct (initial_state_fields lapack_inv lapack_pinv K_drop y_centred
              (81 / 40)) as (st0 & E & Ha & _ & Hq).
  assert (Ha0 : nth 0 (st_alpha st0) 0 = - 80 / 61).
  { rewrite Ha. change (col 0 K_drop) with [1; 1]. rewrite !norm_sq.
    unfold y_centred. cbn. field. }
  exists st0. split; [exact E | split; [exact Hq | split; [exact Ha0 | ]]].
  apply fit_iter_raise_old with (c := 0%nat) (rest := [1; 2]%nat).
  - exact Hq.
  - rewrite Ha0. lra.
Qed.

Lemma logarithm_raises_on_small_mean_witness :
  (exists st0,
      initial_state inv_2x2 pinv_unused K_drop y_centred (81 / 40) = Ok st0
      /\ st_queue st0 = [0; 1; 2]%nat
      /\ nth 0 (st_alpha st0) 0 = - 80 / 61
      /\ fit_iter inv_2x2 pinv_unused K_drop y_centred 1e-6 st0
         = Raise ValueError)
  /\ fit_from pairwise_linear inv_2x2 pinv_unused (81 / 40)
       (linear_estimator 5000) X_drop y_centred
     = Raise ValueError.
Proof.
  apply (logarithm_raises_on_small_mean inv_2x2 pinv_unused 5000). lia.
Defined.



(** * Further properties of the regressor

    Properties of [_calculate_statistics], of the loop of [fit], of the
    extraction of the model and of [predict] that the source shows beyond
    the claims above.  The matrix [K] has the shape [fit] gives it
    ([design_shape]); the kernel matrix itself is [M], with
    [K = hstack_ones M]. *)

(** ** Sums, products and the identity matrix *)

Lemma map_const_repeat {A B : Type} (c : B) (l : list A) :
  map (fun _ => c) l = repeat c (length l).
Proof. induction l as [|x l IH]; cbn; [reflexivity | now rewrite IH]. Qed.

Lemma compress_none {A : Type} n (l : list A) :
  compress (repeat false n) l = [].
Proof.
  revert l. induction n as [|n IH]; intros [|x l]; cbn; auto.
Qed.

Lemma count_true_none n : count_true (repeat false n) = 0%nat.
Proof. unfold count_true. induction n as [|n IH]; cbn; auto. Qed.

Lemma vsum_ones n : vsum (ones n) = INR n.
Proof.
  unfold vsum, ones. induction n as [|n IH].
  - reflexivity.
  - cbn [repeat fold_right]. rewrite IH, S_INR. lra.
Qed.

Lemma dot_ones_r v : dot v (ones (length v)) = vsum v.
Proof.
  unfold dot, vmul, vsum, ones.
  induction v as [|x v IH]; cbn [length repeat zip_with fold_right].
  - reflexivity.
  - rewrite IH. lra.
Qed.

Lemma dot_ones_l v : dot (ones (length v)) v = vsum v.
Proof.
  unfold dot, vmul, vsum, ones.
  induction v as [|x v IH]; cbn [length repeat zip_with fold_right].
  - reflexivity.
  - rewrite IH. lra.
Qed.

Lemma dot_vscale_l c u v : dot (vscale c u) v = c * dot u v.
Proof.
  unfold dot, vmul, vsum, vscale. revert v.
  induction u as [|x u IH]; intros [|y v]; cbn [map zip_with fold_right];
    try lra.
  rewrite IH. lra.
Qed.

Lemma dot_map_div a u v :
  dot (map (fun x => x / a) u) v = dot u v / a.
Proof.
  unfold dot, vmul, vsum. revert v.
  induction u as [|x u IH]; intros [|y v]; cbn [map zip_with fold_right];
    unfold Rdiv; try lra.
  rewrite IH. unfold Rdiv. lra.
Qed.

Lemma vsum_map_div a u : vsum (map (fun x => x / a) u) = vsum u / a.
Proof.
  unfold vsum. induction u as [|x u IH]; cbn [map fold_right].
  - unfold Rdiv. lra.
  - rewrite IH. unfold Rdiv. lra.
Qed.

Lemma dot_repeat_l w v : dot (repeat w (length v)) v = w * vsum v.
Proof.
  unfold dot, vmul, vsum.
  induction v as [|y v IH]; cbn [length repeat zip_with fold_right];
    [lra | ].
  rewrite IH. lra.
Qed.

(** [v @ (np.identity(n) / a) = v / a] *)
Lemma dot_unit_column a j v :
  forall s,
    dot v (map (fun i => (if Nat.eqb i j then 1 else 0) / a)
               (seq s (length v)))
    = if (Nat.leb s j && Nat.ltb j (s + length v))%bool
      then nth (j - s) v 0 / a else 0.
Proof.
  unfold dot, vmul, vsum.
  induction v as [|x v IH]; intros s; cbn [length seq map zip_with fold_right].
  - destruct (Nat.leb s j && Nat.ltb j (s + 0))%bool; [ | reflexivity].
    destruct (j - s)%nat; cbn [nth]; unfold Rdiv; lra.
  - rewrite IH.
    destruct (Nat.eqb s j) eqn:E.
    + apply Nat.eqb_eq in E. subst s.
      replace (Nat.leb (S j) j) with false
        by (symmetry; apply Nat.leb_gt; lia).
      replace (Nat.leb j j) with true by (symmetry; apply Nat.leb_refl).
      replace (Nat.ltb j (j + S (length v))) with true
        by (symmetry; apply Nat.ltb_lt; lia).
      rewrite Nat.sub_diag. cbn. unfold Rdiv. lra.
    + apply Nat.eqb_neq in E.
      destruct (Nat.leb (S s) j) eqn:H1.
      * apply Nat.leb_le in H1.
        replace (Nat.leb s j) with true by (symmetry; apply Nat.leb_le; lia).
        replace (s + S (length v))%nat with (S s + length v)%nat by lia.
        destruct (Nat.ltb j (S s + length v)); cbn [andb].
        -- replace (j - s)%nat with (S (j - S s)) by lia. cbn [nth].
           unfold Rdiv. lra.
        -- unfold Rdiv. lra.
      * apply Nat.leb_gt in H1.
        replace (Nat.leb s j) with false
          by (symmetry; apply Nat.leb_gt; lia).
        cbn [andb]. unfold Rdiv. lra.
Qed.

Lemma col_scaled_identity a n j :
  (j < n)%nat ->
  col j (mdiv (identity n) a)
  = map (fun i => (if Nat.eqb i j then 1 else 0) / a) (seq 0 n).
Proof.
  intros Hj. unfold col, mdiv, identity. rewrite !map_map.
  apply map_ext. intros i. rewrite map_map.
  rewrite (nth_map_seq _ n j 0 Hj). reflexivity.
Qed.

Lemma nth_map_div a v j :
  nth j (map (fun x => x / a) v) 0 = nth j v 0 / a.
Proof.
  revert j. induction v as [|x v IH]; intros [|j]; cbn [map nth];
    try (unfold Rdiv; lra); auto.
Qed.

Lemma vecmat_scaled_identity a v :
  vecmat (length v) v (mdiv (identity (length v)) a)
  = map (fun x => x / a) v.
Proof.
  unfold vecmat.
  apply (nth_ext _ _ 0 0).
  - now rewrite !length_map, length_seq.
  - intros j Hj. rewrite length_map, length_seq in Hj.
    rewrite (nth_map_seq _ _ j 0 Hj).
    rewrite (col_scaled_identity a _ j Hj).
    rewrite (dot_unit_column a j v 0%nat).
    replace (Nat.leb 0 j) with true by reflexivity.
    replace (Nat.ltb j (0 + length v)) with true
      by (symmetry; apply Nat.ltb_lt; lia).
    cbn [andb]. rewrite Nat.sub_0_r. now rewrite nth_map_div.
Qed.

(** ** Lists, masks and attributes *)

Lemma rotate_step {A : Type} (l : list A) j c rest :
  (j < length l)%nat ->
  skipn j l ++ firstn j l = c :: rest ->
  exists j', (j' < length l)%nat
             /\ rest ++ [c] = skipn j' l ++ firstn j' l.
Proof.
  intros Hj H.
  destruct (skipn j l) as [|x t] eqn:Hs.
  { apply (f_equal (@length A)) in Hs. rewrite length_skipn in Hs.
    cbn in Hs. lia. }
  cbn [app] in H. injection H as -> <-.
  assert (Hl : l = firstn j l ++ c :: t)
    by (rewrite <- Hs; symmetry; apply firstn_skipn).
  assert (Hf : length (firstn j l) = j) by (apply firstn_length_le; lia).
  assert (Hs1 : skipn (S j) l = t).
  { rewrite Hl at 1. rewrite skipn_app, Hf.
    rewrite (skipn_all2 (firstn j l)) by lia.
    replace (S j - j)%nat with 1%nat by lia. reflexivity. }
  assert (Hf1 : firstn (S j) l = firstn j l ++ [c]).
  { rewrite Hl at 1. rewrite firstn_app, Hf.
    rewrite (firstn_all2 (firstn j l)) by lia.
    replace (S j - j)%nat with 1%nat by lia. reflexivity. }
  destruct (Nat.eq_dec (S j) (length l)) as [E | E].
  - exists 0%nat. split; [lia | ].
    cbn [skipn firstn]. rewrite app_nil_r.
    assert (Ht : t = []) by (rewrite <- Hs1; apply skipn_all2; lia).
    rewrite Ht in Hl |- *. cbn [app]. symmetry. exact Hl.
  - exists (S j). split; [lia | ].
    rewrite Hs1, Hf1, <- app_assoc. reflexivity.
Qed.

Lemma nth_list_set (A : Type) i j (v d : A) l :
  nth j (list_set i v l) d
  = if (Nat.eqb i j && Nat.ltb j (length l))%bool then v else nth j l d.
Proof.
  revert i j. induction l as [|x l IH]; intros [|i] [|j]; cbn; auto.
  now rewrite andb_false_r.
Qed.

Lemma count_true_list_set c b mask :
  (count_true (list_set c b mask) <= count_true mask + 1
   /\ count_true mask <= count_true (list_set c b mask) + 1)%nat.
Proof.
  unfold count_true. revert c.
  induction mask as [|x mask IH]; intros [|c]; cbn [list_set filter length];
    try lia.
  - destruct b, x; cbn [length]; lia.
  - specialize (IH c). destruct x; cbn [length]; lia.
Qed.

Lemma nth_bias_only_mask i n :
  (i < S n)%nat ->
  nth i (true :: repeat false n) true = false <-> (1 <= i)%nat.
Proof.
  intros Hi. destruct i as [|i]; cbn [nth].
  - split; [discriminate | lia].
  - split; [lia | intros _].
    rewrite (nth_indep _ true false) by (rewrite repeat_length; lia).
    apply nth_repeat.
Qed.

Lemma bool_index_inv {A : Type} (a : list A) mask r :
  bool_index a mask = Ok r -> length a = length mask /\ r = compress mask a.
Proof.
  unfold bool_index.
  destruct (Nat.eqb (length a) (length mask)) eqn:E; [ | discriminate].
  intros H. injection H as <-. apply Nat.eqb_eq in E. auto.
Qed.

Lemma count_true_cons b mask :
  count_true (b :: mask) = ((if b then 1 else 0) + count_true mask)%nat.
Proof. unfold count_true. destruct b; reflexivity. Qed.

Lemma getattr_setattr_same est name v :
  getattr (setattr est name v) name = Ok v.
Proof. unfold getattr, setattr. simpl. now rewrite String.eqb_refl. Qed.

Lemma getattr_setattr_other est name name' v :
  String.eqb name' name = false ->
  getattr (setattr est name' v) name = getattr est name.
Proof.
  intros Hne. unfold getattr, setattr. simpl. rewrite Hne.
  now rewrite lookup_filter_other.
Qed.

Lemma getattr_store_model_other est model name :
  String.eqb "relevance_vectors_" name = false ->
  String.eqb "mu_" name = false ->
  String.eqb "Sigma_" name = false ->
  String.eqb "sigma_squared_" name = false ->
  getattr (store_model est model) name = getattr est name.
Proof.
  intros H1 H2 H3 H4. unfold store_model.
  now rewrite !getattr_setattr_other by assumption.
Qed.

Lemma hasattr_getattr est name :
  hasattr est name = false -> getattr est name = Raise AttributeError.
Proof.
  unfold hasattr, getattr. destruct (lookup name est); [discriminate | auto].
Qed.

Lemma forallb_row_lengths (K : matrix) n :
  Forall (fun r => length r = n) K ->
  forallb (fun r => Nat.eqb (length r) n) K = true.
Proof.
  intros H. apply forallb_forall. intros r Hr.
  rewrite Forall_forall in H. apply Nat.eqb_eq. now apply H.
Qed.

Lemma hasattr_store_model_other est model name :
  String.eqb "relevance_vectors_" name = false ->
  String.eqb "mu_" name = false ->
  String.eqb "Sigma_" name = false ->
  String.eqb "sigma_squared_" name = false ->
  hasattr (store_model est model) name = hasattr est name.
Proof.
  intros H1 H2 H3 H4. unfold store_model.
  now rewrite !hasattr_setattr_other by assumption.
Qed.

Lemma filter_fitted_idempotent (est : estimator) :
  filter (fun kv => negb (String.eqb (fst kv) "sigma_squared_"))
    (filter (fun kv => negb (String.eqb (fst kv) "Sigma_"))
       (filter (fun kv => negb (String.eqb (fst kv) "mu_"))
          (filter (fun kv => negb (String.eqb (fst kv) "relevance_vectors_"))
             (filter (fun kv => negb (String.eqb (fst kv) "sigma_squared_"))
                (filter (fun kv => negb (String.eqb (fst kv) "Sigma_"))
                   (filter (fun kv => negb (String.eqb (fst kv) "mu_"))
                      (filter
                         (fun kv =>
                            negb (String.eqb (fst kv) "relevance_vectors_"))
                         est)))))))
  = filter (fun kv => negb (String.eqb (fst kv) "sigma_squared_"))
      (filter (fun kv => negb (String.eqb (fst kv) "Sigma_"))
         (filter (fun kv => negb (String.eqb (fst kv) "mu_"))
            (filter
               (fun kv => negb (String.eqb (fst kv) "relevance_vectors_"))
               est))).
Proof.
  induction est as [|[k v] est IH]; [reflexivity | ].
  cbn [filter fst].
  destruct (String.eqb k "relevance_vectors_") eqn:E1; cbn [negb filter fst];
    [exact IH | ].
  destruct (String.eqb k "mu_") eqn:E2; cbn [negb filter fst]; [exact IH | ].
  destruct (String.eqb k "Sigma_") eqn:E3; cbn [negb filter fst];
    [exact IH | ].
  destruct (String.eqb k "sigma_squared_") eqn:E4; cbn [negb filter fst];
    [exact IH | ].
  rewrite E1. cbn [negb filter fst]. rewrite E2. cbn [negb filter fst].
  rewrite E3. cbn [negb filter fst]. rewrite E4. cbn [negb].
  f_equal. exact IH.
Qed.

Lemma store_model_overwrites est model1 model2 :
  store_model (store_model est model1) model2 = store_model est model2.
Proof.
  unfold store_model, setattr.
  cbn [filter fst String.eqb Ascii.eqb Bool.eqb negb].
  do 4 f_equal. apply filter_fitted_idempotent.
Qed.

Lemma dot_zeros_l v n : dot (repeat 0 n) v = 0.
Proof.
  unfold dot, vmul, vsum. revert v.
  induction n as [|n IH]; intros [|x v]; cbn [repeat zip_with fold_right];
    try reflexivity.
  rewrite IH. lra.
Qed.

Lemma vsub_zeros_r v n :
  length v = n -> vsub v (repeat 0 n) = v.
Proof.
  intros <-. unfold vsub.
  induction v as [|x v IH]; cbn [length repeat zip_with]; [reflexivity | ].
  rewrite IH. f_equal. lra.
Qed.

Lemma select_no_column K n :
  select_cols (repeat false n) K = map (fun _ => []) K.
Proof.
  unfold select_cols. apply map_ext. intros r. apply compress_none.
Qed.

Lemma matvec_no_column (K : matrix) :
  matvec (map (fun _ => []) K) [] = repeat 0 (length K).
Proof.
  unfold matvec. rewrite map_map. cbn. apply map_const_repeat.
Qed.

Lemma vecmat_nil n M : vecmat n [] M = repeat 0 n.
Proof.
  unfold vecmat. transitivity (map (fun _ : nat => 0) (seq 0 n)).
  - apply map_ext. intros j. reflexivity.
  - now rewrite map_const_repeat, length_seq.
Qed.

Lemma vecmat_zeros n m M : vecmat n (repeat 0 m) M = repeat 0 n.
Proof.
  unfold vecmat. transitivity (map (fun _ : nat => 0) (seq 0 n)).
  - apply map_ext. intros j. apply dot_zeros_l.
  - now rewrite map_const_repeat, length_seq.
Qed.

Lemma select_bias_column M n :
  select_cols (true :: repeat false n) (hstack_ones M)
  = map (fun _ => [1]) M.
Proof.
  unfold select_cols, hstack_ones. rewrite map_map.
  apply map_ext. intros r. cbn [compress]. now rewrite compress_none.
Qed.

Lemma col_0_hstack_ones M : col 0 (hstack_ones M) = ones (length M).
Proof.
  unfold col, hstack_ones, ones. rewrite map_map. cbn [nth].
  apply map_const_repeat.
Qed.

Lemma col_0_bias_column (M : matrix) :
  col 0 (map (fun _ => [1]) M) = ones (length M).
Proof.
  unfold col, ones. rewrite map_map. cbn [nth]. apply map_const_repeat.
Qed.

Lemma dot_ones_ones n : dot (ones n) (ones n) = INR n.
Proof.
  rewrite <- (repeat_length 1 n) at 1. fold (ones n).
  now rewrite dot_ones_l, vsum_ones.
Qed.

Lemma dot_ones_len v n : length v = n -> dot v (ones n) = vsum v.
Proof. intros <-. apply dot_ones_r. Qed.

Lemma dot_repeat_len w v n :
  length v = n -> dot (repeat w n) v = w * vsum v.
Proof. intros <-. apply dot_repeat_l. Qed.

Lemma vecmat_scaled_identity_len a v n :
  length v = n ->
  vecmat n v (mdiv (identity n) a) = map (fun x => x / a) v.
Proof. intros <-. apply vecmat_scaled_identity. Qed.

Lemma vecmat_1 v M : vecmat 1 v M = [dot v (col 0 M)].
Proof. reflexivity. Qed.

Lemma vecmat_row_of_ones w n : vecmat n [w] [ones n] = repeat w n.
Proof.
  unfold vecmat. apply (nth_ext _ _ 0 0).
  - now rewrite length_map, length_seq, repeat_length.
  - intros j Hj. rewrite length_map, length_seq in Hj.
    rewrite (nth_map_seq _ _ j 0 Hj).
    rewrite (nth_indep _ 0 w) by (now rewrite repeat_length).
    rewrite nth_repeat.
    unfold col, dot, vmul, vsum, ones. cbn [map zip_with fold_right].
    rewrite (nth_indep _ 0 1) by (now rewrite repeat_length).
    rewrite nth_repeat. lra.
Qed.

Lemma design_shape_hstack M y :
  design_shape (hstack_ones M) y -> length M = length y.
Proof.
  intros [H _]. unfold hstack_ones in H. now rewrite length_map in H.
Qed.

(** ** The statistics with the bias alone, and with no basis *)

Section BiasPosterior.

Variable lapack_inv : matrix -> option matrix.
Variable lapack_pinv : matrix -> matrix.

Lemma single_bias_posterior M a0 rest y sigma_squared :
  length M = length y ->
  posterior lapack_inv lapack_pinv (hstack_ones M) (a0 :: rest)
    (true :: repeat false (length y)) y sigma_squared
  = Ok ([[1 / (a0 + INR (length y) / sigma_squared)]],
        [vsum y / sigma_squared / (a0 + INR (length y) / sigma_squared)],
        map (fun _ => [1]) M).
Proof.
  intros HM. unfold posterior, precision_matrix.
  rewrite select_bias_column.
  change (count_true (true :: repeat false (length y)))
    with (S (count_true (repeat false (length y)))).
  rewrite count_true_none.
  cbn [compress]. rewrite compress_none.
  cbn -[dot ones vscale vecmat col INR].
  rewrite vecmat_1. cbn -[dot ones vscale vecmat col INR].
  rewrite col_0_bias_column, HM.
  rewrite dot_vscale_l, dot_ones_ones.
  replace (a0 + 1 / sigma_squared * INR (length y))
    with (a0 + INR (length y) / sigma_squared) by (unfold Rdiv; ring).
  cbn [vscale map].
  rewrite vecmat_row_of_ones, dot_repeat_l.
  match goal with
  | |- Ok (_, [?x], _) = Ok (_, [?z], _) =>
      replace x with z by (unfold Rdiv; ring)
  end.
  reflexivity.
Qed.

(** The factors of any candidate while the bias alone is active (the
    Woodbury step of [_calculate_statistics] written out). *)
Lemma single_bias_factors M y sigma_squared g i :
  length M = length y ->
  let b := col i (hstack_ones M) in
  let w := vsum b / sigma_squared * g in
  quality_sparsity (hstack_ones M) (map (fun _ => [1]) M) [[g]] 1 y
    sigma_squared i
  = (dot b y / sigma_squared - w * vsum y / sigma_squared,
     dot b b / sigma_squared - w * vsum b / sigma_squared).
Proof.
  intros HM b w.
  assert (Hb : length b = length y).
  { unfold b, col, hstack_ones. rewrite !length_map. exact HM. }
  unfold quality_sparsity. fold b. cbv zeta.
  rewrite (vecmat_scaled_identity_len _ b _ Hb).
  rewrite (vecmat_1 _ (map (fun _ => [1]) M)), col_0_bias_column.
  rewrite dot_ones_len by (rewrite length_map; lia).
  rewrite vsum_map_div.
  rewrite (vecmat_1 _ [[g]]).
  unfold transpose. cbn [seq map]. rewrite col_0_bias_column.
  replace (dot [vsum b / sigma_squared] (col 0 [[g]])) with w
    by (unfold w, col, dot, vmul, vsum; cbn; lra).
  rewrite HM, vecmat_row_of_ones.
  rewrite vecmat_scaled_identity_len by apply repeat_length.
  rewrite !dot_map_div.
  rewrite (dot_repeat_len w y) by reflexivity.
  rewrite (dot_repeat_len w b) by exact Hb.
  reflexivity.
Qed.

End BiasPosterior.

Section BiasFactors.

Variable lapack_inv : matrix -> option matrix.
Variable lapack_pinv : matrix -> matrix.

Lemma statistics_lengths K alpha used_cond y sigma_squared Sigma mu s q Phi :
  _calculate_statistics lapack_inv lapack_pinv K alpha used_cond y
    sigma_squared = Ok (Sigma, mu, s, q, Phi) ->
  length s = Nat.min (length alpha) (length y + 1)
  /\ length q = Nat.min (length alpha) (length y + 1).
Proof.
  unfold _calculate_statistics.
  destruct (posterior _ _ _ _ _ _ _) as [[[Sigma0 mu0] Phi0] | ];
    [ | discriminate].
  cbn [bind]. intros H. injection H as _ _ <- <- _.
  unfold vdiv, vmul, vsub.
  rewrite !zip_with_length, !length_map, length_seq. lia.
Qed.

Lemma single_bias_leave_one_out M a0 rest y sigma_squared Sigma mu s q Phi :
  length M = length y ->
  sigma_squared <> 0 -> a0 <> 0 ->
  a0 + INR (length y) / sigma_squared <> 0 ->
  _calculate_statistics lapack_inv lapack_pinv (hstack_ones M) (a0 :: rest)
    (true :: repeat false (length y)) y sigma_squared
  = Ok (Sigma, mu, s, q, Phi) ->
  nth 0 s 0 = INR (length y) / sigma_squared
  /\ nth 0 q 0 = vsum y / sigma_squared.
Proof.
  intros HM Hs Ha Hd Hst.
  unfold _calculate_statistics in Hst.
  rewrite (single_bias_posterior _ _ M a0 rest y sigma_squared HM) in Hst.
  cbn [bind] in Hst. injection Hst as _ _ <- <- _.
  change (count_true (true :: repeat false (length y)))
    with (S (count_true (repeat false (length y)))).
  rewrite count_true_none, Nat.add_1_r.
  cbn [seq map]. rewrite (single_bias_factors M y sigma_squared _ 0%nat HM).
  cbv zeta. rewrite col_0_hstack_ones, HM.
  rewrite dot_ones_ones, dot_ones_l, vsum_ones.
  unfold vdiv, vmul, vsub. cbn [fst snd zip_with nth].
  assert (Hd' : a0 * sigma_squared + INR (length y) <> 0).
  { intros E. apply Hd.
    replace (a0 + INR (length y) / sigma_squared)
      with ((a0 * sigma_squared + INR (length y)) / sigma_squared)
      by (field; assumption).
    rewrite E. unfold Rdiv. ring. }
  assert (Hn : forall n,
             a0 * ((a0 * sigma_squared + n) * sigma_squared)
             - (n * (a0 * sigma_squared + n) - n * n) <> 0).
  { intros n.
    replace (a0 * ((a0 * sigma_squared + n) * sigma_squared)
             - (n * (a0 * sigma_squared + n) - n * n))
      with (a0 * a0 * sigma_squared * sigma_squared) by ring.
    repeat apply Rmult_integral_contrapositive_currified; assumption. }
  split; field; repeat split; try assumption; apply Hn.
Qed.

Lemma initial_state_bias_only M y sigma_squared st :
  length M = length y ->
  initial_state lapack_inv lapack_pinv (hstack_ones M) y sigma_squared
  = Ok st ->
  let a0 := INR (length y) / (vsum y ^ 2 / INR (length y) - sigma_squared) in
  st_alpha st = a0 :: vscale INFINITY (ones (length y))
  /\ st_used_cond st = true :: repeat false (length y)
  /\ st_queue st = seq 0 (length y + 1)
  /\ st_sigma_squared st = sigma_squared
  /\ _calculate_statistics lapack_inv lapack_pinv (hstack_ones M)
       (st_alpha st) (st_used_cond st) y sigma_squared
     = Ok (st_Sigma st, st_mu st, st_s st, st_q st, st_Phi st).
Proof.
  intros HM Hst a0.
  unfold initial_state in Hst. cbv zeta in Hst.
  rewrite col_0_hstack_ones, HM in Hst.
  rewrite !norm_sq, dot_ones_ones, dot_ones_l in Hst.
  replace (dot [vsum y] [vsum y]) with (vsum y ^ 2) in Hst
    by (unfold dot, vmul, vsum; cbn; lra).
  fold a0 in Hst.
  rewrite Nat.add_1_r in Hst.
  cbn [ones repeat vscale map list_set] in Hst.
  destruct (_calculate_statistics _ _ _ _ _ _ _)
    as [[[[[Sigma mu] s] q] Phi] | ] eqn:E; [ | discriminate].
  cbn [bind] in Hst. injection Hst as <-.
  cbn [st_alpha st_used_cond st_queue st_sigma_squared st_Sigma st_mu st_s
       st_q st_Phi].
  rewrite Nat.add_1_r.
  repeat split; try reflexivity. exact E.
Qed.

(** X1.  While the bias alone is active, [_calculate_statistics] returns
    the scalar posterior [Sigma = 1 / (alpha_0 + n / sigma^2)] and
    [mu = (sum y / sigma^2) Sigma], and for the candidate [i] with column [b]
    the factors [Q = (b.y - sum b * sum y * Sigma / sigma^2) / sigma^2] and
    [S = (b.b - (sum b)^2 * Sigma / sigma^2) / sigma^2]. *)
Theorem single_bias_statistics (M : matrix) (a0 : R) (rest y : vec)
    (sigma_squared : R) (Sigma : matrix) (mu s q : vec) (Phi : matrix)
    (i : nat) :
  design_shape (hstack_ones M) y ->
  length rest = length y ->
  (i <= length y)%nat ->
  sigma_squared <> 0 ->
  a0 + INR (length y) / sigma_squared <> 0 ->
  _calculate_statistics lapack_inv lapack_pinv (hstack_ones M) (a0 :: rest)
    (true :: repeat false (length y)) y sigma_squared
  = Ok (Sigma, mu, s, q, Phi) ->
  let g := 1 / (a0 + INR (length y) / sigma_squared) in
  let b := col i (hstack_ones M) in
  Sigma = [[g]]
  /\ mu = [vsum y / sigma_squared * g]
  /\ quality_sparsity (hstack_ones M) Phi Sigma 1 y sigma_squared i
     = ((dot b y - vsum b * vsum y * g / sigma_squared) / sigma_squared,
        (dot b b - vsum b ^ 2 * g / sigma_squared) / sigma_squared).
Proof.
  intros HK _ _ _ _ Hst g b.
  pose proof (design_shape_hstack M y HK) as HM.
  unfold _calculate_statistics in Hst.
  rewrite (single_bias_posterior lapack_inv lapack_pinv M a0 rest y
             sigma_squared HM) in Hst.
  cbn [bind] in Hst. injection Hst as <- <- _ _ <-.
  fold g. split; [reflexivity | split].
  - f_equal. unfold g, Rdiv. ring.
  - rewrite (single_bias_factors M y sigma_squared g i HM). fold b.
    f_equal; unfold g, Rdiv; ring.
Qed.

End BiasFactors.

Section NoActiveBasis.

Variable lapack_inv : matrix -> option matrix.
Variable lapack_pinv : matrix -> matrix.

(** X2.  With no active basis the posterior is empty ([Sigma] and [mu]
    have no entry, [Phi] no column), the noise level of step 9 is the mean
    of the squared targets, and the factors of the candidate [i] with column
    [b] are [Q = b.y / sigma^2] and [S = b.b / sigma^2]. *)
Theorem no_active_basis_statistics (K : matrix) (alpha y : vec)
    (sigma_squared : R) (i : nat) :
  design_shape K y ->
  length alpha = (length y + 1)%nat ->
  (1 <= length y)%nat ->
  sigma_squared <> 0 ->
  (i <= length y)%nat ->
  let m := (length y + 1)%nat in
  let Phi := map (fun _ => []) K in
  let b := col i K in
  posterior lapack_inv lapack_pinv K alpha (repeat false m) y sigma_squared
  = Ok ([], [], Phi)
  /\ noise_level y alpha (repeat false m) [] [] Phi
     = dot y y / INR (length y)
  /\ quality_sparsity K Phi [] 0 y sigma_squared i
     = (dot b y / sigma_squared, dot b b / sigma_squared).
Proof.
  intros [HK _] _ _ _ _ m Phi b. split; [ | split].
  - unfold posterior, precision_matrix.
    rewrite select_no_column, count_true_none, compress_none.
    reflexivity.
  - unfold noise_level, Phi.
    rewrite matvec_no_column, (vsub_zeros_r y _ (eq_sym HK)).
    rewrite norm_sq, count_true_none, compress_none.
    cbn [vmul zip_with vsum fold_right INR]. f_equal. ring.
  - assert (Hb : length b = length y)
      by (unfold b, col; rewrite length_map; exact HK).
    unfold quality_sparsity. fold b. cbv zeta.
    rewrite (vecmat_scaled_identity_len _ b _ Hb).
    change (vecmat 0 (map (fun x => x / sigma_squared) b) Phi)
      with (@nil R).
    change (vecmat 0 [] []) with (@nil R).
    rewrite vecmat_nil, vecmat_zeros, !dot_zeros_l, !dot_map_div.
    f_equal; ring.
Qed.

End NoActiveBasis.

(** ** Shapes of the statistics *)

Lemma inv_2x2_rows a r : inv_2x2 a = Some r -> length r = length a.
Proof.
  unfold inv_2x2.
  destruct a as [|[|a11 [|a12 [|? ?]]] [|[|a21 [|a22 [|? ?]]] [|? ?]]];
    try discriminate.
  destruct (Req_dec_T _ 0); [discriminate | ].
  intros H. injection H as <-. reflexivity.
Qed.

Section StatisticsShapes.

Variable lapack_inv : matrix -> option matrix.
Variable lapack_pinv : matrix -> matrix.

Hypothesis lapack_inv_rows :
  forall a r, lapack_inv a = Some r -> length r = length a.
Hypothesis lapack_pinv_rows : forall a, length (lapack_pinv a) = length a.

(** X3.  [_calculate_statistics] returns [s] and [q] with an entry for
    each candidate, [mu] with an entry and [Sigma] with a row for each
    active basis, and [Phi] with a row for each sample, when the inverse
    and the pseudo-inverse keep the number of rows. *)
Theorem statistics_shapes (K : matrix) (alpha : vec) (used_cond : list bool)
    (y : vec) (sigma_squared : R) (Sigma : matrix) (mu s q : vec)
    (Phi : matrix) :
  design_shape K y ->
  length alpha = (length y + 1)%nat ->
  length used_cond = (length y + 1)%nat ->
  _calculate_statistics lapack_inv lapack_pinv K alpha used_cond y
    sigma_squared = Ok (Sigma, mu, s, q, Phi) ->
  length s = (length y + 1)%nat
  /\ length q = (length y + 1)%nat
  /\ length mu = count_true used_cond
  /\ length Sigma = count_true used_cond
  /\ length Phi = length K.
Proof.
  intros _ Ha Hu Hst.
  assert (Hlen : length alpha = length used_cond) by lia.
  destruct (statistics_lengths _ _ _ _ _ _ _ _ _ _ _ _ Hst) as [Hs Hq].
  rewrite Ha, Nat.min_id in Hs, Hq.
  split; [exact Hs | split; [exact Hq | ]].
  split.
  { exact (statistics_mu_length lapack_inv lapack_pinv lapack_inv_rows
             lapack_pinv_rows _ _ _ _ _ _ _ _ _ _ Hlen Hst). }
  unfold _calculate_statistics, posterior in Hst.
  destruct (covariance lapack_inv lapack_pinv
              (precision_matrix K alpha used_cond sigma_squared))
    as [Sigma0 | ] eqn:Hc; [ | discriminate].
  cbn [bind] in Hst. injection Hst as <- _ _ _ <-.
  split.
  - transitivity (length (precision_matrix K alpha used_cond sigma_squared)).
    + exact (covariance_rows lapack_inv lapack_pinv lapack_inv_rows
               lapack_pinv_rows _ _ Hc).
    + now apply precision_matrix_length.
  - unfold select_cols. now rewrite length_map.
Qed.

End StatisticsShapes.

(** ** The first pass *)

Section FirstPass.

Variable lapack_inv : matrix -> option matrix.
Variable lapack_pinv : matrix -> matrix.

Lemma initial_bias_precision_pos (y : vec) sigma_squared :
  (1 <= length y)%nat -> 0 < sigma_squared ->
  INR (length y) * sigma_squared < vsum y ^ 2 ->
  0 < INR (length y) / (vsum y ^ 2 / INR (length y) - sigma_squared).
Proof.
  intros Hn Hs Hy.
  assert (Hp : 0 < INR (length y)) by (apply lt_0_INR; lia).
  apply Rdiv_lt_0_compat; [exact Hp | ].
  apply Rlt_0_minus.
  apply (Rmult_lt_reg_r (INR (length y))); [exact Hp | ].
  replace (vsum y ^ 2 / INR (length y) * INR (length y)) with (vsum y ^ 2)
    by (field; lra).
  lra.
Qed.

(** The first pass re-estimates the bias to the value it already has, and
    when it ends the loop. *)
Lemma first_pass_outcome (M : matrix) (y : vec)
    (sigma_squared tol : R) (st0 : loop_state) :
  length M = length y ->
  (1 <= length y)%nat ->
  0 < sigma_squared ->
  INR (length y) * sigma_squared < vsum y ^ 2 ->
  initial_state lapack_inv lapack_pinv (hstack_ones M) y sigma_squared
  = Ok st0 ->
  nth 0 (st_s st0) 0 = INR (length y) / sigma_squared
  /\ nth 0 (st_q st0) 0 = vsum y / sigma_squared
  /\ exists stop st1,
       fit_iter lapack_inv lapack_pinv (hstack_ones M) y tol st0
       = Ok (stop, st1)
       /\ st_alpha st1 = st_alpha st0
       /\ st_used_cond st1 = st_used_cond st0
       /\ (stop = true <->
           nth 0 (st_alpha st0) 0 < INFINITY /\ 0 < tol
           /\ forall i, (1 <= i <= length y)%nat ->
                        nth i (st_q st0) 0 ^ 2 <= nth i (st_s st0) 0).
Proof.
  intros HM Hn Hs Hy H0.
  destruct (initial_state_bias_only _ _ M y sigma_squared st0 HM H0)
    as (Ha & Hu & Hq & Hss & Hst).
  pose proof (initial_bias_precision_pos y sigma_squared Hn Hs Hy) as Hpos.
  set (a0 := INR (length y) / (vsum y ^ 2 / INR (length y) - sigma_squared))
    in *.
  assert (Hp : 0 < INR (length y)) by (apply lt_0_INR; lia).
  assert (Hd : a0 + INR (length y) / sigma_squared <> 0).
  { assert (0 < INR (length y) / sigma_squared)
      by (apply Rdiv_lt_0_compat; assumption).
    lra. }
  destruct (statistics_lengths _ _ _ _ _ _ _ _ _ _ _ _ Hst) as [Hls Hlq].
  rewrite Ha in Hls, Hlq. cbn [length] in Hls, Hlq.
  unfold vscale, ones in Hls, Hlq.
  rewrite length_map, repeat_length in Hls, Hlq.
  rewrite Nat.add_1_r, Nat.min_id in Hls, Hlq.
  pose proof Hst as Hst'. rewrite Ha, Hu in Hst'.
  destruct (single_bias_leave_one_out _ _ M a0 _ y sigma_squared _ _ _ _ _
              HM (Rgt_not_eq _ _ Hs) (Rgt_not_eq _ _ Hpos) Hd Hst')
    as [Hs0 Hq0].
  split; [exact Hs0 | split; [exact Hq0 | ]].
  assert (Hth : 0 < nth 0 (st_q st0) 0 ^ 2 - nth 0 (st_s st0) 0).
  { rewrite Hs0, Hq0.
    replace ((vsum y / sigma_squared) ^ 2 - INR (length y) / sigma_squared)
      with ((vsum y ^ 2 - INR (length y) * sigma_squared)
            / (sigma_squared * sigma_squared)) by (field; lra).
    apply Rdiv_lt_0_compat; nra. }
  assert (Hnew : nth 0 (st_s st0) 0 ^ 2
                 / (nth 0 (st_q st0) 0 ^ 2 - nth 0 (st_s st0) 0) = a0).
  { rewrite Hs0, Hq0. unfold a0. field.
    repeat split; try lra. }
  assert (Hth0 : 0 < nth 0 (vsub (vsquare (st_q st0)) (st_s st0)) 0).
  { rewrite nth_theta by lia. exact Hth. }
  assert (Hupd : exists re,
             update_candidate (st_alpha st0) (st_used_cond st0) (st_s st0)
               (st_q st0) 0 = (st_alpha st0, st_used_cond st0, re)
             /\ (re = true <-> nth 0 (st_alpha st0) 0 < INFINITY)).
  { destruct (Rlt_dec (nth 0 (st_alpha st0) 0) INFINITY) as [Hlt | Hge].
    - exists true. split; [ | tauto].
      rewrite update_candidate_reestimate by assumption.
      rewrite Hnew, Ha. reflexivity.
    - exists false. split; [ | split; [discriminate | contradiction]].
      rewrite update_candidate_add by (assumption || lra).
      rewrite Hnew, Ha, Hu. reflexivity. }
  destruct Hupd as (re & Hupd & Hre).
  assert (Ha0 : 0 < nth 0 (st_alpha st0) 0) by (rewrite Ha; exact Hpos).
  assert (Hqueue : st_queue st0 = 0%nat :: seq 1 (length y))
    by (rewrite Hq, Nat.add_1_r; reflexivity).
  assert (Hlen : length (vsub (vsquare (st_q st0)) (st_s st0))
                 = length (st_used_cond st0)).
  { apply theta_length; rewrite Hu; cbn [length]; rewrite repeat_length;
      assumption. }
  assert (Hstop :
    converged re (ln (nth 0 (st_alpha st0) 0) - ln (nth 0 (st_alpha st0) 0))
      tol (vsub (vsquare (st_q st0)) (st_s st0)) (st_used_cond st0) = true
    <-> nth 0 (st_alpha st0) 0 < INFINITY /\ 0 < tol
        /\ forall i, (1 <= i <= length y)%nat ->
                     nth i (st_q st0) 0 ^ 2 <= nth i (st_s st0) 0).
  { rewrite (converged_true_iff _ _ _ _ _ Hlen).
    rewrite Rminus_diag, Hre, Hu. cbn [length]. rewrite repeat_length.
    split; intros (H1 & H2 & H3); (split; [exact H1 | split; [exact H2 | ]]);
      intros i Hi.
    - assert (Hi' : (i < S (length y))%nat) by lia.
      specialize (H3 i Hi' (proj2 (nth_bias_only_mask i _ Hi') (proj1 Hi))).
      rewrite nth_theta in H3 by lia. lra.
    - intros Hm. apply (nth_bias_only_mask i _ Hi) in Hm.
      rewrite nth_theta by lia.
      assert (nth i (st_q st0) 0 ^ 2 <= nth i (st_s st0) 0)
        by (apply H3; lia).
      lra. }
  destruct (converged re _ tol _ (st_used_cond st0)) eqn:Hc.
  - eexists true, _. split; [ | split; [ | split]].
    + eapply fit_iter_break; eauto.
    + reflexivity.
    + reflexivity.
    + split; [intros _; apply Hstop; reflexivity | reflexivity].
  - destruct (posterior_total lapack_inv lapack_pinv (hstack_ones M)
                (st_alpha st0) (st_used_cond st0) y (st_sigma_squared st0))
      as (Sigma0 & mu0 & Phi0 & Hp0).
    destruct (_calculate_statistics_total lapack_inv lapack_pinv
                (hstack_ones M) (st_alpha st0) (st_used_cond st0) y
                (noise_level y (st_alpha st0) (st_used_cond st0) Sigma0 mu0
                   Phi0))
      as (Sigma & mu & s & q & Phi & Hst1).
    eexists false, _. split; [ | split; [ | split]].
    + eapply fit_iter_continue; eauto.
    + reflexivity.
    + reflexivity.
    + split; [discriminate | ].
      intros H. apply Hstop in H. discriminate.
Qed.

(** X4.  From the initial state the factors of the bias are
    [s[0] = n / sigma^2] and [q[0] = sum y / sigma^2], and the first pass
    re-estimates the bias to the precision it already has: the pass returns
    with the precisions and the mask unchanged. *)
Theorem first_pass_keeps_bias (M : matrix) (y : vec)
    (sigma_squared tol : R) (st0 : loop_state) :
  design_shape (hstack_ones M) y ->
  (1 <= length y)%nat ->
  0 < sigma_squared ->
  INR (length y) * sigma_squared < vsum y ^ 2 ->
  initial_state lapack_inv lapack_pinv (hstack_ones M) y sigma_squared
  = Ok st0 ->
  nth 0 (st_s st0) 0 = INR (length y) / sigma_squared
  /\ nth 0 (st_q st0) 0 = vsum y / sigma_squared
  /\ exists stop st1,
       fit_iter lapack_inv lapack_pinv (hstack_ones M) y tol st0
       = Ok (stop, st1)
       /\ st_alpha st1 = st_alpha st0
       /\ st_used_cond st1 = st_used_cond st0.
Proof.
  intros HK Hn Hs Hy H0.
  pose proof (design_shape_hstack M y HK) as HM.
  destruct (first_pass_outcome M y sigma_squared tol st0 HM Hn Hs Hy H0)
    as (Hs0 & Hq0 & stop & st1 & Hit & Ha & Hu & _).
  split; [exact Hs0 | split; [exact Hq0 | ]].
  exists stop, st1. auto.
Qed.

End FirstPass.

(** ** Invariants of the loop *)

Section Passes.

Variable lapack_inv : matrix -> option matrix.
Variable lapack_pinv : matrix -> matrix.

Lemma fit_loop_invariant (P : loop_state -> Prop) K y tol :
  (forall st stop st',
      P st -> fit_iter lapack_inv lapack_pinv K y tol st = Ok (stop, st') ->
      P st') ->
  forall max_iter st st',
    P st -> fit_loop lapack_inv lapack_pinv K y tol max_iter st = Ok st' ->
    P st'.
Proof.
  intros Hstep max_iter.
  induction max_iter as [|m IH]; intros st st' HP H.
  - injection H as <-. exact HP.
  - cbn [fit_loop] in H.
    destruct (fit_iter lapack_inv lapack_pinv K y tol st)
      as [[stop st1] | ] eqn:Hit; [ | discriminate].
    cbn [bind] in H. apply (Hstep _ _ _ HP) in Hit.
    destruct stop.
    + injection H as <-. exact Hit.
    + exact (IH _ _ Hit H).
Qed.

(** What one pass does to the state, whichever way it ends. *)
Lemma fit_iter_inversion K y tol st stop st' :
  fit_iter lapack_inv lapack_pinv K y tol st = Ok (stop, st') ->
  exists c rest re,
    st_queue st = c :: rest
    /\ st_queue st' = rest ++ [c]
    /\ update_candidate (st_alpha st) (st_used_cond st) (st_s st) (st_q st) c
       = (st_alpha st', st_used_cond st', re)
    /\ 0 < nth c (st_alpha st') 0
    /\ 0 < nth c (st_alpha st) 0
    /\ ((stop = true /\ st_s st' = st_s st /\ st_q st' = st_q st
         /\ st_mu st' = st_mu st /\ st_Sigma st' = st_Sigma st
         /\ st_sigma_squared st' = st_sigma_squared st)
        \/ (stop = false
            /\ _calculate_statistics lapack_inv lapack_pinv K (st_alpha st')
                 (st_used_cond st') y (st_sigma_squared st')
               = Ok (st_Sigma st', st_mu st', st_s st', st_q st',
                     st_Phi st'))).
Proof.
  unfold fit_iter.
  destruct (st_queue st) as [|c rest]; [discriminate | ].
  destruct (update_candidate _ _ _ _ c) as [[alpha used_cond] re] eqn:Hu.
  unfold math_log.
  destruct (Rlt_dec 0 (nth c alpha 0)) as [Hn | ]; [ | discriminate].
  destruct (Rlt_dec 0 (nth c (st_alpha st) 0)) as [Ho | ]; [ | discriminate].
  cbn [bind].
  destruct (converged _ _ _ _ _).
  - intros H. injection H as <- <-. exists c, rest, re. cbn.
    repeat split; auto. left. repeat split; reflexivity.
  - destruct (posterior _ _ _ _ _ _ _) as [[[Sigma0 mu0] Phi0] | ];
      [ | discriminate].
    cbn [bind].
    destruct (_calculate_statistics _ _ _ _ _ _ _)
      as [[[[[Sigma1 mu1] s1] q1] Phi1] | ] eqn:Hst; [ | discriminate].
    cbn [bind]. intros H. injection H as <- <-. exists c, rest, re. cbn.
    repeat split; auto.
Qed.

End Passes.

Lemma update_candidate_sentinel alpha used_cond s q c alpha' used_cond' re :
  length alpha = length used_cond ->
  (forall i, nth i used_cond true = false -> nth i alpha 0 = INFINITY) ->
  update_candidate alpha used_cond s q c = (alpha', used_cond', re) ->
  forall i, nth i used_cond' true = false -> nth i alpha' 0 = INFINITY.
Proof.
  intros Hlen Hinv Hu i.
  destruct (Rlt_dec 0 (nth c (vsub (vsquare q) s) 0)) as [Ht | Ht];
    destruct (Rlt_dec (nth c alpha 0) INFINITY) as [Ha | Ha].
  - rewrite update_candidate_reestimate in Hu by assumption.
    injection Hu as <- <- <-. intros Hi.
    rewrite nth_list_set.
    destruct (Nat.eqb c i && Nat.ltb i (length alpha))%bool eqn:E;
      [ | now apply Hinv].
    apply andb_true_iff in E. destruct E as [E _].
    apply Nat.eqb_eq in E. subst i.
    specialize (Hinv c Hi). lra.
  - rewrite update_candidate_add in Hu by (assumption || lra).
    injection Hu as <- <- <-. rewrite !nth_list_set, Hlen.
    destruct (Nat.eqb c i && Nat.ltb i (length used_cond))%bool;
      [discriminate | apply Hinv].
  - rewrite update_candidate_delete in Hu by (assumption || lra).
    injection Hu as <- <- <-. rewrite !nth_list_set, Hlen.
    destruct (Nat.eqb c i && Nat.ltb i (length used_cond))%bool;
      [reflexivity | apply Hinv].
  - rewrite update_candidate_noop in Hu by lra.
    injection Hu as <- <- <-. apply Hinv.
Qed.

Lemma update_candidate_other alpha used_cond s q c alpha' used_cond' re i :
  update_candidate alpha used_cond s q c = (alpha', used_cond', re) ->
  i <> c ->
  nth i alpha' 0 = nth i alpha 0
  /\ nth i used_cond' false = nth i used_cond false.
Proof.
  unfold update_candidate. intros H Hi.
  repeat match type of H with
         | (if ?b then _ else _) = _ => destruct b
         end;
    injection H as <- <- <-;
    rewrite ?nth_list_set_neq by auto; auto.
Qed.

Section Invariants.

Variable lapack_inv : matrix -> option matrix.
Variable lapack_pinv : matrix -> matrix.

Lemma initial_state_lengths K y sigma_squared st :
  initial_state lapack_inv lapack_pinv K y sigma_squared = Ok st ->
  length (st_alpha st) = (length y + 1)%nat
  /\ length (st_used_cond st) = (length y + 1)%nat
  /\ length (st_s st) = (length y + 1)%nat
  /\ length (st_q st) = (length y + 1)%nat
  /\ st_queue st = seq 0 (length y + 1).
Proof.
  unfold initial_state. cbv zeta.
  match goal with
  | |- context [_calculate_statistics _ _ ?K ?a ?u ?y ?s] =>
      destruct (_calculate_statistics lapack_inv lapack_pinv K a u y s)
        as [[[[[Sigma mu] s0] q0] Phi] | ] eqn:Hst; [ | discriminate];
      assert (Hlen : length a = (length y + 1)%nat)
        by (rewrite !list_set_length; unfold vscale, ones;
            now rewrite length_map, !repeat_length)
  end.
  cbn [bind]. intros H. injection H as <-.
  cbn [st_alpha st_used_cond st_s st_q st_queue].
  destruct (statistics_lengths _ _ _ _ _ _ _ _ _ _ _ _ Hst) as [Hs Hq].
  rewrite Hlen, Nat.min_id in Hs, Hq.
  repeat split; auto.
  rewrite Nat.add_1_r. cbn [repeat length]. now rewrite repeat_length.
Qed.

Lemma fit_iter_lengths K y tol st stop st' :
  length (st_alpha st) = (length y + 1)%nat
  /\ length (st_used_cond st) = (length y + 1)%nat
  /\ length (st_s st) = (length y + 1)%nat
  /\ length (st_q st) = (length y + 1)%nat ->
  fit_iter lapack_inv lapack_pinv K y tol st = Ok (stop, st') ->
  length (st_alpha st') = (length y + 1)%nat
  /\ length (st_used_cond st') = (length y + 1)%nat
  /\ length (st_s st') = (length y + 1)%nat
  /\ length (st_q st') = (length y + 1)%nat.
Proof.
  intros (Ha & Hu & Hs & Hq) Hit.
  destruct (fit_iter_inversion _ _ _ _ _ _ _ _ Hit)
    as (c & rest & re & _ & _ & Hupd & _ & _ & Hend).
  destruct (update_candidate_lengths _ _ _ _ _ _ _ _ Hupd) as [Hla Hlu].
  rewrite Ha in Hla. rewrite Hu in Hlu.
  destruct Hend as [(_ & Es & Eq & _) | (_ & Hst)].
  - rewrite Es, Eq. auto.
  - destruct (statistics_lengths _ _ _ _ _ _ _ _ _ _ _ _ Hst) as [Hs' Hq'].
    rewrite Hla, Nat.min_id in Hs', Hq'. auto.
Qed.

Lemma fit_iter_rotates K y tol st stop st' (l : list nat) :
  (exists j, (j < length l)%nat
             /\ st_queue st = skipn j l ++ firstn j l) ->
  fit_iter lapack_inv lapack_pinv K y tol st = Ok (stop, st') ->
  exists j, (j < length l)%nat
            /\ st_queue st' = skipn j l ++ firstn j l.
Proof.
  intros (j & Hj & Hq) Hit.
  destruct (fit_iter_inversion _ _ _ _ _ _ _ _ Hit)
    as (c & rest & re & Hq0 & Hq1 & _).
  rewrite Hq0 in Hq. symmetry in Hq.
  destruct (rotate_step l j c rest Hj Hq) as (j' & Hj' & E).
  exists j'. split; [exact Hj' | now rewrite Hq1].
Qed.

Lemma fit_iter_sentinel K y tol st stop st' :
  length (st_alpha st) = length (st_used_cond st)
  /\ (forall i, nth i (st_used_cond st) true = false ->
                nth i (st_alpha st) 0 = INFINITY) ->
  fit_iter lapack_inv lapack_pinv K y tol st = Ok (stop, st') ->
  length (st_alpha st') = length (st_used_cond st')
  /\ (forall i, nth i (st_used_cond st') true = false ->
                nth i (st_alpha st') 0 = INFINITY).
Proof.
  intros (Hlen & Hinv) Hit.
  destruct (fit_iter_inversion _ _ _ _ _ _ _ _ Hit)
    as (c & rest & re & _ & _ & Hupd & _).
  destruct (update_candidate_lengths _ _ _ _ _ _ _ _ Hupd) as [Hla Hlu].
  split; [now rewrite Hla, Hlu | ].
  exact (update_candidate_sentinel _ _ _ _ _ _ _ _ Hlen Hinv Hupd).
Qed.

Lemma initial_state_sentinel K y sigma_squared st :
  initial_state lapack_inv lapack_pinv K y sigma_squared = Ok st ->
  length (st_alpha st) = length (st_used_cond st)
  /\ (forall i, nth i (st_used_cond st) true = false ->
                nth i (st_alpha st) 0 = INFINITY).
Proof.
  intros H0.
  destruct (initial_state_fields lapack_inv lapack_pinv K y sigma_squared)
    as (st1 & E & Ha & Hu & _).
  rewrite E in H0. injection H0 as <-.
  rewrite Ha, Hu. split.
  - rewrite !list_set_length. unfold vscale, ones.
    now rewrite length_map, !repeat_length.
  - intros i. rewrite !nth_list_set.
    unfold vscale, ones. rewrite length_map, !repeat_length.
    destruct (Nat.eqb 0 i && Nat.ltb i (length y + 1))%bool;
      [discriminate | ].
    intros Hi.
    destruct (Nat.lt_ge_cases i (length y + 1)) as [Hlt | Hge].
    + rewrite (nth_indep _ 0 (INFINITY * 1))
        by (now rewrite length_map, repeat_length).
      rewrite (map_nth (Rmult INFINITY)), nth_repeat. ring.
    + rewrite nth_overflow in Hi by (now rewrite repeat_length).
      discriminate.
Qed.

(** X5.  In every state the loop reaches the precisions, the mask and the
    factors [s] and [q] have [n_samples + 1] entries and the queue is a
    rotation of [0 .. n_samples]: the candidate popped next indexes them in
    range, and the queue is never empty. *)
Theorem loop_indices_in_range (K : matrix) (y : vec) (tol : R)
    (max_iter : nat) (sigma_squared : R) (st0 st : loop_state) :
  design_shape K y ->
  initial_state lapack_inv lapack_pinv K y sigma_squared = Ok st0 ->
  fit_loop lapack_inv lapack_pinv K y tol max_iter st0 = Ok st ->
  length (st_alpha st) = (length y + 1)%nat
  /\ length (st_used_cond st) = (length y + 1)%nat
  /\ length (st_s st) = (length y + 1)%nat
  /\ length (st_q st) = (length y + 1)%nat
  /\ exists j, (j <= length y)%nat
               /\ st_queue st = skipn j (seq 0 (length y + 1))
                                ++ firstn j (seq 0 (length y + 1)).
Proof.
  intros _ H0 Hl.
  destruct (initial_state_lengths K y sigma_squared st0 H0)
    as (Ha & Hu & Hs & Hq & Hqu).
  pose proof (fit_loop_invariant lapack_inv lapack_pinv _ K y tol
                (fit_iter_lengths K y tol) max_iter st0 st
                (conj Ha (conj Hu (conj Hs Hq))) Hl) as (Ha' & Hu' & Hs' & Hq').
  repeat (split; [assumption | ]).
  destruct (fit_loop_invariant lapack_inv lapack_pinv _ K y tol
              (fun st1 stop st2 =>
                 fit_iter_rotates K y tol st1 stop st2
                   (seq 0 (length y + 1)))
              max_iter st0 st) as (j & Hj & E).
  - exists 0%nat. rewrite length_seq. split; [lia | ].
    cbn [skipn firstn]. now rewrite app_nil_r.
  - exact Hl.
  - rewrite length_seq in Hj. exists j. split; [lia | exact E].
Qed.

(** X6.  A candidate the mask marks inactive has the sentinel precision
    [INFINITY], in every state the loop reaches. *)
Theorem inactive_precision_is_sentinel (K : matrix) (y : vec) (tol : R)
    (max_iter : nat) (sigma_squared : R) (st0 st : loop_state) (i : nat) :
  design_shape K y ->
  initial_state lapack_inv lapack_pinv K y sigma_squared = Ok st0 ->
  fit_loop lapack_inv lapack_pinv K y tol max_iter st0 = Ok st ->
  nth i (st_used_cond st) true = false ->
  nth i (st_alpha st) 0 = INFINITY.
Proof.
  intros _ H0 Hl.
  pose proof (fit_loop_invariant lapack_inv lapack_pinv _ K y tol
                (fit_iter_sentinel K y tol) max_iter st0 st
                (initial_state_sentinel K y sigma_squared st0 H0) Hl)
    as [_ H].
  apply H.
Qed.

(** X7.  A pass from a state the loop reaches changes the number of
    active bases by at most one, and a pass that ends the loop leaves the
    mask as it was. *)
Theorem pass_changes_one_basis (K : matrix) (y : vec) (tol : R)
    (max_iter : nat) (sigma_squared : R) (st0 st : loop_state)
    (stop : bool) (st' : loop_state) :
  design_shape K y ->
  initial_state lapack_inv lapack_pinv K y sigma_squared = Ok st0 ->
  fit_loop lapack_inv lapack_pinv K y tol max_iter st0 = Ok st ->
  fit_iter lapack_inv lapack_pinv K y tol st = Ok (stop, st') ->
  (count_true (st_used_cond st') <= count_true (st_used_cond st) + 1
   /\ count_true (st_used_cond st) <= count_true (st_used_cond st') + 1)%nat
  /\ (stop = true -> st_used_cond st' = st_used_cond st).
Proof.
  intros _ _ _ Hit.
  destruct (fit_iter_inversion _ _ _ _ _ _ _ _ Hit)
    as (c & rest & re & _ & _ & Hupd & _).
  split.
  - unfold update_candidate in Hupd.
    repeat match type of Hupd with
           | (if ?b then _ else _) = _ => destruct b
           end;
      injection Hupd as _ <- _; try lia; apply count_true_list_set.
  - intros ->. unfold fit_iter in Hit.
    destruct (st_queue st) as [|c0 rest0]; [discriminate | ].
    destruct (update_candidate _ _ _ _ c0) as [[alpha used_cond] re0] eqn:Hu.
    destruct (math_log (nth c0 alpha 0)); [ | discriminate].
    destruct (math_log (nth c0 (st_alpha st) 0)); [ | discriminate].
    cbn [bind] in Hit.
    destruct (converged re0 _ _ _ _) eqn:Hc.
    + injection Hit as <-. cbn [st_used_cond].
      unfold converged in Hc. apply andb_true_iff in Hc.
      destruct Hc as [Hc _]. apply andb_true_iff in Hc. destruct Hc as [-> _].
      now destruct (update_candidate_flag _ _ _ _ _ _ _ Hu) as (-> & _).
    + destruct (posterior _ _ _ _ _ _ _) as [[[Sigma0 mu0] Phi0] | ];
        [ | discriminate].
      cbn [bind] in Hit.
      destruct (_calculate_statistics _ _ _ _ _ _ _)
        as [[[[[Sigma1 mu1] s1] q1] Phi1] | ]; discriminate.
Qed.

Lemma fit_iter_positive K y tol st stop st' :
  (forall i, (i < length (st_alpha st))%nat -> i <> hd 0%nat (st_queue st) ->
             0 < nth i (st_alpha st) 0) ->
  fit_iter lapack_inv lapack_pinv K y tol st = Ok (stop, st') ->
  forall i, (i < length (st_alpha st'))%nat -> 0 < nth i (st_alpha st') 0.
Proof.
  intros Hpos Hit i Hi.
  destruct (fit_iter_inversion _ _ _ _ _ _ _ _ Hit)
    as (c & rest & re & Hq & _ & Hupd & Hn & _).
  destruct (update_candidate_lengths _ _ _ _ _ _ _ _ Hupd) as [Hla _].
  rewrite Hq in Hpos. cbn [hd] in Hpos.
  destruct (Nat.eq_dec i c) as [-> | Hne]; [exact Hn | ].
  destruct (update_candidate_other _ _ _ _ _ _ _ _ i Hupd Hne) as [-> _].
  apply Hpos; [now rewrite <- Hla | exact Hne].
Qed.

(** X8.  Once a pass has returned, every precision is positive in every
    state the loop reaches: a pass returns only when both logarithms of
    step 11 are defined. *)
Theorem precisions_stay_positive (K : matrix) (y : vec) (tol : R)
    (max_iter : nat) (sigma_squared : R) (st0 st : loop_state) (i : nat) :
  design_shape K y ->
  (1 <= max_iter)%nat ->
  initial_state lapack_inv lapack_pinv K y sigma_squared = Ok st0 ->
  fit_loop lapack_inv lapack_pinv K y tol max_iter st0 = Ok st ->
  (i <= length y)%nat ->
  0 < nth i (st_alpha st) 0.
Proof.
  intros _ Hm H0 Hl Hi.
  destruct max_iter as [|m]; [lia | ].
  cbn [fit_loop] in Hl.
  destruct (fit_iter lapack_inv lapack_pinv K y tol st0)
    as [[stop st1] | ] eqn:Hit; [ | discriminate].
  cbn [bind] in Hl.
  destruct (initial_state_fields lapack_inv lapack_pinv K y sigma_squared)
    as (st0' & E & Ha & _ & Hq).
  rewrite E in H0. injection H0 as ->.
  assert (Hlen0 : length (st_alpha st0) = (length y + 1)%nat).
  { rewrite Ha, list_set_length. unfold vscale, ones.
    now rewrite length_map, repeat_length. }
  assert (Hpos1 : forall j, (j < length (st_alpha st1))%nat ->
                            0 < nth j (st_alpha st1) 0).
  { apply (fit_iter_positive K y tol st0 stop st1); [ | exact Hit].
    intros j Hj Hne. rewrite Hq, Nat.add_1_r in Hne. cbn [seq hd] in Hne.
    rewrite Ha, nth_list_set_neq by auto.
    rewrite Hlen0 in Hj.
    unfold vscale, ones.
    rewrite (nth_indep _ 0 (INFINITY * 1))
      by (now rewrite length_map, repeat_length).
    rewrite (map_nth (Rmult INFINITY)), nth_repeat.
    pose proof INFINITY_pos. lra. }
  assert (Hlen1 : length (st_alpha st1) = (length y + 1)%nat).
  { destruct (fit_iter_inversion _ _ _ _ _ _ _ _ Hit)
      as (c & rest & re & _ & _ & Hupd & _).
    destruct (update_candidate_lengths _ _ _ _ _ _ _ _ Hupd) as [-> _].
    exact Hlen0. }
  assert (Hinv : length (st_alpha st) = (length y + 1)%nat
                 /\ forall j, (j < length (st_alpha st))%nat ->
                              0 < nth j (st_alpha st) 0).
  { destruct stop.
    - injection Hl as <-. auto.
    - apply (fit_loop_invariant lapack_inv lapack_pinv
               (fun s => length (st_alpha s) = (length y + 1)%nat
                         /\ forall j, (j < length (st_alpha s))%nat ->
                                      0 < nth j (st_alpha s) 0)
               K y tol) with (max_iter := m) (st := st1); auto.
      intros s1 stop' s2 [Hl1 Hp1] Hit'. split.
      + destruct (fit_iter_inversion _ _ _ _ _ _ _ _ Hit')
          as (c & rest & re & _ & _ & Hupd & _).
        destruct (update_candidate_lengths _ _ _ _ _ _ _ _ Hupd) as [-> _].
        exact Hl1.
      + apply (fit_iter_positive K y tol s1 stop' s2); [ | exact Hit'].
        intros j Hj _. now apply Hp1. }
  destruct Hinv as [Hlen Hpos]. apply Hpos. lia.
Qed.

End Invariants.

(** ** What [fit] returns and raises *)

Lemma shrunk_mean_identity n m s :
  n <> 0 -> s <> 0 -> m <> 0 -> m ^ 2 <> n * s ->
  m / s / (n / (m ^ 2 / n - s) + n / s) = m / n - s / m
  /\ 1 / (n / (m ^ 2 / n - s) + n / s) = s / n - (s / m) ^ 2.
Proof.
  intros Hn Hs Hm Hd.
  assert (H1 : m ^ 2 - s * n <> 0) by (intros E; apply Hd; lra).
  assert (H2 : n * n * s + n * (m ^ 2 - s * n) <> 0).
  { replace (n * n * s + n * (m ^ 2 - s * n)) with (n * m ^ 2) by ring.
    apply Rmult_integral_contrapositive_currified;
      [exact Hn | apply pow_nonzero; exact Hm]. }
  split; field; repeat split; assumption.
Qed.

Lemma extract_bias_only X threshold_alpha st a0 rest m g :
  st_alpha st = a0 :: rest ->
  length rest = length X ->
  st_used_cond st = true :: repeat false (length X) ->
  st_mu st = [m] ->
  st_Sigma st = [[g]] ->
  extract_model X threshold_alpha st
  = Ok {| relevance_vectors_ := [];
          mu_ := if Rltb a0 threshold_alpha then [m] else [];
          Sigma_ := if Rltb a0 threshold_alpha then [[g]] else [];
          sigma_squared_ := st_sigma_squared st |}.
Proof.
  intros Ha Hr Hu Hm Hs. unfold extract_model.
  rewrite Ha, Hu, Hm, Hs. cbn [tl nth].
  rewrite bool_index_ok by (now rewrite repeat_length).
  cbn [bind]. rewrite compress_none.
  rewrite bool_index_ok by (now rewrite repeat_length).
  cbn [bind]. rewrite compress_none.
  cbn [map]. unfold bool_index2, bool_index. cbn [length Nat.eqb bind ncols].
  destruct (Rltb a0 threshold_alpha); reflexivity.
Qed.

Section FirstPassModel.

Variable lapack_inv : matrix -> option matrix.
Variable lapack_pinv : matrix -> matrix.

(** X9.  Targets whose sum is small against the noise,
    [(sum y)^2 < n_samples * sigma^2], give the bias a negative initial
    precision, and [fit] raises [ValueError] in its first pass, at
    [math.log]. *)
Theorem small_mean_raises (M X : matrix) (y : vec)
    (tol threshold_alpha : R) (max_iter : nat) (sigma_squared : R) :
  design_shape (hstack_ones M) y ->
  (1 <= length y)%nat ->
  (1 <= max_iter)%nat ->
  vsum y ^ 2 < INR (length y) * sigma_squared ->
  fit_steps lapack_inv lapack_pinv (hstack_ones M) X y tol threshold_alpha
    max_iter sigma_squared
  = Raise ValueError.
Proof.
  intros HK Hn Hm Hy.
  pose proof (design_shape_hstack M y HK) as HM.
  destruct max_iter as [|m]; [lia | ].
  apply nonpositive_bias_precision_raises.
  rewrite col_0_hstack_ones, HM, !norm_sq, dot_ones_ones, dot_ones_l.
  replace (dot [vsum y] [vsum y]) with (vsum y ^ 2)
    by (unfold dot, vmul, vsum; cbn; lra).
  assert (Hp : 0 < INR (length y)) by (apply lt_0_INR; lia).
  assert (Hd : vsum y ^ 2 / INR (length y) - sigma_squared < 0).
  { apply Rlt_minus.
    apply (Rmult_lt_reg_r (INR (length y))); [exact Hp | ].
    replace (vsum y ^ 2 / INR (length y) * INR (length y)) with (vsum y ^ 2)
      by (field; lra).
    lra. }
  set (D := vsum y ^ 2 / INR (length y) - sigma_squared) in *.
  assert (Hi : / D < 0) by (apply Rinv_lt_0_compat; exact Hd).
  unfold Rdiv. nra.
Qed.

Lemma initial_bias_posterior M y sigma_squared st0 :
  length M = length y ->
  initial_state lapack_inv lapack_pinv (hstack_ones M) y sigma_squared
  = Ok st0 ->
  let a0 := INR (length y) / (vsum y ^ 2 / INR (length y) - sigma_squared) in
  st_alpha st0 = a0 :: vscale INFINITY (ones (length y))
  /\ st_used_cond st0 = true :: repeat false (length y)
  /\ st_sigma_squared st0 = sigma_squared
  /\ st_mu st0
     = [vsum y / sigma_squared / (a0 + INR (length y) / sigma_squared)]
  /\ st_Sigma st0 = [[1 / (a0 + INR (length y) / sigma_squared)]].
Proof.
  intros HM H0 a0.
  destruct (initial_state_bias_only _ _ M y sigma_squared st0 HM H0)
    as (Ha & Hu & _ & Hss & Hst).
  fold a0 in Ha. rewrite Ha, Hu in Hst.
  unfold _calculate_statistics in Hst.
  rewrite (single_bias_posterior _ _ M a0 _ y sigma_squared HM) in Hst.
  cbn [bind] in Hst. injection Hst as HS Hmu _ _ _.
  repeat split; auto.
Qed.

(** X10.  With [max_iter = 0] no pass runs and [fit] returns the initial
    model: no relevance vector, and, when the initial precision of the bias
    is below the threshold, the intercept [mean y - sigma^2 / sum y] with
    the variance [sigma^2 / n - (sigma^2 / sum y)^2]. *)
Theorem no_pass_model (M X : matrix) (y : vec)
    (tol threshold_alpha sigma_squared : R) :
  design_shape (hstack_ones M) y ->
  length X = length y ->
  (1 <= length y)%nat ->
  sigma_squared <> 0 ->
  vsum y <> 0 ->
  vsum y ^ 2 <> INR (length y) * sigma_squared ->
  let a0 := INR (length y) / (vsum y ^ 2 / INR (length y) - sigma_squared) in
  exists st,
    fit_steps lapack_inv lapack_pinv (hstack_ones M) X y tol threshold_alpha
      0 sigma_squared
    = Ok (st,
          {| relevance_vectors_ := [];
             mu_ := if Rltb a0 threshold_alpha
                    then [vsum y / INR (length y) - sigma_squared / vsum y]
                    else [];
             Sigma_ := if Rltb a0 threshold_alpha
                       then [[sigma_squared / INR (length y)
                              - (sigma_squared / vsum y) ^ 2]]
                       else [];
             sigma_squared_ := sigma_squared |}).
Proof.
  intros HK HX Hn Hs Hsum Hd a0.
  pose proof (design_shape_hstack M y HK) as HM.
  assert (Hp : INR (length y) <> 0) by (apply not_0_INR; lia).
  destruct (shrunk_mean_identity _ _ _ Hp Hs Hsum Hd) as [Emu ES].
  unfold fit_steps.
  destruct (initial_state_fields lapack_inv lapack_pinv (hstack_ones M) y
              sigma_squared) as (st0 & E & _).
  rewrite E. cbn [bind fit_loop].
  destruct (initial_bias_posterior M y sigma_squared st0 HM E)
    as (Ha & Hu & Hss & Hmu & HS).
  fold a0 in Ha, Hmu, HS.
  rewrite (extract_bias_only X threshold_alpha st0 a0
             (vscale INFINITY (ones (length y)))
             (vsum y / INR (length y) - sigma_squared / vsum y)
             (sigma_squared / INR (length y)
              - (sigma_squared / vsum y) ^ 2)).
  - cbn [bind]. rewrite Hss. eauto.
  - exact Ha.
  - unfold vscale, ones. now rewrite length_map, repeat_length.
  - now rewrite HX.
  - rewrite Hmu. f_equal. exact Emu.
  - rewrite HS. do 2 f_equal. exact ES.
Qed.

(** X11.  When the first pass ends the loop, [fit] returns the intercept
    alone: no relevance vector, the mean [mean y - sigma^2 / sum y], the
    variance [sigma^2 / n - (sigma^2 / sum y)^2], and the noise variance
    it started from. *)
Theorem first_pass_stop_model (M X : matrix) (y : vec)
    (tol threshold_alpha : R) (max_iter : nat) (sigma_squared : R)
    (st0 st1 : loop_state) :
  design_shape (hstack_ones M) y ->
  length X = length y ->
  (1 <= length y)%nat ->
  (1 <= max_iter)%nat ->
  0 < sigma_squared ->
  INR (length y) * sigma_squared < vsum y ^ 2 ->
  INR (length y) / (vsum y ^ 2 / INR (length y) - sigma_squared)
  < threshold_alpha ->
  initial_state lapack_inv lapack_pinv (hstack_ones M) y sigma_squared
  = Ok st0 ->
  fit_iter lapack_inv lapack_pinv (hstack_ones M) y tol st0
  = Ok (true, st1) ->
  fit_steps lapack_inv lapack_pinv (hstack_ones M) X y tol threshold_alpha
    max_iter sigma_squared
  = Ok (st1,
        {| relevance_vectors_ := [];
           mu_ := [vsum y / INR (length y) - sigma_squared / vsum y];
           Sigma_ := [[sigma_squared / INR (length y)
                       - (sigma_squared / vsum y) ^ 2]];
           sigma_squared_ := sigma_squared |}).
Proof.
  intros HK HX Hn Hm Hs Hy Hthr H0 Hit.
  pose proof (design_shape_hstack M y HK) as HM.
  destruct (first_pass_outcome lapack_inv lapack_pinv M y sigma_squared tol
              st0 HM Hn Hs Hy H0)
    as (_ & _ & stop & st1' & Hit' & Ha1 & Hu1 & _).
  rewrite Hit in Hit'. injection Hit' as <- <-.
  destruct (fit_iter_inversion _ _ _ _ _ _ _ _ Hit)
    as (c & rest & re & _ & _ & _ & _ & _ & Hend).
  destruct Hend as [(_ & _ & _ & Hmu1 & HS1 & Hss1) | (F & _)];
    [ | discriminate].
  destruct (initial_bias_posterior M y sigma_squared st0 HM H0)
    as (Ha & Hu & Hss & Hmu & HS).
  assert (Hp : 0 < INR (length y)) by (apply lt_0_INR; lia).
  assert (Hsum : vsum y <> 0) by nra.
  destruct (shrunk_mean_identity (INR (length y)) (vsum y) sigma_squared)
    as [Emu ES]; try lra.
  unfold fit_steps. rewrite H0. cbn [bind].
  destruct max_iter as [|m]; [lia | ].
  cbn [fit_loop]. rewrite Hit. cbn [bind].
  rewrite (extract_bias_only X threshold_alpha st1
             (INR (length y)
              / (vsum y ^ 2 / INR (length y) - sigma_squared))
             (vscale INFINITY (ones (length y)))
             (vsum y / INR (length y) - sigma_squared / vsum y)
             (sigma_squared / INR (length y)
              - (sigma_squared / vsum y) ^ 2)).
  - cbn [bind]. apply Rltb_true in Hthr. rewrite Hthr, Hss1, Hss.
    reflexivity.
  - now rewrite Ha1.
  - unfold vscale, ones. now rewrite length_map, repeat_length.
  - now rewrite Hu1, HX.
  - rewrite Hmu1, Hmu. f_equal. exact Emu.
  - rewrite HS1, HS. do 2 f_equal. exact ES.
Qed.

End FirstPassModel.

Lemma extract_model_raises X threshold_alpha st e :
  extract_model X threshold_alpha st = Raise e -> e = IndexError.
Proof.
  unfold extract_model, bool_index2, bool_index.
  repeat match goal with
         | |- context [Nat.eqb ?a ?b] => destruct (Nat.eqb a b); cbn [bind]
         end;
    intros H; first [discriminate | injection H as <-; reflexivity].
Qed.

Section Exceptions.

Variable pairwise_kernels :
  pyval -> list (string * pyval) -> matrix -> option matrix -> result matrix.
Variable lapack_inv : matrix -> option matrix.
Variable lapack_pinv : matrix -> matrix.

Lemma fit_loop_raises K y tol max_iter :
  forall st e,
    st_queue st <> [] ->
    fit_loop lapack_inv lapack_pinv K y tol max_iter st = Raise e ->
    e = ValueError.
Proof.
  induction max_iter as [|m IH]; intros st e Hne H; [discriminate | ].
  cbn [fit_loop] in H.
  destruct (st_queue st) as [|c rest] eqn:Hq; [contradiction | ].
  destruct (fit_iter_outcome lapack_inv lapack_pinv K y tol st c rest Hq)
    as [(_ & _ & stop & st' & Hit) | (_ & Hit)].
  - rewrite Hit in H. cbn [bind] in H.
    destruct stop; [discriminate | ].
    apply (IH st' e); [ | exact H].
    destruct (fit_iter_inversion _ _ _ _ _ _ _ _ Hit)
      as (c' & rest' & re & _ & -> & _).
    destruct rest'; discriminate.
  - rewrite Hit in H. cbn [bind] in H. injection H as <-. reflexivity.
Qed.

Lemma fit_steps_raises K X y tol threshold_alpha max_iter sigma_squared e :
  fit_steps lapack_inv lapack_pinv K X y tol threshold_alpha max_iter
    sigma_squared = Raise e ->
  e = ValueError \/ e = IndexError.
Proof.
  unfold fit_steps.
  destruct (initial_state_fields lapack_inv lapack_pinv K y sigma_squared)
    as (st0 & -> & _ & _ & Hq).
  cbn [bind].
  destruct (fit_loop lapack_inv lapack_pinv K y tol max_iter st0)
    as [st | e'] eqn:Hl; cbn [bind].
  - destruct (extract_model X threshold_alpha st) as [model | e'] eqn:He;
      cbn [bind]; [discriminate | ].
    intros H. injection H as <-. right.
    exact (extract_model_raises _ _ _ _ He).
  - intros H. injection H as <-. left.
    apply (fit_loop_raises K y tol max_iter st0 e'); [ | exact Hl].
    rewrite Hq, Nat.add_1_r. discriminate.
Qed.

Lemma fit_from_raises (p : params) (est : estimator)
    (sigma_squared : R) (X : matrix) (y : vec) (e : exn) :
  RVR_init p = Ok est ->
  fit_from pairwise_kernels lapack_inv lapack_pinv sigma_squared est X y
  = Raise e ->
  e = ValueError \/ e = IndexError
  \/ _get_kernel pairwise_kernels est X None = Raise e.
Proof.
  unfold RVR_init, BaseRVM_init.
  destruct (py_eq_zero (gamma p)); [discriminate | ].
  intros H. injection H as <-.
  unfold fit_from, fit_with, check_X_y.
  destruct (Nat.eqb (length X) (length y));
    [ | intros H; injection H as <-; auto].
  destruct (Nat.ltb (length X) 2);
    [intros H; injection H as <-; auto | ].
  cbn [bind].
  destruct (_get_kernel pairwise_kernels _ X None) as [K | e'] eqn:HK;
    cbn [bind]; [ | intros H; injection H as <-; auto].
  change (bind (getattr _ "max_iter") as_int) with (Ok (max_iter p)).
  change (bind (getattr _ "tol") as_float) with (Ok (tol p)).
  change (bind (getattr _ "threshold_alpha") as_float)
    with (Ok (threshold_alpha p)).
  cbn [bind].
  destruct (fit_steps _ _ _ _ _ _ _ _ _) as [[st model] | e'] eqn:Hs;
    cbn [bind]; [discriminate | ].
  intros H. injection H as <-.
  destruct (fit_steps_raises _ _ _ _ _ _ _ _ Hs); auto.
Qed.

(** X12.  On an estimator made by the constructor, [fit] from its step 2
    on either stores a model, or raises what the kernel computation
    ([pairwise_kernels], called first) raises, or raises [ValueError] or
    [IndexError]: nothing else leaves it, and nothing from the
    inversion. *)
Theorem fit_raises_kernel_ValueError_IndexError (p : params)
    (est : estimator) (sigma_squared : R) (X : matrix) (y : vec) :
  RVR_init p = Ok est ->
  (exists model,
      fit_from pairwise_kernels lapack_inv lapack_pinv sigma_squared est X y
      = Ok (store_model est model))
  \/ fit_from pairwise_kernels lapack_inv lapack_pinv sigma_squared est X y
     = Raise ValueError
  \/ fit_from pairwise_kernels lapack_inv lapack_pinv sigma_squared est X y
     = Raise IndexError
  \/ (exists e,
        _get_kernel pairwise_kernels est X None = Raise e
        /\ fit_from pairwise_kernels lapack_inv lapack_pinv sigma_squared
             est X y
           = Raise e).
Proof.
  intros Hinit.
  destruct (fit_from pairwise_kernels lapack_inv lapack_pinv sigma_squared
              est X y) as [est' | e] eqn:E.
  - left. unfold fit_from in E.
    destruct (fit_with_stores _ _ _ _ _ _ _ _ E) as [model ->]. eauto.
  - right.
    destruct (fit_from_raises p est sigma_squared X y e Hinit E)
      as [-> | [-> | HK]]; eauto.
Qed.

End Exceptions.

Section ReturnedModel.

Variable lapack_inv : matrix -> option matrix.
Variable lapack_pinv : matrix -> matrix.

Hypothesis lapack_inv_rows :
  forall a r, lapack_inv a = Some r -> length r = length a.
Hypothesis lapack_pinv_rows : forall a, length (lapack_pinv a) = length a.

(** X13.  Whenever the steps of [fit] return a model the bias is active
    in the final state, which has a posterior mean entry for each active
    basis: a run that ends with the bias deleted returns nothing. *)
Theorem returned_model_keeps_bias_active (K X : matrix) (y : vec)
    (tol threshold_alpha : R) (max_iter : nat) (sigma_squared : R)
    (st : loop_state) (model : fitted) :
  design_shape K y ->
  fit_steps lapack_inv lapack_pinv K X y tol threshold_alpha max_iter
    sigma_squared = Ok (st, model) ->
  nth 0 (st_used_cond st) false = true
  /\ (1 <= count_true (st_used_cond st))%nat
  /\ length (st_mu st) = count_true (st_used_cond st).
Proof.
  intros _ H.
  destruct (fit_steps_returns_with_bias lapack_inv lapack_pinv
              lapack_inv_rows lapack_pinv_rows _ _ _ _ _ _ _ _ _ H)
    as [rest Hu].
  split; [now rewrite Hu | split].
  - rewrite Hu, count_true_cons. lia.
  - unfold fit_steps in H.
    destruct (initial_state lapack_inv lapack_pinv K y sigma_squared)
      as [st0 | ] eqn:H0; [ | discriminate].
    cbn [bind] in H.
    destruct (fit_loop lapack_inv lapack_pinv K y tol max_iter st0)
      as [st1 | ] eqn:Hl; [ | discriminate].
    cbn [bind] in H.
    destruct (extract_model X threshold_alpha st1); [ | discriminate].
    cbn [bind] in H. injection H as <- _.
    apply (initial_state_consistent lapack_inv lapack_pinv lapack_inv_rows
             lapack_pinv_rows) in H0.
    exact (proj2 (fit_loop_consistent lapack_inv lapack_pinv lapack_inv_rows
                    lapack_pinv_rows _ _ _ _ _ _ H0 Hl)).
Qed.

End ReturnedModel.

(** ** The extracted model and [predict] *)

Lemma extract_model_inv X threshold_alpha st model :
  extract_model X threshold_alpha st = Ok model ->
  let rest := tl (st_used_cond st) in
  let cond_basis_rv :=
    map (fun a => Rltb a threshold_alpha) (compress rest (tl (st_alpha st))) in
  let selected_basis :=
    Rltb (nth 0 (st_alpha st) 0) threshold_alpha :: cond_basis_rv in
  length (tl (st_alpha st)) = length rest
  /\ length X = length rest
  /\ length (st_mu st) = length selected_basis
  /\ length (st_Sigma st) = length selected_basis
  /\ relevance_vectors_ model = compress cond_basis_rv (compress rest X)
  /\ mu_ model = compress selected_basis (st_mu st)
  /\ Sigma_ model
     = map (compress selected_basis) (compress selected_basis (st_Sigma st))
  /\ sigma_squared_ model = st_sigma_squared st.
Proof.
  unfold extract_model. intros H.
  destruct (bool_index (tl (st_alpha st)) _) as [ab | ] eqn:E1;
    [ | discriminate].
  cbn [bind] in H.
  destruct (bool_index X _) as [X_rv | ] eqn:E2; [ | discriminate].
  cbn [bind] in H.
  destruct (bool_index X_rv _) as [rv | ] eqn:E3; [ | discriminate].
  cbn [bind] in H.
  destruct (bool_index (st_mu st) _) as [mu | ] eqn:E4; [ | discriminate].
  cbn [bind] in H.
  unfold bool_index2 in H.
  destruct (bool_index (st_Sigma st) _) as [rows | ] eqn:E5;
    [ | discriminate].
  cbn [bind] in H.
  destruct (Nat.eqb (ncols (st_Sigma st)) _); [ | discriminate].
  injection H as <-. cbn.
  apply bool_index_inv in E1, E2, E3, E4, E5.
  destruct E1 as [L1 ->], E2 as [L2 ->], E3 as [L3 ->], E4 as [L4 ->],
    E5 as [L5 ->].
  repeat split; auto.
Qed.

Lemma extracted_model_lengths (X : matrix) (threshold_alpha : R)
    (st : loop_state) (model : fitted) :
  extract_model X threshold_alpha st = Ok model ->
  length (mu_ model)
  = ((if Rltb (nth 0 (st_alpha st) 0%R) threshold_alpha then 1 else 0)
     + length (relevance_vectors_ model))%nat
  /\ length (Sigma_ model) = length (mu_ model)
  /\ (length (relevance_vectors_ model) <= length X)%nat
  /\ sigma_squared_ model = st_sigma_squared st.
Proof.
  intros H. apply extract_model_inv in H. cbv zeta in H.
  destruct H as (L1 & L2 & L3 & L4 & -> & -> & -> & ->).
  assert (Hrv : length (compress (tl (st_used_cond st)) X)
                = length (map (fun a => Rltb a threshold_alpha)
                            (compress (tl (st_used_cond st))
                               (tl (st_alpha st))))).
  { rewrite length_map, (compress_length _ _ L1), (compress_length _ _ L2).
    reflexivity. }
  rewrite length_map.
  rewrite (compress_length _ _ L3), (compress_length _ _ L4),
    (compress_length _ _ Hrv).
  rewrite count_true_cons.
  repeat split; try reflexivity.
  etransitivity; [apply count_true_le | ].
  rewrite <- Hrv, (compress_length _ _ L2).
  etransitivity; [apply count_true_le | ]. now rewrite L2.
Qed.

(** X14.  An extracted model has a mean entry and a covariance row for
    each relevance vector, and one more of each exactly when the precision
    of the bias is below the threshold; its relevance vectors are among the
    samples. *)
Theorem extracted_model_shapes (X : matrix) (threshold_alpha : R)
    (st : loop_state) (model : fitted) :
  (1 <= length (st_alpha st))%nat ->
  extract_model X threshold_alpha st = Ok model ->
  length (mu_ model)
  = ((if Rltb (nth 0 (st_alpha st) 0%R) threshold_alpha then 1 else 0)
     + length (relevance_vectors_ model))%nat
  /\ length (Sigma_ model) = length (mu_ model)
  /\ (length (relevance_vectors_ model) <= length X)%nat
  /\ sigma_squared_ model = st_sigma_squared st.
Proof. intros _. apply extracted_model_lengths. Qed.

Section Predict.

Variable pairwise_kernels :
  pyval -> list (string * pyval) -> matrix -> option matrix -> result matrix.
Variable lapack_inv : matrix -> option matrix.
Variable lapack_pinv : matrix -> matrix.

(** X15.  [predict] accepts the model [fit] extracts: on an estimator
    that passes the fitted check and holds the relevance vectors and the
    mean of the model, for valid samples and when the kernel computation
    returns a matrix [K] with a column for each relevance vector,
    [predict] adds the column of ones exactly when the bias was kept, the
    shapes of [K] and [mu_] agree, and the mean [K @ mu_] is returned. *)
Theorem predict_accepts_extracted_model (X : matrix) (threshold_alpha : R)
    (st : loop_state) (model : fitted) (est : estimator) (Xnew K : matrix) :
  (1 <= length (st_alpha st))%nat ->
  extract_model X threshold_alpha st = Ok model ->
  check_is_fitted est
    ["relevance_vectors_"; "mu_"; "Sigma_"; "sigma_squared"]%string = Ok tt ->
  getattr est "relevance_vectors_" = Ok (PyMat (relevance_vectors_ model)) ->
  getattr est "mu_" = Ok (PyVec (mu_ model)) ->
  check_array Xnew = Ok Xnew ->
  _get_kernel pairwise_kernels est Xnew (Some (relevance_vectors_ model))
  = Ok K ->
  Forall (fun r => length r = length (relevance_vectors_ model)) K ->
  predict pairwise_kernels est Xnew false
  = Ok (matvec
          (if Rltb (nth 0 (st_alpha st) 0) threshold_alpha
           then hstack_ones K else K)
          (mu_ model),
        None).
Proof.
  intros _ Hex Hfit Hrv Hmu HX HK Hker.
  destruct (extracted_model_lengths X threshold_alpha st model Hex)
    as [Hlen _].
  unfold predict. rewrite Hfit. cbn [bind]. rewrite HX. cbn [bind].
  rewrite Hrv. cbn [bind as_mat]. rewrite HK. cbn [bind].
  rewrite Hmu. cbn [bind as_vec].
  destruct (Rltb (nth 0 (st_alpha st) 0) threshold_alpha).
  - replace (Nat.eqb (length (mu_ model))
               (length (relevance_vectors_ model))) with false
      by (symmetry; apply Nat.eqb_neq; lia).
    cbn [negb].
    rewrite forallb_row_lengths; [reflexivity | ].
    unfold hstack_ones. apply Forall_map.
    eapply Forall_impl; [ | exact Hker].
    cbn. intros r Hr. rewrite Hr, Hlen. reflexivity.
  - replace (Nat.eqb (length (mu_ model))
               (length (relevance_vectors_ model))) with true
      by (symmetry; apply Nat.eqb_eq; lia).
    cbn [negb].
    rewrite forallb_row_lengths; [reflexivity | ].
    eapply Forall_impl; [ | exact Hker].
    cbn. intros r Hr. rewrite Hr, Hlen. reflexivity.
Qed.

(** X16.  [predict] with [return_std=True] never returns: it reads the
    attribute [Sigma], which neither the constructor nor [fit] creates
    ([fit] stores [Sigma_]), also on an estimator that passes the fitted
    check because [sigma_squared] was set on it. *)
Theorem predict_return_std_never_returns (p : params) (est0 : estimator)
    (model : fitted) (v : pyval) (X : matrix) :
  RVR_init p = Ok est0 ->
  let est := setattr (store_model est0 model) "sigma_squared" v in
  check_is_fitted est
    ["relevance_vectors_"; "mu_"; "Sigma_"; "sigma_squared"]%string = Ok tt
  /\ exists e, predict pairwise_kernels est X true = Raise e.
Proof.
  intros Hinit est.
  assert (Hno : hasattr est "Sigma" = false).
  { unfold est. rewrite hasattr_setattr_other by reflexivity.
    rewrite hasattr_store_model_other by reflexivity.
    unfold RVR_init, BaseRVM_init in Hinit.
    destruct (py_eq_zero (gamma p)); [discriminate | ].
    injection Hinit as <-. reflexivity. }
  assert (Hfit : check_is_fitted est
            ["relevance_vectors_"; "mu_"; "Sigma_"; "sigma_squared"]%string
          = Ok tt).
  { unfold check_is_fitted, est. cbn [forallb].
    rewrite hasattr_setattr_same.
    rewrite !hasattr_setattr_other by reflexivity.
    pose proof (store_model_fitted_attributes est0 model) as H.
    cbn [forallb] in H.
    repeat (apply andb_true_iff in H; destruct H as [?E H]).
    rewrite E, E0, E1. reflexivity. }
  split; [exact Hfit | ].
  unfold predict. rewrite Hfit. cbn [bind].
  destruct (check_array X) as [X' | e0]; [ | cbn [bind]; eauto].
  cbn [bind].
  destruct (bind (getattr est "relevance_vectors_") as_mat) as [rv | e1];
    [ | cbn [bind]; eauto].
  cbn [bind].
  destruct (_get_kernel pairwise_kernels est X' (Some rv)) as [K | ek];
    [ | cbn [bind]; eauto].
  cbn [bind].
  destruct (bind (getattr est "mu_") as_vec) as [mu | e2];
    [ | cbn [bind]; eauto].
  cbn [bind].
  destruct (forallb _ _); [ | cbn [bind]; eauto].
  cbn [negb].
  destruct (bind (getattr est "sigma_squared") as_float) as [s | e3];
    [ | cbn [bind]; eauto].
  cbn [bind].
  rewrite (hasattr_getattr _ _ Hno). cbn [bind]. eauto.
Qed.

Lemma get_kernel_store_model est model X Y :
  _get_kernel pairwise_kernels (store_model est model) X Y
  = _get_kernel pairwise_kernels est X Y.
Proof.
  unfold _get_kernel.
  rewrite !getattr_store_model_other by reflexivity. reflexivity.
Qed.

(** X17.  A second [fit] does not see the model of the first: on an
    estimator that holds a stored model, [fit] from its step 2 on does what
    it does on the estimator without it, and overwrites the four fitted
    attributes. *)
Theorem refit_forgets_previous_model (sigma_squared : R) (est : estimator)
    (model : fitted) (X : matrix) (y : vec) :
  fit_from pairwise_kernels lapack_inv lapack_pinv sigma_squared
    (store_model est model) X y
  = fit_from pairwise_kernels lapack_inv lapack_pinv sigma_squared est X y.
Proof.
  unfold fit_from, fit_with.
  destruct (check_X_y X y) as [[X0 y0] | e]; [ | reflexivity].
  cbn [bind]. rewrite get_kernel_store_model.
  destruct (_get_kernel pairwise_kernels est X0 None) as [K | ];
    [ | reflexivity].
  cbn [bind].
  rewrite !getattr_store_model_other by reflexivity.
  destruct (getattr est "max_iter") as [v1 | ]; [ | reflexivity].
  cbn [bind]. destruct (as_int v1) as [m | ]; [ | reflexivity]. cbn [bind].
  destruct (getattr est "tol") as [v2 | ]; [ | reflexivity].
  cbn [bind]. destruct (as_float v2) as [t | ]; [ | reflexivity]. cbn [bind].
  destruct (getattr est "threshold_alpha") as [v3 | ]; [ | reflexivity].
  cbn [bind]. destruct (as_float v3) as [th | ]; [ | reflexivity].
  cbn [bind].
  destruct (fit_steps _ _ _ _ _ _ _ _ _) as [[st model'] | ];
    [ | reflexivity].
  cbn [bind]. now rewrite store_model_overwrites.
Qed.

(** X18.  A callable kernel cannot be used: [_get_kernel] reads the
    attribute [kernel_params], which the constructor does not set, so on an
    estimator built with a callable kernel [fit] raises [AttributeError]
    as soon as the samples are validated, before its step 1. *)
Theorem callable_kernel_raises_AttributeError (name : string)
    (degree gamma coef0 tol threshold_alpha class_weight verbose max_iter
       random_state : pyval)
    (est : estimator) (X : matrix) (y : vec) :
  BaseRVM_init (PyCallable name) degree gamma coef0 tol threshold_alpha
    class_weight verbose max_iter random_state = Ok est ->
  length X = length y ->
  (2 <= length X)%nat ->
  _get_kernel pairwise_kernels est X None = Raise AttributeError
  /\ fit pairwise_kernels lapack_inv lapack_pinv est X y
     = Raise AttributeError
  /\ forall sigma_squared,
       fit_from pairwise_kernels lapack_inv lapack_pinv sigma_squared est X y
       = Raise AttributeError.
Proof.
  unfold BaseRVM_init. destruct (py_eq_zero gamma); [discriminate | ].
  intros H Hlen Hn. injection H as <-.
  assert (Hc : check_X_y X y = Ok (X, y)).
  { unfold check_X_y. rewrite Hlen, Nat.eqb_refl.
    replace (Nat.ltb (length y) 2) with false; [reflexivity | ].
    symmetry. apply Nat.ltb_ge. now rewrite <- Hlen. }
  split; [reflexivity | ].
  split; [ | intros sigma_squared]; unfold fit, fit_from, fit_with;
    rewrite Hc; reflexivity.
Qed.

End Predict.

(** ** The further properties on the examples *)

Lemma pinv_unused_rows a : length (pinv_unused a) = length a.
Proof. reflexivity. Qed.

Lemma linear_design_shape (X : matrix) (y : vec) :
  length X = length y ->
  design_shape (hstack_ones (matmul_T X X)) y.
Proof.
  intros H. unfold design_shape, hstack_ones, matmul_T, matmul, vecmat.
  split.
  - now rewrite !length_map.
  - rewrite map_map. apply Forall_map, Forall_forall. intros x _.
    cbn [length]. rewrite length_map, length_seq, Nat.add_1_r.
    f_equal. exact H.
Qed.

Lemma drop_three_passes :
  fit_loop inv_2x2 pinv_unused K_drop y_ex 1e-6 3 drop0 = Ok drop3.
Proof.
  cbn [fit_loop].
  rewrite drop_pass_0. cbn [bind].
  rewrite drop_pass_1. cbn [bind].
  rewrite drop_pass_2. reflexivity.
Qed.

Lemma drop_four_passes :
  fit_loop inv_2x2 pinv_unused K_drop y_ex 1e-6 4 drop0
  = Ok (dropped [1; 2; 0]%nat).
Proof.
  cbn [fit_loop].
  rewrite drop_pass_0. cbn [bind].
  rewrite drop_pass_1. cbn [bind].
  rewrite drop_pass_2. cbn [bind].
  rewrite drop_pass_3. reflexivity.
Qed.

Lemma conv_fit_steps :
  fit_steps inv_2x2 pinv_unused K_conv X_conv y_ex 1e-6 1e5 1 (2 / 5)
  = Ok (conv_final, conv_model).
Proof.
  unfold fit_steps. rewrite conv_initial_state. cbn [bind].
  rewrite conv_loop by lia. cbn [bind].
  rewrite conv_extract_model. reflexivity.
Qed.

Lemma two_active_extract_model :
  extract_model X_drop 1e5 two_active = Ok two_active_model.
Proof. unfold extract_model. reval. reflexivity. Qed.

Lemma single_bias_statistics_witness :
  st_Sigma conv0 = [[1 / (5 / 4 + INR (length y_ex) / (2 / 5))]]
  /\ st_mu conv0
     = [vsum y_ex / (2 / 5) * (1 / (5 / 4 + INR (length y_ex) / (2 / 5)))]
  /\ quality_sparsity K_conv (st_Phi conv0) (st_Sigma conv0) 1 y_ex (2 / 5) 1
     = ((dot (col 1 K_conv) y_ex
         - vsum (col 1 K_conv) * vsum y_ex
           * (1 / (5 / 4 + INR (length y_ex) / (2 / 5))) / (2 / 5))
        / (2 / 5),
        (dot (col 1 K_conv) (col 1 K_conv)
         - vsum (col 1 K_conv) ^ 2
           * (1 / (5 / 4 + INR (length y_ex) / (2 / 5))) / (2 / 5))
        / (2 / 5)).
Proof.
  apply (single_bias_statistics inv_2x2 pinv_unused
           (matmul_T X_conv X_conv) (5 / 4) [INFINITY; INFINITY] y_ex
           (2 / 5) (st_Sigma conv0) (st_mu conv0) (st_s conv0) (st_q conv0)
           (st_Phi conv0) 1).
  - apply linear_design_shape. reflexivity.
  - reflexivity.
  - cbn. lia.
  - lra.
  - cbn. lra.
  - apply conv_statistics.
Defined.

Lemma no_active_basis_statistics_witness :
  posterior inv_2x2 pinv_unused K_drop [INFINITY; INFINITY; INFINITY]
    (repeat false (length y_ex + 1)) y_ex 5
  = Ok ([], [], map (fun _ => []) K_drop)
  /\ noise_level y_ex [INFINITY; INFINITY; INFINITY]
       (repeat false (length y_ex + 1)) [] [] (map (fun _ => []) K_drop)
     = dot y_ex y_ex / INR (length y_ex)
  /\ quality_sparsity K_drop (map (fun _ => []) K_drop) [] 0 y_ex 5 0
     = (dot (col 0 K_drop) y_ex / 5, dot (col 0 K_drop) (col 0 K_drop) / 5).
Proof.
  apply (no_active_basis_statistics inv_2x2 pinv_unused K_drop
           [INFINITY; INFINITY; INFINITY] y_ex 5 0).
  - apply linear_design_shape. reflexivity.
  - reflexivity.
  - cbn. lia.
  - lra.
  - lia.
Defined.

Lemma statistics_shapes_witness :
  length [85 / 62; 7 / 2; INFINITY * (84 / 13) / (INFINITY - 84 / 13)]
  = (length y_ex + 1)%nat
  /\ length [235 / 62; - 7 / 2;
             INFINITY * (- 42 / 13) / (INFINITY - 84 / 13)]
     = (length y_ex + 1)%nat
  /\ length [94 / 65; - 7 / 13] = count_true [true; true; false]
  /\ length [[124 / 325; - 12 / 65]; [- 12 / 65; 2 / 13]]
     = count_true [true; true; false]
  /\ length [[1; 1]; [1; 2]] = length K_drop.
Proof.
  apply (statistics_shapes inv_2x2 pinv_unused inv_2x2_rows
           pinv_unused_rows K_drop [5 / 4; 3; INFINITY] [true; true; false]
           y_ex (2 / 5)).
  - apply linear_design_shape. reflexivity.
  - reflexivity.
  - reflexivity.
  - apply two_active_statistics.
Defined.

Lemma first_pass_keeps_bias_witness :
  nth 0 (st_s conv0) 0 = INR (length y_ex) / (2 / 5)
  /\ nth 0 (st_q conv0) 0 = vsum y_ex / (2 / 5)
  /\ exists stop st1,
       fit_iter inv_2x2 pinv_unused K_conv y_ex 1e-6 conv0 = Ok (stop, st1)
       /\ st_alpha st1 = st_alpha conv0
       /\ st_used_cond st1 = st_used_cond conv0.
Proof.
  apply (first_pass_keeps_bias inv_2x2 pinv_unused
           (matmul_T X_conv X_conv) y_ex (2 / 5) 1e-6 conv0).
  - apply linear_design_shape. reflexivity.
  - cbn. lia.
  - lra.
  - cbn. lra.
  - apply conv_initial_state.
Defined.

Lemma loop_indices_in_range_witness :
  length (st_alpha (dropped [1; 2; 0]%nat)) = (length y_ex + 1)%nat
  /\ length (st_used_cond (dropped [1; 2; 0]%nat)) = (length y_ex + 1)%nat
  /\ length (st_s (dropped [1; 2; 0]%nat)) = (length y_ex + 1)%nat
  /\ length (st_q (dropped [1; 2; 0]%nat)) = (length y_ex + 1)%nat
  /\ exists j, (j <= length y_ex)%nat
               /\ st_queue (dropped [1; 2; 0]%nat)
                  = skipn j (seq 0 (length y_ex + 1))
                    ++ firstn j (seq 0 (length y_ex + 1)).
Proof.
  apply (loop_indices_in_range inv_2x2 pinv_unused K_drop y_ex 1e-6 4
           (2 / 5) drop0 (dropped [1; 2; 0]%nat)).
  - apply linear_design_shape. reflexivity.
  - apply drop_initial_state.
  - apply drop_four_passes.
Defined.

Lemma inactive_precision_is_sentinel_witness :
  nth 0 (st_alpha (dropped [1; 2; 0]%nat)) 0 = INFINITY.
Proof.
  apply (inactive_precision_is_sentinel inv_2x2 pinv_unused K_drop y_ex
           1e-6 4 (2 / 5) drop0 (dropped [1; 2; 0]%nat) 0).
  - apply linear_design_shape. reflexivity.
  - apply drop_initial_state.
  - apply drop_four_passes.
  - reflexivity.
Defined.

Lemma pass_changes_one_basis_witness :
  (count_true (st_used_cond (dropped [1; 2; 0]%nat))
   <= count_true (st_used_cond drop3) + 1
   /\ count_true (st_used_cond drop3)
      <= count_true (st_used_cond (dropped [1; 2; 0]%nat)) + 1)%nat
  /\ (false = true ->
      st_used_cond (dropped [1; 2; 0]%nat) = st_used_cond drop3).
Proof.
  apply (pass_changes_one_basis inv_2x2 pinv_unused K_drop y_ex 1e-6 3
           (2 / 5) drop0 drop3 false (dropped [1; 2; 0]%nat)).
  - apply linear_design_shape. reflexivity.
  - apply drop_initial_state.
  - apply drop_three_passes.
  - apply drop_pass_3.
Defined.

Lemma precisions_stay_positive_witness :
  0 < nth 1 (st_alpha (dropped [1; 2; 0]%nat)) 0.
Proof.
  apply (precisions_stay_positive inv_2x2 pinv_unused K_drop y_ex 1e-6 4
           (2 / 5) drop0 (dropped [1; 2; 0]%nat) 1).
  - apply linear_design_shape. reflexivity.
  - lia.
  - apply drop_initial_state.
  - apply drop_four_passes.
  - cbn. lia.
Defined.

Lemma small_mean_raises_witness :
  fit_steps inv_2x2 pinv_unused K_drop X_drop y_centred 1e-6 1e5 5000
    (81 / 40)
  = Raise ValueError.
Proof.
  apply (small_mean_raises inv_2x2 pinv_unused (matmul_T X_drop X_drop)
           X_drop y_centred 1e-6 1e5 5000 (81 / 40)).
  - apply linear_design_shape. reflexivity.
  - cbn. lia.
  - lia.
  - cbn. lra.
Defined.

Lemma no_pass_model_witness :
  exists st,
    fit_steps inv_2x2 pinv_unused K_conv X_conv y_ex 1e-6 1e5 0 (2 / 5)
    = Ok (st,
          {| relevance_vectors_ := [];
             mu_ :=
               if Rltb (INR (length y_ex)
                        / (vsum y_ex ^ 2 / INR (length y_ex) - 2 / 5)) 1e5
               then [vsum y_ex / INR (length y_ex) - 2 / 5 / vsum y_ex]
               else [];
             Sigma_ :=
               if Rltb (INR (length y_ex)
                        / (vsum y_ex ^ 2 / INR (length y_ex) - 2 / 5)) 1e5
               then [[2 / 5 / INR (length y_ex)
                      - (2 / 5 / vsum y_ex) ^ 2]]
               else [];
             sigma_squared_ := 2 / 5 |}).
Proof.
  apply (no_pass_model inv_2x2 pinv_unused (matmul_T X_conv X_conv)
           X_conv y_ex 1e-6 1e5 (2 / 5)).
  - apply linear_design_shape. reflexivity.
  - reflexivity.
  - cbn. lia.
  - lra.
  - cbn. lra.
  - cbn. lra.
Defined.

Lemma first_pass_stop_model_witness :
  fit_steps inv_2x2 pinv_unused K_conv X_conv y_ex 1e-6 1e5 5000 (2 / 5)
  = Ok (conv_final,
        {| relevance_vectors_ := [];
           mu_ := [vsum y_ex / INR (length y_ex) - 2 / 5 / vsum y_ex];
           Sigma_ := [[2 / 5 / INR (length y_ex)
                       - (2 / 5 / vsum y_ex) ^ 2]];
           sigma_squared_ := 2 / 5 |}).
Proof.
  apply (first_pass_stop_model inv_2x2 pinv_unused
           (matmul_T X_conv X_conv) X_conv y_ex 1e-6 1e5 5000 (2 / 5)
           conv0 conv_final).
  - apply linear_design_shape. reflexivity.
  - reflexivity.
  - cbn. lia.
  - lia.
  - lra.
  - cbn. lra.
  - cbn. lra.
  - apply conv_initial_state.
  - apply conv_pass_0.
Defined.

Lemma fit_raises_kernel_ValueError_IndexError_witness :
  (exists model,
      fit_from pairwise_linear inv_2x2 pinv_unused (2 / 5)
        (linear_estimator 5000) X_drop y_ex
      = Ok (store_model (linear_estimator 5000) model))
  \/ fit_from pairwise_linear inv_2x2 pinv_unused (2 / 5)
       (linear_estimator 5000) X_drop y_ex
     = Raise ValueError
  \/ fit_from pairwise_linear inv_2x2 pinv_unused (2 / 5)
       (linear_estimator 5000) X_drop y_ex
     = Raise IndexError
  \/ (exists e,
        _get_kernel pairwise_linear (linear_estimator 5000) X_drop None
        = Raise e
        /\ fit_from pairwise_linear inv_2x2 pinv_unused (2 / 5)
             (linear_estimator 5000) X_drop y_ex
           = Raise e).
Proof.
  apply (fit_raises_kernel_ValueError_IndexError pairwise_linear inv_2x2
           pinv_unused (linear_params 5000) (linear_estimator 5000) (2 / 5)
           X_drop y_ex).
  reflexivity.
Defined.

Lemma returned_model_keeps_bias_active_witness :
  nth 0 (st_used_cond conv_final) false = true
  /\ (1 <= count_true (st_used_cond conv_final))%nat
  /\ length (st_mu conv_final) = count_true (st_used_cond conv_final).
Proof.
  apply (returned_model_keeps_bias_active inv_2x2 pinv_unused inv_2x2_rows
           pinv_unused_rows K_conv X_conv y_ex 1e-6 1e5 1 (2 / 5)
           conv_final conv_model).
  - apply linear_design_shape. reflexivity.
  - apply conv_fit_steps.
Defined.

Lemma extracted_model_shapes_witness :
  length (mu_ two_active_model)
  = ((if Rltb (nth 0 (st_alpha two_active) 0%R) 1e5 then 1 else 0)
     + length (relevance_vectors_ two_active_model))%nat
  /\ length (Sigma_ two_active_model) = length (mu_ two_active_model)
  /\ (length (relevance_vectors_ two_active_model) <= length X_drop)%nat
  /\ sigma_squared_ two_active_model = st_sigma_squared two_active.
Proof.
  apply (extracted_model_shapes X_drop 1e5 two_active two_active_model).
  - cbn. lia.
  - apply two_active_extract_model.
Defined.

Lemma predict_accepts_extracted_model_witness :
  predict pairwise_linear
    (setattr (store_model (linear_estimator 5000) two_active_model)
       "sigma_squared" (PyFloat (2 / 5)))
    [[2]] false
  = Ok (matvec
          (if Rltb (nth 0 (st_alpha two_active) 0) 1e5
           then hstack_ones
                  (matmul_T [[2]] (relevance_vectors_ two_active_model))
           else matmul_T [[2]] (relevance_vectors_ two_active_model))
          (mu_ two_active_model),
        None).
Proof.
  apply (predict_accepts_extracted_model pairwise_linear X_drop 1e5 two_active
           two_active_model
           (setattr (store_model (linear_estimator 5000) two_active_model)
              "sigma_squared" (PyFloat (2 / 5)))
           [[2]] (matmul_T [[2]] (relevance_vectors_ two_active_model))).
  - cbn. lia.
  - apply two_active_extract_model.
  - reflexivity.
  - reflexivity.
  - reflexivity.
  - reflexivity.
  - reflexivity.
  - repeat constructor.
Defined.

Lemma predict_return_std_never_returns_witness :
  check_is_fitted
    (setattr (store_model (linear_estimator 5000) two_active_model)
       "sigma_squared" (PyFloat (2 / 5)))
    ["relevance_vectors_"; "mu_"; "Sigma_"; "sigma_squared"]%string = Ok tt
  /\ exists e,
       predict pairwise_linear
         (setattr (store_model (linear_estimator 5000) two_active_model)
            "sigma_squared" (PyFloat (2 / 5)))
         [[2]] true
       = Raise e.
Proof.
  apply (predict_return_std_never_returns pairwise_linear
           (linear_params 5000) (linear_estimator 5000) two_active_model
           (PyFloat (2 / 5)) [[2]]).
  reflexivity.
Defined.

Lemma callable_kernel_raises_AttributeError_witness :
  _get_kernel pairwise_linear
    [ ("kernel", PyCallable "k"); ("degree", PyInt 3);
      ("gamma", PyStr "auto_deprecated"); ("coef0", PyFloat 0);
      ("tol", PyFloat 1e-6); ("threshold_alpha", PyFloat 1e5);
      ("class_weight", PyNone); ("max_iter", PyInt 5000);
      ("verbose", PyBool false); ("random_state", PyNone) ]%string
    X_conv None
  = Raise AttributeError.
Proof.
  apply (callable_kernel_raises_AttributeError pairwise_linear inv_2x2
           pinv_unused "k" (PyInt 3) (PyStr "auto_deprecated") (PyFloat 0)
           (PyFloat 1e-6) (PyFloat 1e5) PyNone (PyBool false) (PyInt 5000)
           PyNone _ X_conv y_ex).
  - reflexivity.
  - reflexivity.
  - cbn. lia.
Defined.
